(** * A shallow embedding of the [cron] package (simonybfq/cron)

    The development follows [cron.go]: the six-field expression parser
    ([trigger.parse] and its helpers), the next-fire-time resolver
    ([trigger.next]), the memoising [job] and the sequential part of the
    [Scheduler] ([AddJob], [Remove]).

    Conventions.
    - Go's [uint]/[int]/[uint64] values are modelled as [Z].  Every quantity
      handled by the parser and the resolver is a small non-negative number
      (a field value, a day, a clock component) or a calendar year that is
      converted [uint(now.Year())] and back [int(nextYear)] unchanged, so
      the conversions are the identity there.  The scheduler's id counter
      is the one place where wrap-around is reachable in principle; it is
      written out ([uint_wrap]).
    - [time.Local] is taken to be a fixed zone of offset zero, so a [Time]
      is a count of seconds since 0001-01-01 00:00:00 (the zero [Time{}])
      plus nanoseconds, and the calendar is the proleptic Gregorian one of
      Go's [time] package.  Zones with daylight saving are outside the
      model: there [time.Date] maps a local hour that occurs twice to its
      first occurrence, so the results below that order fire times are
      results about the fixed zone only.
    - A Go call that does not return normally (a run-time panic, a loop
      that never ends, a send that blocks for ever) yields [Abort]. *)

From stdpp Require Import gmap strings list.
From Stdlib Require Import ZArith Lia ZifyBool Ascii String.

#[local] Open Scope string_scope.
#[local] Open Scope Z_scope.

#[local] Ltac Zify.zify_post_hook ::= Z.to_euclidean_division_equations.

(** ** Results of Go calls *)

Inductive fieldName :=
  secField | minField | hourField | dayField | monField | weekField | noField.

Inductive NumError := ErrSyntax | ErrRange.

(** One constructor per kind of [errors.New] message of [cron.go]; the
    formatted text is not modelled. *)
Inductive error :=
  | errFieldCount
  | errNum (e : NumError) (token : string)
  | errNotInteger (f : fieldName) (token : string)
  | errFieldRange (f : fieldName)
  | errStartGreater (f : fieldName) (token : string)
  | errIncrementZero (f : fieldName)
  | errDayRange (token : string)
  | errMonth (token : string)
  | errWeek (token : string)
  | errDayMustBeWildcard.

Inductive res (A : Type) :=
  | Ok (a : A)
  | Err (e : error)
  | Abort.
Arguments Ok {A} a.
Arguments Err {A} e.
Arguments Abort {A}.

#[global] Instance res_ret : MRet res := fun A a => Ok a.
#[global] Instance res_bind : MBind res := fun A B k m =>
  match m with
  | Ok a => k a
  | Err e => Err e
  | Abort => Abort
  end.

Definition isOk {A} (r : res A) : bool := match r with Ok _ => true | _ => false end.
Definition isErr {A} (r : res A) : bool := match r with Err _ => true | _ => false end.

(** [arr[i]] on a slice: a run-time panic when out of range. *)
Definition index {A} (arr : list A) (i : nat) : res A :=
  match arr !! i with
  | Some a => Ok a
  | None => Abort
  end.

(** ** Package [time] *)

Module time.

Record Time := mkTime { wall : Z; nsec : Z }.

(** [time.Time{}]: January 1, year 1, 00:00:00. *)
Definition zero : Time := mkTime 0 0.

Definition isLeap (year : Z) : bool :=
  ((Z.rem year 4 =? 0) && negb (Z.rem year 100 =? 0)) || (Z.rem year 400 =? 0).

(** [daysBefore[m]]: days in a non-leap year before month [m+1]. *)
Definition daysBefore (m : Z) : Z :=
  match m with
  | 0 => 0 | 1 => 31 | 2 => 59 | 3 => 90 | 4 => 120 | 5 => 151 | 6 => 181
  | 7 => 212 | 8 => 243 | 9 => 273 | 10 => 304 | 11 => 334 | _ => 365
  end.

(** Days from 0001-01-01 to January 1 of [year]. *)
Definition daysSinceEpoch (year : Z) : Z :=
  let y := year - 1 in 365 * y + y / 4 - y / 100 + y / 400.

Definition norm (hi lo base : Z) : Z * Z := (hi + lo / base, lo mod base).

(** [time.Date(year, month, day, hour, min, sec, nsec, time.Local)]:
    out-of-range components are normalised, a day of 0 is the last day
    of the previous month. *)
Definition Date (year month day hour min sec ns : Z) : Time :=
  let '(year, m) := norm year (month - 1) 12 in
  let month := m + 1 in
  let '(sec, ns) := norm sec ns 1000000000 in
  let '(min, sec) := norm min sec 60 in
  let '(hour, min) := norm hour min 60 in
  let '(day, hour) := norm day hour 24 in
  let d := daysSinceEpoch year + daysBefore (month - 1) in
  let d := if isLeap year && (3 <=? month) then d + 1 else d in
  let d := d + (day - 1) in
  mkTime (d * 86400 + (hour * 3600 + min * 60 + sec)) ns.

(** The year and the day within it (from 0) of a day count. *)
Definition yearDay (d : Z) : Z * Z :=
  let n := d / 146097 in
  let y := 400 * n in
  let d := d - 146097 * n in
  let n := d / 36524 in
  let n := n - Z.shiftr n 2 in
  let y := y + 100 * n in
  let d := d - 36524 * n in
  let n := d / 1461 in
  let y := y + 4 * n in
  let d := d - 1461 * n in
  let n := d / 365 in
  let n := n - Z.shiftr n 2 in
  let y := y + n in
  let d := d - 365 * n in
  (y + 1, d).

Definition monthOfDay (day : Z) : Z * Z :=
  let month := day / 31 in
  let e := daysBefore (month + 1) in
  let '(month, begin) :=
    if e <=? day then (month + 1, e) else (month, daysBefore month) in
  (month + 1, day - begin + 1).

(** Month and day of the month of day [day] of a year. *)
Definition monthDay (leap : bool) (day : Z) : Z * Z :=
  if leap && (day =? 31 + 29 - 1) then (2, 29)
  else monthOfDay (if leap && (31 + 29 - 1 <? day) then day - 1 else day).

Definition absDate (d : Z) : Z * Z * Z :=
  let '(year, yd) := yearDay d in
  let '(month, day) := monthDay (isLeap year) yd in
  (year, month, day).

Definition days (t : Time) : Z := wall t / 86400.
Definition Year (t : Time) : Z := (absDate (days t)).1.1.
Definition Month (t : Time) : Z := (absDate (days t)).1.2.
Definition Day (t : Time) : Z := (absDate (days t)).2.
(** Sunday is 0; 0001-01-01 is a Monday. *)
Definition Weekday (t : Time) : Z := (days t + 1) mod 7.
Definition Hour (t : Time) : Z := (wall t mod 86400) / 3600.
Definition Minute (t : Time) : Z := (wall t mod 3600) / 60.
Definition Second (t : Time) : Z := wall t mod 60.
Definition Nanosecond (t : Time) : Z := nsec t.

Definition Before (t u : Time) : bool :=
  (wall t <? wall u) || ((wall t =? wall u) && (nsec t <? nsec u)).
Definition After (t u : Time) : bool :=
  (wall u <? wall t) || ((wall t =? wall u) && (nsec u <? nsec t)).
Definition Equal (t u : Time) : bool :=
  (wall t =? wall u) && (nsec t =? nsec u).

(** Durations are counts of nanoseconds. *)
Definition Second_ : Z := 1000000000.
Definition Minute_ : Z := 60 * Second_.
Definition Hour_ : Z := 60 * Minute_.

Definition Add (t : Time) (d : Z) : Time :=
  let n := nsec t + d in
  mkTime (wall t + n / 1000000000) (n mod 1000000000).

Definition AddDate (t : Time) (years months days : Z) : Time :=
  Date (Year t + years) (Month t + months) (Day t + days)
       (Hour t) (Minute t) (Second t) (Nanosecond t).

End time.

Import time.

(** ** Package [strconv] *)

Module strconv.

Definition isDigit (c : ascii) : bool :=
  let n := Z.of_N (N_of_ascii c) in (48 <=? n) && (n <=? 57).

Definition digit (c : ascii) : Z := Z.of_N (N_of_ascii c) - 48.

Definition maxUint64 : Z := 2 ^ 64 - 1.

(** The digit loop of [ParseUint] for base 10: the first character that
    is not a digit is a syntax error with value 0, the first overflow of
    [bitSize] bits a range error with the largest value. *)
Fixpoint digits (bitSize : Z) (s : string) (n : Z) : Z * option NumError :=
  match s with
  | EmptyString => (n, None)
  | String c s' =>
      if isDigit c then
        let maxVal := 2 ^ bitSize - 1 in
        if maxUint64 / 10 + 1 <=? n then (maxVal, Some ErrRange)
        else
          let n := n * 10 in
          let n1 := (n + digit c) mod 2 ^ 64 in
          if (n1 <? n) || (maxVal <? n1) then (maxVal, Some ErrRange)
          else digits bitSize s' n1
      else (0, Some ErrSyntax)
  end.

(** [strconv.ParseUint(s, 10, bitSize)]. *)
Definition ParseUint (s : string) (bitSize : Z) : Z * option NumError :=
  match s with
  | EmptyString => (0, Some ErrSyntax)
  | _ => digits bitSize s 0
  end.

End strconv.

(** ** Package [strings] *)

Module strings.

(** [strings.Split(s, sep)] for a one-byte separator. *)
Fixpoint Split (s : string) (sep : ascii) : list string :=
  match s with
  | EmptyString => [EmptyString]
  | String c s' =>
      if Ascii.eqb c sep then EmptyString :: Split s' sep
      else match Split s' sep with
           | h :: tl => String c h :: tl
           | [] => [String c EmptyString]
           end
  end.

(** [strings.IndexByte(s, c)]: the first index of [c], or -1. *)
Fixpoint IndexByte (s : string) (c : ascii) : Z :=
  match s with
  | EmptyString => -1
  | String c' s' =>
      if Ascii.eqb c' c then 0
      else let i := IndexByte s' c in if i <? 0 then -1 else i + 1
  end.

(** [s[:i]] and [s[i:]]. *)
Definition prefix (s : string) (i : Z) : string :=
  String.substring 0 (Z.to_nat i) s.
Definition suffix (s : string) (i : Z) : string :=
  String.substring (Z.to_nat i) (String.length s - Z.to_nat i) s.

End strings.

Import strconv strings.

(** ** Package [cron]: data *)

Definition maxDeep : Z := 10.

(** The [ranges] table; looking up a name that is not a key yields a nil
    slice, whose indexing panics. *)
Definition ranges (name : fieldName) : res (Z * Z) :=
  match name with
  | secField => Ok (0, 59)
  | minField => Ok (0, 59)
  | hourField => Ok (0, 23)
  | dayField => Ok (1, 31)
  | monField => Ok (1, 12)
  | weekField => Ok (0, 6)
  | noField => Abort
  end.

Definition monsAlias (s : string) : option Z :=
  if String.eqb s "JAN" then Some 1 else if String.eqb s "FEB" then Some 2
  else if String.eqb s "MAR" then Some 3 else if String.eqb s "APR" then Some 4
  else if String.eqb s "MAY" then Some 5 else if String.eqb s "JUN" then Some 6
  else if String.eqb s "JUL" then Some 7 else if String.eqb s "AUG" then Some 8
  else if String.eqb s "SEP" then Some 9 else if String.eqb s "OCT" then Some 10
  else if String.eqb s "NOV" then Some 11 else if String.eqb s "DEC" then Some 12
  else None.

Definition weekAlias (s : string) : option Z :=
  if String.eqb s "SUN" then Some 0 else if String.eqb s "MON" then Some 1
  else if String.eqb s "TUE" then Some 2 else if String.eqb s "WED" then Some 3
  else if String.eqb s "THU" then Some 4 else if String.eqb s "FRI" then Some 5
  else if String.eqb s "SAT" then Some 6 else None.

(** The closures stored in [field.calculate], by the parser branch that
    builds them, with the values they capture. *)
Inductive calc :=
  | calcDayL
  | calcDayLW
  | calcDayW (day : Z)
  | calcWeekL (weekNum : Z)
  | calcWeekNth (weekNum weekDay : Z).

Module field.
Record t := mk {
  name : fieldName;
  isRange : bool;
  start : Z;
  end_ : Z;
  increment : Z;
  values : list Z;
  calculate : option calc
}.

(** [&field{name: n}] *)
Definition new (n : fieldName) : t := mk n false 0 0 0 [] None.

Definition setIsRange (f : t) (b : bool) : t :=
  mk (name f) b (start f) (end_ f) (increment f) (values f) (calculate f).
Definition setStart (f : t) (v : Z) : t :=
  mk (name f) (isRange f) v (end_ f) (increment f) (values f) (calculate f).
Definition setEnd (f : t) (v : Z) : t :=
  mk (name f) (isRange f) (start f) v (increment f) (values f) (calculate f).
Definition setIncrement (f : t) (v : Z) : t :=
  mk (name f) (isRange f) (start f) (end_ f) v (values f) (calculate f).
Definition setValues (f : t) (v : list Z) : t :=
  mk (name f) (isRange f) (start f) (end_ f) (increment f) v (calculate f).
Definition setCalculate (f : t) (c : calc) : t :=
  mk (name f) (isRange f) (start f) (end_ f) (increment f) (values f) (Some c).

(** [f.isRange = true; f.start = v; f.end = v] *)
Definition setSingle (f : t) (v : Z) : t :=
  setEnd (setStart (setIsRange f true) v) v.
End field.

Module trigger.
Record t := mk {
  cron : string;
  sec : field.t;
  min : field.t;
  hour : field.t;
  day : field.t;
  mon : field.t;
  week : field.t
}.

Definition setDay (tr : t) (f : field.t) : t :=
  mk (cron tr) (sec tr) (min tr) (hour tr) f (mon tr) (week tr).
Definition setWeek (tr : t) (f : field.t) : t :=
  mk (cron tr) (sec tr) (min tr) (hour tr) (day tr) (mon tr) f.
End trigger.

(** ** The expression parser *)

Definition isSome {A} (o : option A) : bool :=
  match o with Some _ => true | None => false end.

Definition checkAlias (str value : string) (f : field.t) (num : Z) : Z * option error :=
  match field.name f with
  | weekField =>
      match weekAlias value with
      | Some v => (v, None)
      | None => (num, Some (errNotInteger weekField value))
      end
  | monField =>
      match monsAlias value with
      | Some v => (v, None)
      | None => (num, Some (errNotInteger monField value))
      end
  | _ => (num, None)
  end.

(** [n, err := strconv.ParseUint(value, 10, 8)] followed by the test
    [err != nil && checkAlias(str, value, f, &n) != nil], which returns
    [err]: the number kept on the way, or the error returned. *)
Definition parseOrAlias (str value : string) (f : field.t) : res Z :=
  let '(n, err) := ParseUint value 8 in
  match err with
  | None => Ok n
  | Some e =>
      let '(n, err') := checkAlias str value f n in
      if isSome err' then Err (errNum e value) else Ok n
  end.

Definition parserRangeField (str : string) (arr : list string) (f : field.t)
  : res field.t :=
  let f := field.setIsRange f true in
  '(min, max) ← ranges (field.name f);
  a0 ← index arr 0;
  start0 ← parseOrAlias str a0 f;
  let f := field.setStart f start0 in
  if (field.start f <? min) || (max <? field.start f)
  then Err (errFieldRange (field.name f))
  else
    a1 ← index arr 1;
    end0 ← parseOrAlias str a1 f;
    let f := field.setEnd f end0 in
    if (field.end_ f <? min) || (max <? field.end_ f)
    then Err (errFieldRange (field.name f))
    else if field.end_ f <? field.start f
    then Err (errStartGreater (field.name f) str)
    else Ok f.

(** [for i := start; i <= end; i += increment { values = append(values, i) }] *)
Fixpoint stepValues (fuel : nat) (i end_ increment : Z) : list Z :=
  match fuel with
  | O => []
  | S fuel =>
      if i <=? end_ then i :: stepValues fuel (i + increment) end_ increment
      else []
  end.

Definition parserIncreaseField (str : string) (arr : list string) (f : field.t)
  : res field.t :=
  let f := field.setIsRange f false in
  '(min, max) ← ranges (field.name f);
  a0 ← index arr 0;
  start ←
    (if String.eqb a0 "*" then Ok min
     else
       let '(start0, err) := ParseUint a0 8 in
       if isSome err then Err (errNotInteger (field.name f) a0)
       else if (start0 <? min) || (max <? start0)
       then Err (errFieldRange (field.name f))
       else Ok start0);
  let end_ := max in
  a1 ← index arr 1;
  let '(increment0, err) := ParseUint a1 8 in
  if isSome err then Err (errNotInteger (field.name f) a1)
  else
    let increment := increment0 in
    if increment =? 0 then Err (errIncrementZero (field.name f))
    else if (increment <? min) || (max <? increment)
    then Err (errFieldRange (field.name f))
    else
      let f := field.setIncrement (field.setEnd (field.setStart f start) end_) increment in
      Ok (field.setValues f
            (field.values f ++
             stepValues (Z.to_nat (end_ - start + 1)) start end_ increment)).

(** [sort.Slice(values, func(i, j int) bool { return values[i] < values[j] })] *)
Fixpoint insertSorted (x : Z) (l : list Z) : list Z :=
  match l with
  | [] => [x]
  | y :: l' => if x <=? y then x :: l else y :: insertSorted x l'
  end.

Definition sortValues (l : list Z) : list Z := foldr insertSorted [] l.

(** The loop of [parserEnumField] over [arr]. *)
Fixpoint enumValues (str : string) (arr : list string) (f : field.t) (min max : Z)
  : res (list Z) :=
  match arr with
  | [] => Ok []
  | a :: arr =>
      temp ← parseOrAlias str a f;
      let tempNum := temp in
      if (tempNum <? min) || (max <? tempNum)
      then Err (errFieldRange (field.name f))
      else vs ← enumValues str arr f min max; Ok (tempNum :: vs)
  end.

Definition parserEnumField (str : string) (arr : list string) (f : field.t)
  : res field.t :=
  let f := field.setIsRange f false in
  '(min, max) ← ranges (field.name f);
  values ← enumValues str arr f min max;
  Ok (field.setValues f (sortValues values)).

Definition contains (s : string) (c : ascii) : bool := -1 <? IndexByte s c.

(** The part shared by all six fields: the [A-B], [A/B] and [A,B,...]
    forms, tried in this order; [other] is what the field does with a
    token of none of these forms. *)
Definition parserCompound (s : string) (f : field.t) (other : res field.t)
  : res field.t :=
  if contains s "-" then parserRangeField s (Split s "-") f
  else if contains s "/" then parserIncreaseField s (Split s "/") f
  else if contains s "," then parserEnumField s (Split s ",") f
  else other.

(** 日期 1-31 – * ? / , L W *)
Definition parserDayField (s : string) : res field.t :=
  let f := field.new dayField in
  if String.eqb s "*" || String.eqb s "?"
  then Ok (field.setEnd (field.setStart (field.setIsRange f true) 1) 31)
  else
    parserCompound s f
      (if String.eqb s "L" then Ok (field.setCalculate f calcDayL)
       else if String.eqb s "LW" then Ok (field.setCalculate f calcDayLW)
       else if contains s "W" then
         let '(day, _) := ParseUint (prefix s (IndexByte s "W")) 8 in
         Ok (field.setCalculate f (calcDayW day))
       else
         let '(day, _) := ParseUint s 8 in
         if (day <? 1) || (31 <? day) then Err (errDayRange s)
         else Ok (field.setSingle f day)).

(** 月份 1-12 或者 JAN-DEC – * / , *)
Definition parserMonField (s : string) : res field.t :=
  let f := field.new monField in
  if String.eqb s "*"
  then Ok (field.setEnd (field.setStart (field.setIsRange f true) 1) 12)
  else
    parserCompound s f
      (let '(mon, err) := ParseUint s 8 in
       start ←
         (if isSome err then
            match monsAlias s with
            | None => Err (errMonth s)
            | Some alias => Ok alias
            end
          else
            let start := mon in
            if (start <? 1) || (12 <? start) then Err (errMonth s) else Ok start);
       Ok (field.setSingle f start)).

(** 星期 0-6 或者 SUN-SAT – * ? / , L # *)
Definition parserWeekField (cron s : string) : res field.t :=
  if String.eqb s "*" || String.eqb s "?"
  then Ok (field.mk noField true 0 6 0 [] None)
  else
    let f := field.new weekField in
    let arr := Split cron " " in
    a3 ← index arr 3;
    if negb (String.eqb a3 "*") && negb (String.eqb a3 "?")
    then Err errDayMustBeWildcard
    else
      parserCompound s f
        (if contains s "L" then
           weekNum ←
             (if String.eqb s "L" then Ok 6
              else
                let '(start, err) := ParseUint (prefix s (IndexByte s "L")) 8 in
                if isSome err then Err (errWeek s)
                else if (start <? 0) || (6 <? start) then Err (errWeek s)
                else Ok start);
           Ok (field.setCalculate f (calcWeekL weekNum))
         else if contains s "#" then
           let index := IndexByte s "#" in
           let '(weekDay, err) := ParseUint (prefix s index) 8 in
           if isSome err then Err (errWeek s)
           else if (weekDay <? 0) || (6 <? weekDay) then Err (errWeek s)
           else
             let '(weekNum, err) := ParseUint (suffix s (index + 1)) 8 in
             if isSome err then Err (errWeek s)
             else if (weekNum <? 1) || (4 <? weekNum) then Err (errWeek s)
             else Ok (field.setCalculate f (calcWeekNth weekNum weekDay))
         else
           let '(week, err) := ParseUint s 8 in
           start ←
             (if isSome err then
                match weekAlias s with
                | None => Err (errWeek s)
                | Some alias => Ok alias
                end
              else
                let start := week in
                if (start <? 0) || (6 <? start) then Err (errWeek s) else Ok start);
           Ok (field.setSingle f start)).

(** The body of the loop of [parse] over the seconds, minutes and hours. *)
Definition parserClockField (unit : fieldName) (str : string) : res field.t :=
  let f := field.new unit in
  if String.eqb str "*" then
    '(_, max) ← ranges (field.name f);
    Ok (field.setEnd (field.setStart (field.setIsRange f true) 0) max)
  else
    parserCompound str f
      (let '(start, err) := ParseUint str 8 in
       if isSome err then Err (errNotInteger unit str)
       else if (start <? 0) || (59 <? start) then Err (errFieldRange unit)
       else Ok (field.setSingle f start)).

Definition parse (cron : string) : res trigger.t :=
  let arr := Split cron " " in
  if negb (List.length arr =? 6)%nat then Err errFieldCount
  else
    a0 ← index arr 0; sec ← parserClockField secField a0;
    a1 ← index arr 1; min ← parserClockField minField a1;
    a2 ← index arr 2; hour ← parserClockField hourField a2;
    a3 ← index arr 3; day ← parserDayField a3;
    a4 ← index arr 4; mon ← parserMonField a4;
    a5 ← index arr 5; week ← parserWeekField cron a5;
    Ok (trigger.mk cron sec min hour day mon week).

Definition newTrigger (cronExpression : string) : res trigger.t :=
  parse cronExpression.

(** ** Calendar helpers of the resolver *)

(** The loops below run until a condition on the calendar holds; they
    either stop within a month's worth of iterations or never do, which
    [loopFuel] iterations tell apart. *)
Definition loopFuel : nat := 32.

(** [for cond(t) { t = body(t) }] *)
Fixpoint while (fuel : nat) (cond : Time -> bool) (body : Time -> Time) (t : Time)
  : res Time :=
  if cond t then
    match fuel with
    | O => Abort
    | S fuel => while fuel cond body (body t)
    end
  else Ok t.

(** [for i := start; i <= end; i++] as the list of the values of [i]. *)
Definition rangeValues (start end_ : Z) : list Z := seqZ start (end_ - start + 1).

Definition getRangeNextValue (start end_ nowValue : Z) : Z * bool :=
  match List.find (fun i => nowValue <=? i) (rangeValues start end_) with
  | Some i => (i, true)
  | None => (start, false)
  end.

Definition getIncreaseNextValue (values : list Z) (nowValue : Z) : res (Z * bool) :=
  match List.find (fun value => nowValue <=? value) values with
  | Some value => Ok (value, true)
  | None => nextValue ← index values 0; Ok (nextValue, false)
  end.

Definition getRangeDayNextValue (start end_ year nextMonth day nextWeekDay : Z) : Z :=
  match List.find
          (fun i => (day <=? i) &&
                    (Weekday (Date year nextMonth i 0 0 0 0) =? nextWeekDay))
          (rangeValues start end_) with
  | Some i => i
  | None => 0
  end.

Definition getIncreaseDayNextValue (values : list Z) (year nextMonth day nextWeekDay : Z)
  : Z :=
  match List.find
          (fun i => (day <=? i) &&
                    (Weekday (Date year nextMonth i 0 0 0 0) =? nextWeekDay))
          values with
  | Some i => i
  | None => 0
  end.

Definition getYearMonthDays (year month : Z) : Z :=
  match month with
  | 1 | 3 | 5 | 7 | 8 | 10 | 12 => 31
  | 4 | 6 | 9 | 11 => 30
  | _ =>
      if ((Z.rem year 4 =? 0) && negb (Z.rem year 100 =? 0)) || (Z.rem year 400 =? 0)
      then 29 else 28
  end.

(** Returns [nil] ([None]) when walking back over a weekend leaves the month. *)
Definition getLatestWorkDay (year month day : Z) : res (option Time) :=
  t ← while loopFuel (fun t => (Weekday t =? 0) || (Weekday t =? 6))
         (fun t => AddDate t 0 0 (-1)) (Date year month day 0 0 0 0);
  if negb (Month t =? month) then Ok None else Ok (Some t).

Definition getMonthLatestWeek (year month weekDay : Z) : res Time :=
  let max := getYearMonthDays year month in
  while loopFuel (fun t => negb (Weekday t =? weekDay))
    (fun t => AddDate t 0 0 (-1)) (Date year month max 0 0 0 0).

Definition getMonthAfterLatestWeek (year month day weekDay : Z) : res Time :=
  while loopFuel (fun t => negb (Weekday t =? weekDay))
    (fun t => AddDate t 0 0 1) (Date year month day 0 0 0 0).

(** The loop of [getMonthWeekByWeekNumDay], on [t] and [tempWeekNum]. *)
Fixpoint weekNumLoop (fuel : nat) (month weekNum weekDay : Z) (t : Time)
    (tempWeekNum : Z) : res (option Time) :=
  if Month t =? month then
    let hit := Weekday t =? weekDay in
    let tempWeekNum := if hit then tempWeekNum + 1 else tempWeekNum in
    if hit && (tempWeekNum =? weekNum) then Ok (Some t)
    else
      match fuel with
      | O => Abort
      | S fuel => weekNumLoop fuel month weekNum weekDay (AddDate t 0 0 1) tempWeekNum
      end
  else Ok None.

Definition getMonthWeekByWeekNumDay (year month weekNum weekDay : Z)
  : res (option Time) :=
  weekNumLoop loopFuel month weekNum weekDay (Date year month 1 0 0 0 0) 0.

(** ** The next-fire-time resolver *)

(** Running a [calculate] closure: it rewrites the day (and week) field of
    the trigger it was built for and tells whether the month has a match. *)
Definition calculate (c : calc) (t : trigger.t) (year month : Z) : res (bool * trigger.t) :=
  match c with
  | calcDayL =>
      let start := getYearMonthDays year month in
      Ok (true, trigger.setDay t (field.setSingle (trigger.day t) start))
  | calcDayLW =>
      let max := getYearMonthDays year month in
      tempTime ← getLatestWorkDay year month max;
      match tempTime with
      | None => Abort
      | Some tm =>
          let start := Day tm in
          Ok (true, trigger.setDay t (field.setSingle (trigger.day t) start))
      end
  | calcDayW day =>
      tempTime ← getLatestWorkDay year month day;
      match tempTime with
      | None => Ok (false, t)
      | Some tm =>
          let start := Day tm in
          Ok (true, trigger.setDay t (field.setSingle (trigger.day t) start))
      end
  | calcWeekL weekNum =>
      now ← getMonthLatestWeek year month weekNum;
      let t := trigger.setWeek t (field.setSingle (trigger.week t) (Weekday now)) in
      Ok (true, trigger.setDay t (field.setSingle (trigger.day t) (Day now)))
  | calcWeekNth weekNum weekDay =>
      tempTime ← getMonthWeekByWeekNumDay year month weekNum weekDay;
      match tempTime with
      | None => Ok (false, t)
      | Some now =>
          let t := trigger.setWeek t (field.setSingle (trigger.week t) (Weekday now)) in
          Ok (true, trigger.setDay t (field.setSingle (trigger.day t) (Day now)))
      end
  end.

(** The test repeated for each unit: the range form or the value list. *)
Definition fieldNextValue (f : field.t) (nowValue : Z) : res (Z * bool) :=
  if field.isRange f
  then Ok (getRangeNextValue (field.start f) (field.end_ f) nowValue)
  else getIncreaseNextValue (field.values f) nowValue.

(** What one activation of [trigger.next] ends with: a fire time, or the
    instant handed to the recursive call. *)
Inductive step :=
  | Found (nextTime : Time)
  | Carry (now : Time).

(** Hours, minutes and seconds, once the year, month and day are chosen
    (from the comment 时 on). *)
Definition nextClock (t : trigger.t) (now : Time) (nextYear nextMonth nextDay : Z)
  : res step :=
  let year := Year now in
  let month := Month now in
  let day := Day now in
  let hour := Hour now in
  let min := Minute now in
  let sec := Second now in
  let sameDay := (nextYear =? year) && (nextMonth =? month) && (nextDay =? day) in
  let startHour := if negb sameDay then 0 else hour in
  '(nextHour, isFind) ← fieldNextValue (trigger.hour t) startHour;
  if negb isFind then
    Ok (Carry (Add (Date nextYear nextMonth nextDay nextHour 0 0 0) (24 * Hour_)))
  else
    let startMin := if negb (sameDay && (nextHour =? hour)) then 0 else min in
    '(nextMin, isFind) ← fieldNextValue (trigger.min t) startMin;
    if negb isFind then
      Ok (Carry (Add (Date nextYear nextMonth nextDay nextHour nextMin 0 0) Hour_))
    else
      let startSec :=
        if negb (sameDay && (nextHour =? hour) && (nextMin =? min)) then 0 else sec in
      '(nextSec, isFind) ← fieldNextValue (trigger.sec t) startSec;
      if negb isFind then
        Ok (Carry (Add (Date nextYear nextMonth nextDay nextHour nextMin nextSec 0)
                       Minute_))
      else
        Ok (Found (Date nextYear nextMonth nextDay nextHour nextMin nextSec 0)).

(** The day, in the branch where neither the week nor the day field has a
    [calculate] closure (from the comment 如果不是当月 on). *)
Definition nextPlainDay (t : trigger.t) (now : Time) (nextYear nextMonth : Z)
  : res step :=
  let year := Year now in
  let month := Month now in
  let weekDay := Weekday now in
  let day := Day now in
  let otherMonth := negb ((nextYear =? year) && (nextMonth =? month)) in
  let startWeekDay := if otherMonth then 0 else weekDay in
  let startDay := if otherMonth then 1 else day in
  '(nextWeekDay, isFind) ← fieldNextValue (trigger.week t) startWeekDay;
  if negb isFind then
    tempDate ← getMonthAfterLatestWeek nextYear nextMonth startDay nextWeekDay;
    Ok (Carry tempDate)
  else
    let nextDay :=
      if field.isRange (trigger.day t)
      then getRangeDayNextValue (field.start (trigger.day t)) (field.end_ (trigger.day t))
             nextYear nextMonth startDay nextWeekDay
      else getIncreaseDayNextValue (field.values (trigger.day t))
             nextYear nextMonth startDay nextWeekDay in
    nextClock t now nextYear nextMonth nextDay.

(** The body of [trigger.next] after the depth test. *)
Definition nextStep (t : trigger.t) (now : Time) : res (step * trigger.t) :=
  let hour := Hour now in
  let min := Minute now in
  let sec := Second now in
  let month := Month now in
  let nextYear := Year now in
  '(nextMonth, isFind) ← fieldNextValue (trigger.mon t) month;
  if negb isFind then
    let nextYear := nextYear + 1 in
    Ok (Carry (Date nextYear nextMonth 1 0 0 0 0), t)
  else
    if isSome (field.calculate (trigger.week t)) || isSome (field.calculate (trigger.day t))
    then
      '(isFind, t) ←
        match field.calculate (trigger.week t), field.calculate (trigger.day t) with
        | Some c, _ => calculate c t nextYear nextMonth
        | None, Some c => calculate c t nextYear nextMonth
        | None, None => Abort
        end;
      let nextDay := field.start (trigger.day t) in
      if negb isFind ||
         Before (Date nextYear nextMonth nextDay hour min sec (Nanosecond now)) now
      then Ok (Carry (AddDate (Date nextYear nextMonth 1 0 0 0 0) 0 1 0), t)
      else s ← nextClock t now nextYear nextMonth nextDay; Ok (s, t)
    else s ← nextPlainDay t now nextYear nextMonth; Ok (s, t).

(** [trigger.next(now, deeps...)]; [fuel] bounds the activations. *)
Fixpoint nextFrom (fuel : nat) (t : trigger.t) (now : Time) (deeps : list Z)
  : res (Time * trigger.t) :=
  match fuel with
  | O => Abort
  | S fuel =>
      let deep := match deeps with d :: _ => d | [] => 0 end in
      if (0 <? List.length deeps)%nat && (maxDeep <? deep) then Ok (time.zero, t)
      else
        let deep := (deep + 1) mod 256 in
        '(s, t) ← nextStep t now;
        match s with
        | Found nextTime => Ok (nextTime, t)
        | Carry now => nextFrom fuel t now [deep]
        end
  end.

(** A call from outside the function passes no depth, and the recursion
    stops by itself within [maxDeep + 2] activations. *)
Definition next (t : trigger.t) (now : Time) : res (Time * trigger.t) :=
  nextFrom (Z.to_nat (maxDeep + 2)) t now [].

(** ** Jobs *)

(** A callback [func()] is opaque: only its identity is kept. *)
Inductive func := mkFunc (handle : nat).

Module job.
Record t := mk {
  id : Z;
  tr : trigger.t;
  fun_ : func;
  nextTime : option Time;
  running : bool
}.

Definition setId (j : t) (i : Z) : t :=
  mk i (tr j) (fun_ j) (nextTime j) (running j).

(** [j.next(t)]: the cached fire time if it is after [t], else a fresh
    one from the trigger, stored in the job. *)
Definition next (j : t) (now : Time) : res (Time * t) :=
  let recompute :=
    '(nt, tr') ← next (tr j) now;
    Ok (nt, mk (id j) tr' (fun_ j) (Some nt) (running j)) in
  match nextTime j with
  | Some nt => if After nt now then Ok (nt, j) else recompute
  | None => recompute
  end.
End job.

(** [newJob(cronExpression, f)]; [now] is the reading of [time.Now()]. *)
Definition newJob (cronExpression : string) (f : func) (now : Time) : res job.t :=
  tr ← newTrigger cronExpression;
  '(nt, tr) ← next tr now;
  Ok (job.mk 0 tr f (Some nt) false).

(** ** The scheduler: registering and removing jobs *)

Definition uint_wrap (n : Z) : Z := n mod 2 ^ 64.

(** A send on a channel of capacity 1 holding [n] elements; with nobody
    receiving, a send on a full channel never returns. *)
Definition send (n : nat) : res nat :=
  if (n <? 1)%nat then Ok (S n) else Abort.

Module Scheduler.
(** [jobMap] and [jobs] hold pointers to the same [job] objects, which
    live in [heap]; [stop] and [jobChan] count the signals waiting in the
    two channels. *)
Record t := mk {
  heap : gmap positive job.t;
  jobMap : gmap Z positive;
  jobs : list positive;
  id : Z;
  running : bool;
  runState : bool;
  stop : nat;
  jobChan : nat
}.

Definition New : t := mk ∅ ∅ [] 0 false false 0%nat 0%nat.

Definition AddJob (c : t) (cronExpression : string) (f : func) (now : Time)
  : res (Z * option error * t) :=
  match newJob cronExpression f now with
  | Err err => Ok (0, Some err, c)
  | Abort => Abort
  | Ok j =>
      let id' := uint_wrap (id c + 1) in
      let j := job.setId j id' in
      let p := fresh (dom (heap c)) in
      let c' jc := mk (<[p := j]> (heap c)) (<[job.id j := p]> (jobMap c))
                      (jobs c ++ [p]) id' (running c) (runState c) (stop c) jc in
      if running c then jc ← send (jobChan c); Ok (job.id j, None, c' jc)
      else Ok (job.id j, None, c' (jobChan c))
  end.

(** [for i = 0; i < len(c.jobs); i++ { if c.jobs[i].id == id { break } }] *)
Fixpoint findJob (h : gmap positive job.t) (js : list positive) (id : Z) (i : nat)
  : res nat :=
  match js with
  | [] => Ok i
  | p :: js =>
      match h !! p with
      | None => Abort
      | Some j => if job.id j =? id then Ok i else findJob h js id (S i)
      end
  end.

Definition Remove (c : t) (id' : Z) : res t :=
  match jobMap c !! id' with
  | None => Ok c
  | Some _ =>
      let jobMap' := delete id' (jobMap c) in
      if (List.length (jobs c) =? 1)%nat then
        st ← send (stop c);
        Ok (mk (heap c) jobMap' [] (id c) (running c) false st (jobChan c))
      else
        i ← findJob (heap c) (jobs c) id' 0;
        if (List.length (jobs c) <? i + 1)%nat then Abort
        else Ok (mk (heap c) jobMap' (take i (jobs c) ++ drop (i + 1) (jobs c))
                    (id c) (running c) (runState c) (stop c) (jobChan c))
  end.
End Scheduler.

(** * Vocabulary of the properties *)

Definition leapYear (y : Z) : Prop :=
  (y mod 4 = 0 /\ y mod 100 <> 0) \/ y mod 400 = 0.

Definition leapDays (y : Z) : Z := if isLeap y then 1 else 0.

(** Length of month [m], and day of the year (from 0) of day [dd] of it. *)
Definition monthLen (leap : bool) (m : Z) : Z :=
  if (m =? 2) && leap then 29 else daysBefore m - daysBefore (m - 1).

Definition yday (leap : bool) (m dd : Z) : Z :=
  let n := daysBefore (m - 1) in (if leap && (3 <=? m) then n + 1 else n) + (dd - 1).

Definition daysIn (year m : Z) : Z := monthLen (isLeap year) m.

(** Days from 0001-01-01 to day [d] of month [m] of year [y]. *)
Definition daysOf (y m d : Z) : Z := daysSinceEpoch y + yday (isLeap y) m d.

(** The month before [m], with its year. *)
Definition prevMonth (y m : Z) : Z * Z := if m =? 1 then (y - 1, 12) else (y, m - 1).
Definition nextMonthOf (y m : Z) : Z * Z := if m =? 12 then (y + 1, 1) else (y, m + 1).

(** The days a day field admits, in the order they are scanned. *)
Definition dayCandidates (f : field.t) : list Z :=
  if field.isRange f then rangeValues (field.start f) (field.end_ f) else field.values f.

Definition dayNextValue (f : field.t) (year nextMonth day nextWeekDay : Z) : Z :=
  if field.isRange f
  then getRangeDayNextValue (field.start f) (field.end_ f) year nextMonth day nextWeekDay
  else getIncreaseDayNextValue (field.values f) year nextMonth day nextWeekDay.

(** The closure that [trigger.next] runs: the week field's if it has one,
    else the day field's. *)
Definition selectedCalc (t : trigger.t) : option calc :=
  match field.calculate (trigger.week t) with
  | Some c => Some c
  | None => field.calculate (trigger.day t)
  end.

Definition rangeField (n : fieldName) (start end_ : Z) : field.t :=
  field.mk n true start end_ 0 [] None.

Definition calcField (n : fieldName) (c : calc) : field.t :=
  field.mk n false 0 0 0 [] (Some c).

Definition anyWeek : field.t := rangeField noField 0 6.

(** ["0 0 23 L * ?"]: 23:00:00 on the last day of every month. *)
Definition lastDayTrigger : trigger.t :=
  trigger.mk "0 0 23 L * ?" (rangeField secField 0 0) (rangeField minField 0 0)
    (rangeField hourField 23 23) (calcField dayField calcDayL)
    (rangeField monField 1 12) anyWeek.

(** The trigger after its [L] rule has been evaluated to day [d]. *)
Definition lastDayTriggerAt (d : Z) : trigger.t :=
  trigger.setDay lastDayTrigger (field.setSingle (trigger.day lastDayTrigger) d).

(** The invariant of the claim: an id is a key of [jobMap] exactly when a
    job with that id is in [jobs], and the map holds the pointer to that
    very job object. *)
Definition consistent (c : Scheduler.t) : Prop :=
  forall (i : Z) (p : positive),
    Scheduler.jobMap c !! i = Some p <->
    p ∈ Scheduler.jobs c /\
    exists j, Scheduler.heap c !! p = Some j /\ job.id j = i.

(** What every reachable scheduler satisfies besides: the slice has no
    pointer twice, and the ids in use were handed out by the counter. *)
Definition schedInv (c : Scheduler.t) : Prop :=
  consistent c /\
  NoDup (Scheduler.jobs c) /\
  (forall p, p ∈ Scheduler.jobs c ->
     exists j, Scheduler.heap c !! p = Some j /\ 0 < job.id j <= Scheduler.id c) /\
  0 <= Scheduler.id c.

Definition validTime (t : Time) : Prop := 0 <= nsec t < 1000000000.

(** Midnights: the instants the calendar loops walk over. *)
Definition midnight (t : Time) : Prop := nsec t = 0 /\ wall t = days t * 86400.

(** A range within the bounds, or a non-empty list of values within them. *)
Definition wfField (lo hi : Z) (f : field.t) : Prop :=
  if field.isRange f
  then lo <= field.start f <= field.end_ f /\ field.end_ f <= hi
  else field.values f <> [] /\ Forall (fun v => lo <= v <= hi) (field.values f).

Definition wfCalc (c : calc) : Prop :=
  match c with
  | calcWeekL weekNum => 0 <= weekNum <= 6
  | _ => True
  end.

(** What the parser guarantees and the resolver maintains.  The day and
    week fields are only searched when neither has a closure. *)
Definition wfTrigger (t : trigger.t) : Prop :=
  wfField 0 59 (trigger.sec t) /\ wfField 0 59 (trigger.min t) /\
  wfField 0 59 (trigger.hour t) /\ wfField 1 12 (trigger.mon t) /\
  match selectedCalc t with
  | Some c => wfCalc c
  | None => wfField 1 31 (trigger.day t) /\ wfField 0 6 (trigger.week t)
  end.

(** The trigger states and instants with which the body of [trigger.next]
    runs in a call: the call itself and the recursive calls that pass the
    depth test. *)
Fixpoint activations (fuel : nat) (t : trigger.t) (now : Time) (deeps : list Z)
  : list (trigger.t * Time) :=
  match fuel with
  | O => []
  | S fuel =>
      let deep := match deeps with d :: _ => d | [] => 0 end in
      if (0 <? List.length deeps)%nat && (maxDeep <? deep) then []
      else
        (t, now) ::
        match nextStep t now with
        | Ok (Carry now', t') => activations fuel t' now' [(deep + 1) mod 256]
        | _ => []
        end
  end.

(** Whether the activation on [t] and [now] reaches the day search of the
    branch without closures and the search comes back empty (day 0). *)
Definition dayMissing (t : trigger.t) (now : Time) : bool :=
  match fieldNextValue (trigger.mon t) (Month now), selectedCalc t with
  | Ok (nextMonth, true), None =>
      let nextYear := Year now in
      let otherMonth := negb ((nextYear =? Year now) && (nextMonth =? Month now)) in
      let startWeekDay := if otherMonth then 0 else Weekday now in
      let startDay := if otherMonth then 1 else Day now in
      match fieldNextValue (trigger.week t) startWeekDay with
      | Ok (nextWeekDay, true) =>
          dayNextValue (trigger.day t) nextYear nextMonth startDay nextWeekDay =? 0
      | _ => false
      end
  | _, _ => false
  end.

(** A day that is today or later in the candidate month. *)
Definition notBefore (now : Time) (y m d : Z) : Prop :=
  (y = Year now /\ m = Month now /\ d = Day now) \/ days now < daysOf y m d.

(** The day search of none of the activations came back empty. *)
Definition allDaysFound (l : list (trigger.t * Time)) : bool :=
  forallb (fun a => negb (dayMissing a.1 a.2)) l.

(** ["* * * * * ?"]: every second. *)
Definition everySecondTrigger : trigger.t :=
  trigger.mk "* * * * * ?" (rangeField secField 0 59) (rangeField minField 0 59)
    (rangeField hourField 0 23) (rangeField dayField 1 31) (rangeField monField 1 12)
    anyWeek.

(** Half a second past noon of Saturday 2024-02-10. *)
Definition halfPastNoon : Time := mkTime (wall (Date 2024 2 10 12 0 0 0)) 500000000.

(** ["0 0 0 30W 2 ?"]: midnight of the working day nearest before a
    thirtieth of February, which few years have within February. *)
Definition feb30Trigger : trigger.t :=
  trigger.mk "0 0 0 30W 2 ?" (rangeField secField 0 0) (rangeField minField 0 0)
    (rangeField hourField 0 0) (calcField dayField (calcDayW 30))
    (rangeField monField 2 2) anyWeek.

Definition feb30TriggerAt (d : Z) : trigger.t :=
  trigger.setDay feb30Trigger (field.setSingle (trigger.day feb30Trigger) d).

(** ["0 0 0 1 * ?"]: midnight of the first of every month. *)
Definition firstOfMonthTrigger : trigger.t :=
  trigger.mk "0 0 0 1 * ?" (rangeField secField 0 0) (rangeField minField 0 0)
    (rangeField hourField 0 0) (rangeField dayField 1 1) (rangeField monField 1 12)
    anyWeek.

Definition wfJob (j : job.t) : Prop :=
  wfTrigger (job.tr j) /\ forall c, job.nextTime j = Some c -> nsec c = 0.

(** The calls [j.next(t)] for the instants of [ts] in turn: the times
    returned, which are the cached times after each call. *)
Fixpoint nextAll (j : job.t) (ts : list Time) : res (list Time * job.t) :=
  match ts with
  | [] => Ok ([], j)
  | t :: ts =>
      '(r, j) ← job.next j t;
      '(rs, j) ← nextAll j ts;
      Ok (r :: rs, j)
  end.

(** Each call either returns the cached time or recomputes an instant
    that is not the zero time, with no empty day search on the way. *)
Fixpoint cleanRun (j : job.t) (ts : list Time) : Prop :=
  match ts with
  | [] => True
  | t :: ts =>
      match job.next j t with
      | Ok (r, j') =>
          (job.nextTime j = Some r \/
           (r <> time.zero /\
            allDaysFound (activations (Z.to_nat (maxDeep + 2)) (job.tr j) t []) = true)) /\
          cleanRun j' ts
      | _ => True
      end
  end.

Fixpoint nondecreasing (c : Time) (rs : list Time) : Prop :=
  match rs with
  | [] => True
  | r :: rs => After c r = false /\ nondecreasing r rs
  end.

(** The cached times of a run never move back, from the cache the job
    starts with when it has one. *)
Definition nondecreasingFrom (o : option Time) (rs : list Time) : Prop :=
  match o, rs with
  | Some c, _ => nondecreasing c rs
  | None, [] => True
  | None, r :: rs' => nondecreasing r rs'
  end.

(** A job on ["* * * * * ?"] whose cached fire time is noon. *)
Definition noonJob : job.t :=
  job.mk 1 everySecondTrigger (mkFunc 0) (Some (Date 2024 2 10 12 0 0 0)) false.

(** What [getLatestWorkDay] walks back over: two days from a Sunday, one
    from a Saturday. *)
Definition weekendBack (wd : Z) : Z := if wd =? 0 then 2 else if wd =? 6 then 1 else 0.

(** The first day of the month that falls on [weekDay]. *)
Definition firstWeekday (year month weekDay : Z) : Z :=
  1 + (weekDay - Weekday (Date year month 1 0 0 0 0)) mod 7.

(** The values a field admits. *)
Definition admits (f : field.t) (v : Z) : Prop :=
  if field.isRange f then field.start f <= v <= field.end_ f else v ∈ field.values f.

(** A list in which no element is greater than a later one. *)
Fixpoint ascending (l : list Z) : Prop :=
  match l with
  | [] => True
  | x :: l' => (forall y, y ∈ l' -> x <= y) /\ ascending l'
  end.

(** A parsed trigger whose seconds are given as an unsorted list. *)
Definition listSecondsTrigger : trigger.t :=
  trigger.mk "45,5,25 * * * * ?" (field.mk secField false 0 0 0 [5; 25; 45] None)
    (rangeField minField 0 59) (rangeField hourField 0 23) (rangeField dayField 1 31)
    (rangeField monField 1 12) anyWeek.


(** A scheduler with two jobs, registered under the ids 1 and 2. *)
Definition twoJobs : Scheduler.t :=
  match Scheduler.AddJob Scheduler.New "* * * * * ?" (mkFunc 0) (Date 2024 2 10 12 0 0 0) with
  | Ok (_, _, c1) =>
      match Scheduler.AddJob c1 "0 0 23 L * ?" (mkFunc 1) (Date 2024 2 10 12 0 0 0) with
      | Ok (_, _, c2) => c2
      | _ => Scheduler.New
      end
  | _ => Scheduler.New
  end.

(** * Properties *)

(** ** Results *)

Lemma bind_Ok {A B} (m : res A) (k : A -> res B) (b : B) :
  (m ≫= k) = Ok b -> exists a, m = Ok a /\ k a = Ok b.
Proof. destruct m; cbn; intros H; try discriminate. eauto. Qed.

Lemma bind_not_abort {A B} (m : res A) (k : A -> res B) :
  m <> Abort -> (forall a, m = Ok a -> k a <> Abort) -> (m ≫= k) <> Abort.
Proof. destruct m; cbn; intros H1 H2; auto; congruence. Qed.

Lemma index_Ok {A} (arr : list A) (i : nat) :
  (i < List.length arr)%nat -> exists a, index arr i = Ok a /\ arr !! i = Some a.
Proof.
  intros H. unfold index. destruct (arr !! i) eqn:E; eauto.
  apply lookup_ge_None in E. lia.
Qed.

(** ** Strings *)

Lemma Split_nonempty (s : string) (sep : ascii) : (1 <= List.length (Split s sep))%nat.
Proof.
  induction s as [|c s IH]; cbn; [lia|].
  destruct (Ascii.eqb c sep); cbn; [lia|].
  destruct (Split s sep); cbn in *; lia.
Qed.

Lemma Split_contains (s : string) (sep : ascii) :
  contains s sep = true -> (2 <= List.length (Split s sep))%nat.
Proof.
  unfold contains. induction s as [|c s IH]; cbn; [lia|].
  destruct (Ascii.eqb c sep); cbn.
  - pose proof (Split_nonempty s sep). lia.
  - intros H. destruct (IndexByte s sep <? 0) eqn:E; [lia|].
    assert (2 <= List.length (Split s sep))%nat by (apply IH; lia).
    destruct (Split s sep); cbn in *; lia.
Qed.

(** ** The parser never panics *)

Lemma parseOrAlias_not_abort str v f : parseOrAlias str v f <> Abort.
Proof.
  unfold parseOrAlias. destruct (ParseUint v 8) as [n [e|]]; [|discriminate].
  destruct (checkAlias str v f n) as [n' e']. destruct (isSome e'); discriminate.
Qed.

Lemma ranges_Ok (f : fieldName) :
  f <> noField -> exists lo hi, ranges f = Ok (lo, hi).
Proof. destruct f; cbn; intros H; try congruence; eauto. Qed.

Ltac not_abort_step :=
  match goal with
  | |- Ok _ <> Abort => discriminate
  | |- Err _ <> Abort => discriminate
  | |- (if ?b then _ else _) <> Abort => destruct b
  | |- (let '(_, _) := ?p in _) <> Abort => destruct p
  | |- (_ ≫= _) <> Abort => apply bind_not_abort; [| intros ? ?]
  | |- parseOrAlias _ _ _ <> Abort => apply parseOrAlias_not_abort
  | |- match ?o with Some _ => _ | None => _ end <> Abort => destruct o
  end.

Lemma index_not_abort {A} (arr : list A) (i : nat) :
  (i < List.length arr)%nat -> index arr i <> Abort.
Proof. intros H. destruct (index_Ok arr i H) as (a & -> & _). discriminate. Qed.

Lemma parserRangeField_not_abort str arr f :
  field.name f <> noField -> (2 <= List.length arr)%nat ->
  parserRangeField str arr f <> Abort.
Proof.
  intros Hn Hl. unfold parserRangeField.
  destruct (ranges_Ok _ Hn) as (lo & hi & Hr). cbn [field.name field.setIsRange].
  rewrite Hr. cbn [mbind res_bind].
  repeat (first [not_abort_step | apply index_not_abort; lia]).
Qed.

Lemma parserIncreaseField_not_abort str arr f :
  field.name f <> noField -> (2 <= List.length arr)%nat ->
  parserIncreaseField str arr f <> Abort.
Proof.
  intros Hn Hl. unfold parserIncreaseField.
  destruct (ranges_Ok _ Hn) as (lo & hi & Hr). cbn [field.name field.setIsRange].
  rewrite Hr. cbn [mbind res_bind].
  repeat (first [not_abort_step | apply index_not_abort; lia]).
Qed.

Lemma enumValues_not_abort str arr f lo hi : enumValues str arr f lo hi <> Abort.
Proof.
  induction arr as [|a arr IH]; cbn [enumValues]; [discriminate|].
  repeat (first [exact IH | not_abort_step]).
Qed.

Lemma parserEnumField_not_abort str arr f :
  field.name f <> noField -> parserEnumField str arr f <> Abort.
Proof.
  intros Hn. unfold parserEnumField.
  destruct (ranges_Ok _ Hn) as (lo & hi & Hr). cbn [field.name field.setIsRange].
  rewrite Hr. cbn [mbind res_bind].
  repeat (first [apply enumValues_not_abort | not_abort_step]).
Qed.

Lemma parserCompound_not_abort s f other :
  field.name f <> noField -> other <> Abort -> parserCompound s f other <> Abort.
Proof.
  intros Hn Ho. unfold parserCompound.
  destruct (contains s "-") eqn:E1.
  { apply parserRangeField_not_abort; auto using Split_contains. }
  destruct (contains s "/") eqn:E2.
  { apply parserIncreaseField_not_abort; auto using Split_contains. }
  destruct (contains s ",") eqn:E3.
  { apply parserEnumField_not_abort; auto. }
  exact Ho.
Qed.

Lemma parserClockField_not_abort unit str :
  unit <> noField -> parserClockField unit str <> Abort.
Proof.
  intros Hn. unfold parserClockField. destruct (String.eqb str "*").
  - destruct (ranges_Ok _ Hn) as (lo & hi & Hr). cbn [field.name field.new].
    rewrite Hr. discriminate.
  - apply parserCompound_not_abort; [exact Hn|]. repeat not_abort_step.
Qed.

Lemma parserDayField_not_abort s : parserDayField s <> Abort.
Proof.
  unfold parserDayField. destruct (_ || _); [discriminate|].
  apply parserCompound_not_abort; [discriminate|]. repeat not_abort_step.
Qed.

Lemma parserMonField_not_abort s : parserMonField s <> Abort.
Proof.
  unfold parserMonField. destruct (String.eqb s "*"); [discriminate|].
  apply parserCompound_not_abort; [discriminate|]. repeat not_abort_step.
Qed.

Lemma parserWeekField_not_abort cron s :
  (List.length (Split cron " ") = 6)%nat -> parserWeekField cron s <> Abort.
Proof.
  intros Hl. unfold parserWeekField. destruct (_ || _); [discriminate|].
  apply bind_not_abort; [apply index_not_abort; lia|]. intros a3 _.
  destruct (_ && _); [discriminate|].
  apply parserCompound_not_abort; [discriminate|]. repeat not_abort_step.
Qed.

Lemma parse_not_abort cron : parse cron <> Abort.
Proof.
  unfold parse. destruct (List.length (Split cron " ") =? 6)%nat eqn:El; cbn [negb]; [|discriminate].
  apply Nat.eqb_eq in El.
  repeat (first [ apply index_not_abort; lia
                | apply parserClockField_not_abort; discriminate
                | apply parserDayField_not_abort
                | apply parserMonField_not_abort
                | apply parserWeekField_not_abort; exact El
                | not_abort_step ]).
Qed.

(** ** Day-of-month and day-of-week are mutually exclusive *)

Lemma eqb_false_of_ne (a b : string) : a <> b -> String.eqb a b = false.
Proof. intros H. apply String.eqb_neq. exact H. Qed.

Lemma parserWeekField_specific cron d w :
  Split cron " " !! 3%nat = Some d ->
  d <> "*" -> d <> "?" -> w <> "*" -> w <> "?" ->
  parserWeekField cron w = Err errDayMustBeWildcard.
Proof.
  intros H3 Hd1 Hd2 Hw1 Hw2. unfold parserWeekField, index.
  rewrite (eqb_false_of_ne _ _ Hw1), (eqb_false_of_ne _ _ Hw2), H3.
  cbn. rewrite (eqb_false_of_ne _ _ Hd1), (eqb_false_of_ne _ _ Hd2). reflexivity.
Qed.

(** C5: an expression whose day-of-month token and day-of-week token are
    both specific (neither ["*"] nor ["?"]) is rejected by [parse] with an
    error; no trigger is produced for it. *)
Theorem parse_rejects_specific_day_and_week (cron d w : string) :
  Split cron " " !! 3%nat = Some d ->
  Split cron " " !! 5%nat = Some w ->
  d <> "*" -> d <> "?" -> w <> "*" -> w <> "?" ->
  exists e, parse cron = Err e /\ newTrigger cron = Err e.
Proof.
  intros H3 H5 Hd1 Hd2 Hw1 Hw2. unfold newTrigger.
  destruct (parse cron) as [t | e |] eqn:Hp; [exfalso | eauto | exfalso].
  - unfold parse in Hp. destruct (negb _); [discriminate|].
    repeat (apply bind_Ok in Hp; destruct Hp as (? & ? & Hp)).
    match goal with H : index _ 5 = Ok ?a |- _ =>
      unfold index in H; rewrite H5 in H; injection H as <- end.
    match goal with H : parserWeekField _ _ = Ok _ |- _ =>
      rewrite (parserWeekField_specific cron d w) in H by assumption; discriminate end.
  - exact (parse_not_abort cron Hp).
Qed.

Lemma parse_rejects_specific_day_and_week_witness :
  exists e, parse "0 0 0 1 5 0#2" = Err e /\ newTrigger "0 0 0 1 5 0#2" = Err e.
Proof.
  apply (parse_rejects_specific_day_and_week "0 0 0 1 5 0#2" "1" "0#2");
    [reflexivity | reflexivity | discriminate ..].
Defined.

(** ** Registration errors *)

Lemma AddJob_error (c c' : Scheduler.t) (cronExpression : string) (f : func)
    (now : Time) (id : Z) (err : error) :
  Scheduler.AddJob c cronExpression f now = Ok (id, Some err, c') ->
  id = 0 /\ c' = c /\ newJob cronExpression f now = Err err.
Proof.
  unfold Scheduler.AddJob. destruct (newJob cronExpression f now) as [j | e |].
  - destruct (Scheduler.running c).
    + destruct (send _); cbn; intros H; discriminate H.
    + intros H; discriminate H.
  - intros [= <- <- <-]. repeat split; reflexivity.
  - discriminate.
Qed.

(** C6: when [AddJob] returns a non-nil error, the returned id is 0 and
    the scheduler is exactly as before the call: the job map, the job
    slice, the id counter and everything else; the error is the one of
    [newJob], so no job is registered on a parse or validation failure. *)
Theorem AddJob_error_keeps_state (c c' : Scheduler.t) (cronExpression : string)
    (f : func) (now : Time) (id : Z) (err : error) :
  Scheduler.AddJob c cronExpression f now = Ok (id, Some err, c') ->
  id = 0 /\ c' = c /\
  Scheduler.jobMap c' = Scheduler.jobMap c /\
  Scheduler.jobs c' = Scheduler.jobs c /\
  Scheduler.id c' = Scheduler.id c /\
  newJob cronExpression f now = Err err.
Proof.
  intros H. apply AddJob_error in H. destruct H as (-> & -> & H).
  repeat split; try reflexivity. exact H.
Qed.

Lemma AddJob_error_keeps_state_witness :
  0 = 0 /\ Scheduler.New = Scheduler.New /\
  Scheduler.jobMap Scheduler.New = Scheduler.jobMap Scheduler.New /\
  Scheduler.jobs Scheduler.New = Scheduler.jobs Scheduler.New /\
  Scheduler.id Scheduler.New = Scheduler.id Scheduler.New /\
  newJob "61 * * * * ?" (mkFunc 0) (Date 2024 2 10 12 0 0 0) = Err (errFieldRange secField).
Proof.
  apply (AddJob_error_keeps_state Scheduler.New Scheduler.New "61 * * * * ?"
           (mkFunc 0) (Date 2024 2 10 12 0 0 0) 0 (errFieldRange secField)).
  reflexivity.
Defined.

Lemma AddJob_parse_error (c : Scheduler.t) (cronExpression : string) (f : func)
    (now : Time) (err : error) :
  parse cronExpression = Err err ->
  Scheduler.AddJob c cronExpression f now = Ok (0, Some err, c).
Proof.
  intros H. unfold Scheduler.AddJob, newJob, newTrigger. rewrite H. reflexivity.
Qed.

(** ** The calendar *)

Lemma isLeap_true_iff y : isLeap y = true <-> leapYear y.
Proof.
  unfold isLeap, leapYear.
  rewrite orb_true_iff, andb_true_iff, negb_true_iff, !Z.eqb_eq, Z.eqb_neq.
  rewrite !Z.rem_divide, <- !Z.mod_divide by lia. tauto.
Qed.

Lemma isLeap_false_iff y : isLeap y = false <-> ~ leapYear y.
Proof. rewrite <- isLeap_true_iff. destruct (isLeap y); split; congruence. Qed.

Ltac calc :=
  repeat match goal with
  | |- context [daysBefore ?e] =>
      let v := eval vm_compute in (daysBefore e) in
      match v with Z0 => idtac | Zpos _ => idtac end;
      progress change (daysBefore e) with v
  | |- context [?a =? ?b] =>
      let v := eval vm_compute in (a =? b) in
      match v with true => idtac | false => idtac end; change (a =? b) with v
  | |- context [?a <=? ?b] =>
      let v := eval vm_compute in (a <=? b) in
      match v with true => idtac | false => idtac end; change (a <=? b) with v
  end; cbn [andb orb negb].

Ltac month_cases m :=
  let Hmc := fresh "Hmc" in
  assert (m = 1 \/ m = 2 \/ m = 3 \/ m = 4 \/ m = 5 \/ m = 6 \/ m = 7 \/ m = 8 \/
          m = 9 \/ m = 10 \/ m = 11 \/ m = 12) as Hmc by lia;
  repeat (destruct Hmc as [Hmc | Hmc]); subst m.

Lemma daysSinceEpoch_succ y : daysSinceEpoch (y + 1) = daysSinceEpoch y + 365 + leapDays y.
Proof.
  unfold daysSinceEpoch, leapDays. destruct (isLeap y) eqn:E.
  - apply isLeap_true_iff in E. unfold leapYear in E. lia.
  - apply isLeap_false_iff in E. unfold leapYear in E. lia.
Qed.

Lemma daysSinceEpoch_mono y y' : y <= y' -> daysSinceEpoch y <= daysSinceEpoch y'.
Proof. unfold daysSinceEpoch. lia. Qed.

Lemma yearDay_spec d y yd :
  yearDay d = (y, yd) -> daysSinceEpoch y + yd = d /\ 0 <= yd < 365 + leapDays y.
Proof.
  unfold yearDay. rewrite !Z.shiftr_div_pow2 by lia. change (2 ^ 2) with 4.
  set (n400 := d / 146097). set (r1 := d - 146097 * n400).
  set (q100 := r1 / 36524). set (n100 := q100 - q100 / 4).
  set (r2 := r1 - 36524 * n100). set (n4 := r2 / 1461). set (r3 := r2 - 1461 * n4).
  set (q1 := r3 / 365). set (n1 := q1 - q1 / 4). set (r4 := r3 - 365 * n1).
  intros [= <- <-].
  assert (H1 : 0 <= r1 < 146097) by (subst r1 n400; lia).
  assert (H2 : 0 <= n100 <= 3 /\ 0 <= r2 /\ (n100 < 3 -> r2 < 36524) /\
               (n100 = 3 -> r2 <= 36524)) by (subst n100 r2 q100; lia).
  assert (H3 : 0 <= n4 <= 24 /\ 0 <= r3 < 1461 /\ (n100 < 3 -> n4 = 24 -> r3 < 1460))
    by (subst n4 r3; lia).
  assert (H4 : 0 <= n1 <= 3 /\ 0 <= r4 /\ (n1 < 3 -> r4 < 365) /\ (n1 = 3 -> r4 <= 365))
    by (subst n1 r4 q1; lia).
  assert (Hy : daysSinceEpoch (400 * n400 + 100 * n100 + 4 * n4 + n1 + 1) =
               146097 * n400 + 36524 * n100 + 1461 * n4 + 365 * n1)
    by (unfold daysSinceEpoch; lia).
  split.
  - rewrite Hy. subst r4 r3 r2 r1. lia.
  - unfold leapDays. destruct (isLeap _) eqn:E; [lia|].
    apply isLeap_false_iff in E. unfold leapYear in E.
    assert (r4 <> 365); [|lia].
    intros Hr. apply E. assert (n1 = 3) by lia.
    destruct (Z.eq_dec n4 24); [right|left]; lia.
Qed.

Lemma monthOfDay_spec (day m dd : Z) :
  0 <= day < 365 -> monthOfDay day = (m, dd) ->
  1 <= m <= 12 /\ 1 <= dd <= daysBefore m - daysBefore (m - 1) /\
  daysBefore (m - 1) + (dd - 1) = day.
Proof.
  intros Hr. unfold monthOfDay.
  assert (Hd : 31 * (day / 31) <= day < 31 * (day / 31) + 31) by lia.
  assert (Hq : 0 <= day / 31 <= 11) by lia.
  generalize dependent (day / 31). intros q Hd Hq.
  assert (Hc : q = 0 \/ q = 1 \/ q = 2 \/ q = 3 \/ q = 4 \/ q = 5 \/ q = 6 \/ q = 7 \/
               q = 8 \/ q = 9 \/ q = 10 \/ q = 11) by lia.
  repeat (destruct Hc as [Hc | Hc]); subst q; calc;
    (destruct (_ <=? day) eqn:E3; intros Heq; apply pair_equal_spec in Heq;
     destruct Heq as [<- <-]; calc; lia).
Qed.

Lemma monthDay_spec (leap : bool) (yd m dd : Z) :
  0 <= yd < 365 + (if leap then 1 else 0) ->
  monthDay leap yd = (m, dd) ->
  1 <= m <= 12 /\ 1 <= dd <= monthLen leap m /\ yday leap m dd = yd.
Proof.
  intros Hr. unfold monthDay, yday, monthLen.
  destruct leap; cbn [andb].
  - destruct (yd =? 31 + 29 - 1) eqn:E1.
    + intros Heq; apply pair_equal_spec in Heq; destruct Heq as [<- <-]. calc. lia.
    + destruct (31 + 29 - 1 <? yd) eqn:E2; intros Hm; apply monthOfDay_spec in Hm; try lia.
      * destruct Hm as (Hm1 & Hm2 & Hm3).
        destruct (Z.eq_dec m 1) as [->|]; [revert Hm2 Hm3; calc; lia|].
        destruct (Z.eq_dec m 2) as [->|]; [revert Hm2 Hm3; calc; lia|].
        replace (3 <=? m) with true by lia. replace (m =? 2) with false by lia.
        cbn [andb]. lia.
      * destruct Hm as (Hm1 & Hm2 & Hm3).
        destruct (Z.eq_dec m 1) as [->|]; [revert Hm2 Hm3; calc; lia|].
        destruct (Z.eq_dec m 2) as [->|]; [revert Hm2 Hm3; calc; lia|].
        exfalso. assert (59 <= daysBefore (m - 1)); [|lia].
        clear Hm2 Hm3. month_cases m; calc; lia.
  - rewrite andb_false_r. intros Hm; apply monthOfDay_spec in Hm; lia.
Qed.

Lemma absDate_spec d y m dd :
  absDate d = (y, m, dd) ->
  1 <= m <= 12 /\ 1 <= dd <= daysIn y m /\ daysOf y m dd = d.
Proof.
  unfold absDate. destruct (yearDay d) as [year yd] eqn:Hy.
  apply yearDay_spec in Hy. destruct Hy as [Hd Hr].
  destruct (monthDay (isLeap year) yd) as [m0 d0] eqn:Hm.
  intros [= <- <- <-]. apply monthDay_spec in Hm; [|exact Hr].
  unfold daysOf, daysIn. lia.
Qed.

Lemma yday_bounds (leap : bool) (m dd : Z) :
  1 <= m <= 12 -> 1 <= dd <= monthLen leap m ->
  0 <= yday leap m dd < 365 + (if leap then 1 else 0).
Proof.
  intros Hm. unfold yday, monthLen. month_cases m; destruct leap; calc; lia.
Qed.

Lemma yday_inj (leap : bool) (m dd m' dd' : Z) :
  1 <= m <= 12 -> 1 <= dd <= monthLen leap m ->
  1 <= m' <= 12 -> 1 <= dd' <= monthLen leap m' ->
  yday leap m dd = yday leap m' dd' -> m = m' /\ dd = dd'.
Proof.
  intros Hm Hd Hm' Hd'. revert Hd Hd'. unfold yday, monthLen.
  month_cases m; month_cases m'; destruct leap; calc; lia.
Qed.

Lemma daysOf_year_inj y m dd y' m' dd' :
  1 <= m <= 12 -> 1 <= dd <= daysIn y m ->
  1 <= m' <= 12 -> 1 <= dd' <= daysIn y' m' ->
  daysOf y m dd = daysOf y' m' dd' -> y = y'.
Proof.
  intros Hm Hd Hm' Hd'. unfold daysOf.
  pose proof (yday_bounds (isLeap y) m dd Hm Hd).
  pose proof (yday_bounds (isLeap y') m' dd' Hm' Hd').
  pose proof (daysSinceEpoch_succ y). pose proof (daysSinceEpoch_succ y').
  unfold leapDays in *. intros Heq.
  destruct (Z.lt_trichotomy y y') as [Hlt | [-> | Hlt]]; [exfalso | reflexivity | exfalso].
  - pose proof (daysSinceEpoch_mono (y + 1) y' ltac:(lia)). lia.
  - pose proof (daysSinceEpoch_mono (y' + 1) y ltac:(lia)). lia.
Qed.

Lemma absDate_daysOf y m dd :
  1 <= m <= 12 -> 1 <= dd <= daysIn y m -> absDate (daysOf y m dd) = (y, m, dd).
Proof.
  intros Hm Hd. destruct (absDate (daysOf y m dd)) as [[y' m'] dd'] eqn:E.
  apply absDate_spec in E. destruct E as (Hm' & Hd' & E).
  assert (y' = y) as -> by (apply (daysOf_year_inj y' m' dd' y m dd); assumption).
  unfold daysOf in E.
  assert (m' = m /\ dd' = dd) as [-> ->]
    by (apply (yday_inj (isLeap y)); auto; lia).
  reflexivity.
Qed.

(** Every instant is the date and clock that its accessors return. *)
Lemma Time_date (t : Time) :
  1 <= Month t <= 12 /\ 1 <= Day t <= daysIn (Year t) (Month t) /\
  0 <= Hour t < 24 /\ 0 <= Minute t < 60 /\ 0 <= Second t < 60 /\
  days t = daysOf (Year t) (Month t) (Day t) /\
  wall t = days t * 86400 + Hour t * 3600 + Minute t * 60 + Second t.
Proof.
  unfold Year, Month, Day, Hour, Minute, Second.
  destruct (absDate (days t)) as [[y m] d] eqn:E. apply absDate_spec in E.
  cbn [fst snd]. unfold days in *. repeat split; try lia.
Qed.

(** [Date] is linear in the day and the clock once the month is in range. *)
Lemma Date_wall y m d h mi s ns :
  1 <= m <= 12 -> 0 <= ns < 1000000000 ->
  wall (Date y m d h mi s ns) = daysOf y m d * 86400 + h * 3600 + mi * 60 + s /\
  nsec (Date y m d h mi s ns) = ns.
Proof.
  intros Hm Hns. unfold Date, norm, daysOf, yday.
  replace ((m - 1) / 12) with 0 by lia. replace ((m - 1) mod 12) with (m - 1) by lia.
  replace (y + 0) with y by lia. replace (m - 1 + 1) with m by lia.
  cbn [wall nsec]. destruct (isLeap y && (3 <=? m)); lia.
Qed.

Lemma Date_fields y m d h mi s ns :
  1 <= m <= 12 -> 1 <= d <= daysIn y m ->
  0 <= h < 24 -> 0 <= mi < 60 -> 0 <= s < 60 -> 0 <= ns < 1000000000 ->
  let t := Date y m d h mi s ns in
  Year t = y /\ Month t = m /\ Day t = d /\
  Hour t = h /\ Minute t = mi /\ Second t = s /\ Nanosecond t = ns.
Proof.
  intros Hm Hd Hh Hmi Hs Hns t.
  destruct (Date_wall y m d h mi s ns Hm Hns) as [Hw Hn]. fold t in Hw, Hn.
  assert (Hdays : days t = daysOf y m d) by (unfold days; rewrite Hw; lia).
  unfold Year, Month, Day, Hour, Minute, Second, Nanosecond.
  rewrite Hdays, absDate_daysOf by assumption. cbn [fst snd].
  rewrite Hw, Hn. repeat split; lia.
Qed.

Lemma daysIn_bounds y m : 1 <= m <= 12 -> 28 <= daysIn y m <= 31.
Proof.
  intros Hm. unfold daysIn, monthLen. month_cases m; destruct (isLeap y); calc; lia.
Qed.

Lemma daysOf_shift y m d k : daysOf y m (d + k) = daysOf y m d + k.
Proof. unfold daysOf, yday. lia. Qed.

Lemma daysOf_nextMonth y m :
  1 <= m <= 12 ->
  let '(y', m') := nextMonthOf y m in daysOf y' m' 1 = daysOf y m (daysIn y m) + 1.
Proof.
  intros Hm. unfold nextMonthOf. destruct (m =? 12) eqn:E.
  - assert (m = 12) as -> by lia. unfold daysOf, daysIn, yday, monthLen.
    rewrite daysSinceEpoch_succ. unfold leapDays. destruct (isLeap y); calc;
      destruct (isLeap (y + 1)); cbn [andb]; lia.
  - unfold daysOf, daysIn, yday, monthLen.
    assert (m <> 12) by lia. month_cases m; try lia; destruct (isLeap y); calc; lia.
Qed.

Lemma daysOf_prevMonth y m :
  1 <= m <= 12 ->
  let '(y', m') := prevMonth y m in daysOf y m 0 = daysOf y' m' (daysIn y' m').
Proof.
  intros Hm. unfold prevMonth. destruct (m =? 1) eqn:E.
  - assert (m = 1) as -> by lia.
    pose proof (daysOf_nextMonth (y - 1) 12 ltac:(lia)) as H.
    unfold nextMonthOf in H. change (12 =? 12) with true in H. cbv beta iota in H.
    replace (y - 1 + 1) with y in H by lia.
    pose proof (daysOf_shift y 1 1 (-1)) as Hs. replace (1 + -1) with 0 in Hs by lia. lia.
  - pose proof (daysOf_nextMonth y (m - 1) ltac:(lia)) as H. unfold nextMonthOf in H.
    replace (m - 1 =? 12) with false in H by lia. replace (m - 1 + 1) with m in H by lia.
    pose proof (daysOf_shift y m 1 (-1)) as Hs. replace (1 + -1) with 0 in Hs by lia. lia.
Qed.

Lemma Time_eq (a b : Time) : wall a = wall b -> nsec a = nsec b -> a = b.
Proof. destruct a, b; cbn; intros -> ->; reflexivity. Qed.


Lemma getYearMonthDays_daysIn y m : 1 <= m <= 12 -> getYearMonthDays y m = daysIn y m.
Proof.
  intros Hm. unfold getYearMonthDays, daysIn, monthLen. fold (isLeap y).
  month_cases m; try reflexivity.
  all: destruct (isLeap y); reflexivity.
Qed.

(** ** The value searches *)

Lemma elem_of_rangeValues (start end_ i : Z) :
  i ∈ rangeValues start end_ <-> start <= i <= end_.
Proof. unfold rangeValues. rewrite elem_of_seqZ. lia. Qed.

Lemma find_Some_elem {A} (f : A -> bool) (l : list A) (x : A) :
  List.find f l = Some x -> x ∈ l /\ f x = true.
Proof. intros H. apply find_some in H. rewrite list_elem_of_In. exact H. Qed.

Lemma find_None_elem {A} (f : A -> bool) (l : list A) :
  List.find f l = None -> forall x, x ∈ l -> f x = false.
Proof. intros H x Hx. apply (find_none f l H). apply list_elem_of_In. exact Hx. Qed.

Lemma getRangeNextValue_spec (start end_ nowValue v : Z) (b : bool) :
  getRangeNextValue start end_ nowValue = (v, b) ->
  (b = true /\ start <= v <= end_ /\ nowValue <= v) \/
  (b = false /\ v = start /\ forall i, start <= i <= end_ -> i < nowValue).
Proof.
  unfold getRangeNextValue. destruct (List.find _ _) as [i|] eqn:E; intros [= <- <-].
  - apply find_Some_elem in E. rewrite elem_of_rangeValues in E. left. lia.
  - right. repeat split. intros i Hi.
    pose proof (find_None_elem _ _ E i) as H. rewrite elem_of_rangeValues in H.
    specialize (H Hi). lia.
Qed.

Lemma getIncreaseNextValue_spec (values : list Z) (nowValue v : Z) (b : bool) :
  getIncreaseNextValue values nowValue = Ok (v, b) ->
  (b = true /\ v ∈ values /\ nowValue <= v) \/
  (b = false /\ v ∈ values /\ forall i, i ∈ values -> i < nowValue).
Proof.
  unfold getIncreaseNextValue. destruct (List.find _ _) as [i|] eqn:E.
  - intros [= <- <-]. apply find_Some_elem in E. left. intuition lia.
  - intros H. apply bind_Ok in H. destruct H as (a & Ha & [= <- <-]).
    right. unfold index in Ha. destruct (values !! 0%nat) eqn:E0; [|discriminate].
    injection Ha as ->. repeat split.
    + eapply list_elem_of_lookup_2; eauto.
    + intros i Hi. pose proof (find_None_elem _ _ E i Hi). lia.
Qed.

Lemma dayNextValue_spec (f : field.t) (year nextMonth day nextWeekDay : Z) :
  let d := dayNextValue f year nextMonth day nextWeekDay in
  (d ∈ dayCandidates f /\ day <= d /\
   Weekday (Date year nextMonth d 0 0 0 0) = nextWeekDay) \/
  (d = 0 /\ forall i, i ∈ dayCandidates f -> day <= i ->
            Weekday (Date year nextMonth i 0 0 0 0) <> nextWeekDay).
Proof.
  unfold dayNextValue, dayCandidates, getRangeDayNextValue, getIncreaseDayNextValue.
  destruct (field.isRange f); cbv zeta;
    (destruct (List.find _ _) as [i|] eqn:E;
     [ apply find_Some_elem in E; left; intuition lia
     | right; split; [reflexivity|]; intros i Hi Hd;
       pose proof (find_None_elem _ _ E i Hi); lia ]).
Qed.


Lemma nextPlainDay_unfold (t : trigger.t) (now : Time) (nextYear nextMonth : Z) :
  nextPlainDay t now nextYear nextMonth =
  (let otherMonth := negb ((nextYear =? Year now) && (nextMonth =? Month now)) in
   let startWeekDay := if otherMonth then 0 else Weekday now in
   let startDay := if otherMonth then 1 else Day now in
   '(nextWeekDay, isFind) ← fieldNextValue (trigger.week t) startWeekDay;
   if negb isFind then
     tempDate ← getMonthAfterLatestWeek nextYear nextMonth startDay nextWeekDay;
     Ok (Carry tempDate)
   else nextClock t now nextYear nextMonth
          (dayNextValue (trigger.day t) nextYear nextMonth startDay nextWeekDay)).
Proof. reflexivity. Qed.

(** What [nextClock] hands back is built on the day it was given. *)
Lemma nextClock_day (t : trigger.t) (now : Time) (y m d : Z) (s : step) :
  nextClock t now y m d = Ok s ->
  match s with
  | Found r => exists h mi sec, r = Date y m d h mi sec 0
  | Carry c => exists h mi sec dur, c = Add (Date y m d h mi sec 0) dur
  end.
Proof.
  unfold nextClock. intros H.
  apply bind_Ok in H. destruct H as ([nextHour f1] & _ & H).
  destruct (negb f1); [injection H as <-; eauto|].
  apply bind_Ok in H. destruct H as ([nextMin f2] & _ & H).
  destruct (negb f2); [injection H as <-; eauto|].
  apply bind_Ok in H. destruct H as ([nextSec f3] & _ & H).
  destruct (negb f3); injection H as <-; eauto.
Qed.


Lemma next_unfold (t : trigger.t) (now : Time) :
  next t now =
  ('(s, t') ← nextStep t now;
   match s with
   | Found nextTime => Ok (nextTime, t')
   | Carry now' => nextFrom 11 t' now' [1]
   end).
Proof. reflexivity. Qed.

Lemma getRangeNextValue_single (v nowValue : Z) :
  getRangeNextValue v v nowValue = (v, nowValue <=? v).
Proof.
  destruct (getRangeNextValue v v nowValue) as [x b] eqn:E.
  apply getRangeNextValue_spec in E. destruct E as [(-> & H1 & H2) | (-> & -> & H)].
  - f_equal; lia.
  - specialize (H v ltac:(lia)). f_equal. lia.
Qed.

Lemma nextStep_calc (t t' : trigger.t) (now : Time) (nextMonth : Z) (c : calc) (isFind : bool) :
  fieldNextValue (trigger.mon t) (Month now) = Ok (nextMonth, true) ->
  selectedCalc t = Some c ->
  calculate c t (Year now) nextMonth = Ok (isFind, t') ->
  nextStep t now =
  (let nextDay := field.start (trigger.day t') in
   if negb isFind ||
      Before (Date (Year now) nextMonth nextDay (Hour now) (Minute now) (Second now)
                (Nanosecond now)) now
   then Ok (Carry (AddDate (Date (Year now) nextMonth 1 0 0 0 0) 0 1 0), t')
   else s ← nextClock t' now (Year now) nextMonth nextDay; Ok (s, t')).
Proof.
  intros Hmon Hsel Hcalc. unfold nextStep, selectedCalc in *. rewrite Hmon.
  cbn [mbind res_bind negb].
  destruct (field.calculate (trigger.week t)) as [cw|].
  - injection Hsel as ->. cbn [isSome orb]. rewrite Hcalc. reflexivity.
  - rewrite Hsel. cbn [isSome orb]. rewrite Hcalc. reflexivity.
Qed.

Lemma nextStep_plain (t : trigger.t) (now : Time) (nextMonth : Z) :
  fieldNextValue (trigger.mon t) (Month now) = Ok (nextMonth, true) ->
  selectedCalc t = None ->
  nextStep t now = (s ← nextPlainDay t now (Year now) nextMonth; Ok (s, t)).
Proof.
  intros Hmon Hsel. unfold nextStep, selectedCalc in *. rewrite Hmon.
  cbn [mbind res_bind negb].
  destruct (field.calculate (trigger.week t)); [discriminate|]. rewrite Hsel. reflexivity.
Qed.

Lemma nextStep_year (t : trigger.t) (now : Time) (nextMonth : Z) :
  fieldNextValue (trigger.mon t) (Month now) = Ok (nextMonth, false) ->
  nextStep t now = Ok (Carry (Date (Year now + 1) nextMonth 1 0 0 0 0), t).
Proof. intros Hmon. unfold nextStep. rewrite Hmon. reflexivity. Qed.

Lemma parse_lastDayTrigger : parse "0 0 23 L * ?" = Ok lastDayTrigger.
Proof. reflexivity. Qed.

Lemma After_false (t u : Time) :
  After t u = false <-> wall t < wall u \/ (wall t = wall u /\ nsec t <= nsec u).
Proof. unfold After. destruct t, u; cbn. lia. Qed.

Lemma Before_false (t u : Time) :
  Before t u = false <-> wall u < wall t \/ (wall t = wall u /\ nsec u <= nsec t).
Proof. unfold Before. destruct t, u; cbn. lia. Qed.

(** C7: ["0 0 23 L * ?"], from any instant of a February that is not after
    the fire time, resolves to 23:00:00 of February 29 in a leap year (4,
    100, 400 rule) and of February 28 otherwise; and the [L] rule always
    evaluates to the last calendar day of the year and month it is given:
    that day is in the month and the day after it is the first of the
    next month. *)
Theorem last_day_of_february (now : Time) :
  let y := Year now in
  let last := if isLeap y then 29 else 28 in
  let fire := Date y 2 last 23 0 0 0 in
  Month now = 2 ->
  0 <= nsec now < 1000000000 ->
  After now fire = false ->
  parse "0 0 23 L * ?" = Ok lastDayTrigger /\
  (isLeap y = true <-> leapYear y) /\
  next lastDayTrigger now = Ok (fire, lastDayTriggerAt last) /\
  (Year fire, Month fire, Day fire, Hour fire, Minute fire, Second fire) =
    (y, 2, last, 23, 0, 0) /\
  (forall (t : trigger.t) (year month : Z), 1 <= month <= 12 ->
     let d := getYearMonthDays year month in
     calculate calcDayL t year month =
       Ok (true, trigger.setDay t (field.setSingle (trigger.day t) d)) /\
     d = daysIn year month /\
     (Year (Date year month d 0 0 0 0), Month (Date year month d 0 0 0 0),
      Day (Date year month d 0 0 0 0)) = (year, month, d) /\
     (Year (Date year month (d + 1) 0 0 0 0), Month (Date year month (d + 1) 0 0 0 0),
      Day (Date year month (d + 1) 0 0 0 0)) =
       ((nextMonthOf year month).1, (nextMonthOf year month).2, 1)).
Proof.
  intros y last fire Hmon Hns Hafter.
  assert (Hlast : last = daysIn y 2) by (unfold last, daysIn, monthLen; destruct (isLeap y); reflexivity).
  assert (Hlast' : getYearMonthDays y 2 = last)
    by (rewrite getYearMonthDays_daysIn by lia; congruence).
  pose proof (Time_date now) as (Hm & Hd & Hh & Hmi & Hs & Hdays & Hwall).
  fold y in Hd, Hdays. rewrite Hmon in Hd, Hdays.
  destruct (Date_wall y 2 last 23 0 0 0 ltac:(lia) ltac:(lia)) as [Hfw Hfn]. fold fire in Hfw, Hfn.
  apply After_false in Hafter. rewrite Hfw, Hfn, Hwall, Hdays in Hafter.
  pose proof (daysOf_shift y 2 (Day now) (last - Day now)) as Hsh.
  replace (Day now + (last - Day now)) with last in Hsh by lia.
  split; [reflexivity|]. split; [apply isLeap_true_iff|]. split; [|split].
  - rewrite next_unfold.
    rewrite (nextStep_calc lastDayTrigger (lastDayTriggerAt last) now 2 calcDayL true);
      [| rewrite Hmon; reflexivity | reflexivity
       | fold y; unfold calculate; rewrite Hlast'; reflexivity].
    change (field.start (trigger.day (lastDayTriggerAt last))) with last. cbv zeta.
    fold y.
    assert (Hb : Before (Date y 2 last (Hour now) (Minute now) (Second now) (Nanosecond now))
                   now = false).
    { apply Before_false.
      destruct (Date_wall y 2 last (Hour now) (Minute now) (Second now) (Nanosecond now)
                    ltac:(lia) Hns) as [-> ->].
      rewrite Hwall, Hdays. unfold Nanosecond. lia. }
    rewrite Hb. cbn [negb orb]. unfold nextClock, fieldNextValue. rewrite Hmon. fold y.
    change (trigger.hour (lastDayTriggerAt last)) with (rangeField hourField 23 23).
    change (trigger.min (lastDayTriggerAt last)) with (rangeField minField 0 0).
    change (trigger.sec (lastDayTriggerAt last)) with (rangeField secField 0 0).
    cbn [rangeField field.isRange field.start field.end_].
    rewrite getRangeNextValue_single. cbn [mbind res_bind].
    rewrite Z.eqb_refl. change (2 =? 2) with true. cbn [andb].
    replace ((if negb (last =? Day now) then 0 else Hour now) <=? 23) with true
      by (destruct (last =? Day now); cbn [negb]; lia).
    cbn [negb]. rewrite getRangeNextValue_single. cbn [mbind res_bind].
    replace ((if negb ((last =? Day now) && (23 =? Hour now)) then 0 else Minute now) <=? 0)
      with true
      by (destruct (last =? Day now) eqn:?, (23 =? Hour now) eqn:?; cbn [negb andb]; lia).
    cbn [negb]. rewrite getRangeNextValue_single. cbn [mbind res_bind].
    replace ((if negb ((last =? Day now) && (23 =? Hour now) && (0 =? Minute now))
              then 0 else Second now) <=? 0) with true
      by (destruct (last =? Day now) eqn:?, (23 =? Hour now) eqn:?, (0 =? Minute now) eqn:?;
          cbn [negb andb]; lia).
    reflexivity.
  - unfold fire. destruct (Date_fields y 2 last 23 0 0 0) as (-> & -> & -> & -> & -> & -> & _);
      try lia. reflexivity.
  - intros t year month Hmo d. split; [reflexivity|].
    assert (Hd' : d = daysIn year month) by (apply getYearMonthDays_daysIn; exact Hmo).
    split; [exact Hd'|]. pose proof (daysIn_bounds year month Hmo).
    split.
    + destruct (Date_fields year month d 0 0 0 0) as (-> & -> & -> & _); try lia. reflexivity.
    + pose proof (daysOf_nextMonth year month Hmo) as Hn.
      destruct (nextMonthOf year month) as [y' m'] eqn:En. cbn [fst snd].
      assert (Hm' : 1 <= m' <= 12)
        by (unfold nextMonthOf in En; destruct (month =? 12) eqn:?; injection En; lia).
      assert (Date year month (d + 1) 0 0 0 0 = Date y' m' 1 0 0 0 0) as ->.
      { destruct (Date_wall year month (d + 1) 0 0 0 0 Hmo ltac:(lia)) as [W1 N1].
        destruct (Date_wall y' m' 1 0 0 0 0 Hm' ltac:(lia)) as [W2 N2].
        apply Time_eq; [|congruence]. rewrite W1, W2, daysOf_shift, Hn, Hd'. lia. }
      pose proof (daysIn_bounds y' m' Hm').
      destruct (Date_fields y' m' 1 0 0 0 0) as (-> & -> & -> & _); try lia. reflexivity.
Qed.

(** ** The job map and the job slice *)

Lemma schedInv_New : schedInv Scheduler.New.
Proof.
  unfold schedInv, consistent, Scheduler.New. cbn. split; [|split; [|split]].
  - intros i p. rewrite lookup_empty. split; [discriminate|].
    intros [Hin _]. apply elem_of_nil in Hin. contradiction.
  - constructor.
  - intros p Hin. apply elem_of_nil in Hin. contradiction.
  - lia.
Qed.

Lemma consistent_unique_id (c : Scheduler.t) (p q : positive) (j k : job.t) :
  consistent c ->
  p ∈ Scheduler.jobs c -> q ∈ Scheduler.jobs c ->
  Scheduler.heap c !! p = Some j -> Scheduler.heap c !! q = Some k ->
  job.id j = job.id k -> p = q.
Proof.
  intros Hc Hp Hq Hj Hk Hid.
  assert (H1 : Scheduler.jobMap c !! job.id j = Some p) by (apply Hc; eauto).
  assert (H2 : Scheduler.jobMap c !! job.id j = Some q) by (apply Hc; eauto).
  congruence.
Qed.

Lemma AddJob_Ok (c : Scheduler.t) (cronExpression : string) (f : func) (now : Time)
    (i : Z) (c' : Scheduler.t) :
  Scheduler.AddJob c cronExpression f now = Ok (i, None, c') ->
  exists j,
    let p : positive := fresh (dom (Scheduler.heap c)) in
    i = uint_wrap (Scheduler.id c + 1) /\ job.id j = i /\
    Scheduler.heap c' = <[p := j]> (Scheduler.heap c) /\
    Scheduler.jobMap c' = <[i := p]> (Scheduler.jobMap c) /\
    Scheduler.jobs c' = (Scheduler.jobs c ++ [p])%list /\
    Scheduler.id c' = i.
Proof.
  unfold Scheduler.AddJob. destruct (newJob cronExpression f now) as [j | e |];
    [| discriminate | discriminate]. intros H.
  exists (job.setId j (uint_wrap (Scheduler.id c + 1))).
  destruct (Scheduler.running c).
  - destruct (send _) as [jc | |]; cbn in H; try discriminate.
    injection H as <- <-. cbn. repeat split; reflexivity.
  - injection H as <- <-. cbn. repeat split; reflexivity.
Qed.

Lemma AddJob_preserves (c c' : Scheduler.t) (cronExpression : string) (f : func)
    (now : Time) (i : Z) (err : option error) :
  schedInv c -> Scheduler.id c + 1 < 2 ^ 64 ->
  Scheduler.AddJob c cronExpression f now = Ok (i, err, c') ->
  schedInv c'.
Proof.
  intros Hinv Hno Hadd. destruct err as [e|].
  { apply AddJob_error in Hadd. destruct Hadd as (_ & -> & _). exact Hinv. }
  apply AddJob_Ok in Hadd. destruct Hadd as (j & Hi & Hid & Hh & Hm & Hj & Hc).
  destruct Hinv as (Hcons & Hnd & Hids & Hpos).
  set (p := fresh (dom (Scheduler.heap c))) in *.
  assert (Hi' : i = Scheduler.id c + 1).
  { rewrite Hi. unfold uint_wrap. apply Z.mod_small. lia. }
  assert (Hfresh : Scheduler.heap c !! p = None).
  { apply not_elem_of_dom. apply is_fresh. }
  assert (Hp : p ∉ Scheduler.jobs c).
  { intros Hin. destruct (Hids p Hin) as (j' & Hj' & _). congruence. }
  unfold schedInv, consistent. rewrite Hh, Hm, Hj, Hc.
  split; [intros i0 p0; split|split; [|split]].
  - intros Hl. destruct (decide (i = i0)) as [<- | Hne].
    + rewrite lookup_insert_eq in Hl. injection Hl as <-.
      split; [apply elem_of_app; right; apply list_elem_of_singleton; reflexivity|].
      exists j. rewrite lookup_insert_eq. auto.
    + rewrite lookup_insert_ne in Hl by exact Hne.
      apply Hcons in Hl. destruct Hl as (Hin & j' & Hj' & Hid').
      split; [apply elem_of_app; left; exact Hin|].
      exists j'. rewrite lookup_insert_ne by congruence. auto.
  - intros (Hin & j' & Hj' & Hid'). apply elem_of_app in Hin.
    destruct Hin as [Hin | Hin].
    + assert (p0 <> p) by congruence.
      rewrite lookup_insert_ne in Hj' by congruence.
      destruct (Hids p0 Hin) as (j'' & Hj'' & Hb).
      assert (j'' = j') as -> by congruence.
      rewrite lookup_insert_ne by lia. apply Hcons. eauto.
    + apply list_elem_of_singleton in Hin. subst p0.
      rewrite lookup_insert_eq in Hj'. injection Hj' as <-.
      rewrite <- Hid', Hid. apply lookup_insert_eq.
  - apply NoDup_app. repeat split; [exact Hnd | | apply NoDup_singleton].
    intros x Hx Hx'. apply list_elem_of_singleton in Hx'. subst x. exact (Hp Hx).
  - intros q Hin. apply elem_of_app in Hin. destruct Hin as [Hin | Hin].
    + destruct (Hids q Hin) as (j' & Hj' & Hb). exists j'.
      rewrite lookup_insert_ne by congruence. split; [exact Hj' | lia].
    + apply list_elem_of_singleton in Hin. subst q. exists j.
      rewrite lookup_insert_eq. split; [reflexivity | lia].
  - lia.
Qed.

Lemma findJob_spec (h : gmap positive job.t) (js : list positive) (i : Z) (n r : nat) :
  Scheduler.findJob h js i n = Ok r ->
  exists k : nat,
    r = (n + k)%nat /\ (k <= List.length js)%nat /\
    (forall k' p j, (k' < k)%nat -> js !! k' = Some p -> h !! p = Some j -> job.id j <> i) /\
    ((k < List.length js)%nat ->
     exists p j, js !! k = Some p /\ h !! p = Some j /\ job.id j = i).
Proof.
  revert n r. induction js as [|p js IH]; intros n r; cbn [Scheduler.findJob].
  - intros [= <-]. exists 0%nat. cbn. repeat split; try lia.
  - destruct (h !! p) as [j|] eqn:Hp; [|discriminate].
    destruct (job.id j =? i) eqn:E.
    + intros [= <-]. exists 0%nat. cbn. repeat split; try lia.
      intros _. exists p, j. repeat split; [exact Hp | lia].
    + intros H. apply IH in H. destruct H as (k & -> & Hk & Hbefore & Hat).
      exists (S k). cbn. repeat split; try lia.
      * intros k' p' j' Hlt Hl Hh. destruct k' as [|k']; cbn in Hl.
        -- injection Hl as <-. assert (j' = j) as -> by congruence. lia.
        -- eapply Hbefore; eauto. lia.
      * intros Hlt. apply Hat. lia.
Qed.

Lemma elem_of_remove_at {A} (l : list A) (i : nat) (x y : A) :
  NoDup l -> l !! i = Some y ->
  x ∈ (take i l ++ drop (i + 1) l)%list <-> x ∈ l /\ x <> y.
Proof.
  intros Hnd Hi.
  rewrite <- (take_drop_middle l i y Hi) in Hnd at 1.
  apply NoDup_app in Hnd. destruct Hnd as (_ & Hdisj & Hnd2).
  apply NoDup_cons in Hnd2. destruct Hnd2 as [Hy _].
  rewrite <- (take_drop_middle l i y Hi) at 3.
  replace (i + 1)%nat with (S i) by lia.
  rewrite !elem_of_app, elem_of_cons. split.
  - intros [H | H]; split; auto.
    + intros ->. apply (Hdisj y H). left.
    + intros ->. exact (Hy H).
  - intros [[H | [-> | H]] Hne]; auto. contradiction.
Qed.

Lemma Remove_preserves (c c' : Scheduler.t) (i : Z) :
  schedInv c -> Scheduler.Remove c i = Ok c' -> schedInv c'.
Proof.
  intros Hinv. pose proof Hinv as (Hcons & Hnd & Hids & Hpos). unfold Scheduler.Remove.
  destruct (Scheduler.jobMap c !! i) as [p|] eqn:Hl; [|intros [= <-]; exact Hinv].
  pose proof (proj1 (Hcons i p) Hl) as (Hin & j & Hj & Hid).
  destruct (List.length (Scheduler.jobs c) =? 1)%nat eqn:Elen.
  - destruct (send _) as [st | |]; cbn; intros H; try discriminate. injection H as <-.
    apply Nat.eqb_eq in Elen.
    assert (Hjobs : Scheduler.jobs c = [p]).
    { destruct (Scheduler.jobs c) as [|q [|? ?]]; cbn in Elen; try lia.
      apply list_elem_of_singleton in Hin. congruence. }
    unfold schedInv, consistent. cbn. split; [intros i0 p0; split | split; [|split]].
    + intros Hd. destruct (decide (i = i0)) as [<- | Hne].
      * rewrite lookup_delete_eq in Hd. discriminate.
      * rewrite lookup_delete_ne in Hd by exact Hne. apply Hcons in Hd.
        destruct Hd as (Hin0 & j0 & Hj0 & Hid0). rewrite Hjobs in Hin0.
        apply list_elem_of_singleton in Hin0. subst p0. congruence.
    + intros [Hin0 _]. apply elem_of_nil in Hin0. contradiction.
    + constructor.
    + intros q Hq. apply elem_of_nil in Hq. contradiction.
    + exact Hpos.
  - intros H. apply bind_Ok in H. destruct H as (r & Hfind & H).
    destruct (List.length (Scheduler.jobs c) <? r + 1)%nat eqn:Er; [discriminate|].
    injection H as <-. apply Nat.ltb_ge in Er.
    apply findJob_spec in Hfind. destruct Hfind as (k & -> & Hk & _ & Hat).
    cbn [Nat.add] in *.
    destruct (Hat ltac:(lia)) as (q & jq & Hq & Hjq & Hidq).
    assert (q = p) as ->.
    { apply (consistent_unique_id c q p jq j); auto; [|congruence].
      eapply list_elem_of_lookup_2; eauto. }
    unfold schedInv, consistent. cbn. split; [intros i0 p0; split | split; [|split]].
    + intros Hd. destruct (decide (i = i0)) as [<- | Hne].
      * rewrite lookup_delete_eq in Hd. discriminate.
      * rewrite lookup_delete_ne in Hd by exact Hne. apply Hcons in Hd.
        destruct Hd as (Hin0 & j0 & Hj0 & Hid0). split; [|eauto].
        apply (elem_of_remove_at _ _ _ p Hnd Hq). split; [exact Hin0|]. congruence.
    + intros (Hin0 & j0 & Hj0 & Hid0).
      apply (elem_of_remove_at _ _ _ p Hnd Hq) in Hin0. destruct Hin0 as [Hin0 Hne].
      assert (i <> i0).
      { intros <-. apply Hne. apply (consistent_unique_id c p0 p j0 j); auto. congruence. }
      rewrite lookup_delete_ne by assumption. apply Hcons. eauto.
    + rewrite <- (take_drop_middle _ _ _ Hq) in Hnd.
      apply NoDup_app in Hnd. destruct Hnd as (N1 & N2 & N3).
      apply NoDup_cons in N3. destruct N3 as [N3 N4].
      replace (k + 1)%nat with (S k) by lia.
      apply NoDup_app. repeat split; auto.
      intros x Hx Hx'. apply (N2 x Hx). right. exact Hx'.
    + intros q Hq'. apply (elem_of_remove_at _ _ _ p Hnd Hq) in Hq'.
      destruct Hq' as [Hq' _]. exact (Hids q Hq').
    + exact Hpos.
Qed.

(** C10: [AddJob] and [Remove] keep the id-to-job map and the job slice
    describing the same jobs: from a scheduler that satisfies the
    invariant (which holds of [New()] and contains the agreement of map
    and slice), every [AddJob] that returns, with the id counter short of
    overflow, and every [Remove] that returns leave a scheduler that
    satisfies it. *)
Theorem AddJob_Remove_keep_map_and_slice (c : Scheduler.t) :
  schedInv c ->
  consistent c /\
  (forall cronExpression f now i err c',
     Scheduler.id c + 1 < 2 ^ 64 ->
     Scheduler.AddJob c cronExpression f now = Ok (i, err, c') ->
     schedInv c' /\ consistent c') /\
  (forall i c', Scheduler.Remove c i = Ok c' -> schedInv c' /\ consistent c').
Proof.
  intros Hinv. split; [apply Hinv|]. split.
  - intros cronExpression f now i err c' Hno Hadd.
    assert (H : schedInv c') by (eapply AddJob_preserves; eauto).
    split; [exact H | apply H].
  - intros i c' Hrem.
    assert (H : schedInv c') by (eapply Remove_preserves; eauto).
    split; [exact H | apply H].
Qed.

(** ** Instants *)

Lemma Date_valid y m d h mi s : validTime (Date y m d h mi s 0).
Proof. unfold validTime, Date, norm. cbn. repeat (destruct (norm _ _ _) || cbn); lia. Qed.

Lemma Date_nsec y m d h mi s : nsec (Date y m d h mi s 0) = 0.
Proof. unfold Date, norm. cbn. reflexivity. Qed.

Lemma Date_wall0 y m d h mi s :
  1 <= m <= 12 ->
  wall (Date y m d h mi s 0) = daysOf y m d * 86400 + h * 3600 + mi * 60 + s.
Proof. intros Hm. apply Date_wall; lia. Qed.

Lemma Date_days y m d : 1 <= m <= 12 -> days (Date y m d 0 0 0 0) = daysOf y m d.
Proof. intros Hm. unfold days. rewrite Date_wall0 by exact Hm. lia. Qed.

Lemma Date_Weekday y m d :
  1 <= m <= 12 -> Weekday (Date y m d 0 0 0 0) = (daysOf y m d + 1) mod 7.
Proof. intros Hm. unfold Weekday. rewrite Date_days by exact Hm. reflexivity. Qed.

Lemma Weekday_range t : 0 <= Weekday t <= 6.
Proof. unfold Weekday. lia. Qed.

Lemma Date_midnight y m d : 1 <= m <= 12 -> midnight (Date y m d 0 0 0 0).
Proof.
  intros Hm. split; [apply Date_nsec|]. rewrite Date_days, Date_wall0 by exact Hm. lia.
Qed.

Lemma AddDate_days (t : Time) (k : Z) :
  midnight t ->
  midnight (AddDate t 0 0 k) /\ days (AddDate t 0 0 k) = days t + k /\
  AddDate t 0 0 k = Date (Year t) (Month t) (Day t + k) 0 0 0 0.
Proof.
  intros [Hn Hw]. pose proof (Time_date t) as (Hm & Hd & Hh & Hmi & Hs & Hdays & Hwall).
  assert (Hour t = 0 /\ Minute t = 0 /\ Second t = 0) as (Eh & Emi & Es)
    by (unfold Hour, Minute, Second in *; lia).
  unfold AddDate, Nanosecond. rewrite Eh, Emi, Es, Hn, !Z.add_0_r.
  split; [apply Date_midnight; exact Hm|]. split; [|reflexivity].
  rewrite Date_days, daysOf_shift by exact Hm. lia.
Qed.

Lemma midnight_eq (t u : Time) : midnight t -> midnight u -> days t = days u -> t = u.
Proof. intros [N1 W1] [N2 W2] Hd. apply Time_eq; congruence. Qed.

(** ** The calendar loops *)

(** A loop that steps by [k] days until the condition fails runs [n] times
    when [n] is the first count at which it fails. *)
Lemma while_steps (cond : Time -> bool) (k : Z) (n fuel : nat) (t : Time) :
  midnight t -> (n <= fuel)%nat ->
  (forall u, midnight u -> days u = days t + k * Z.of_nat n -> cond u = false) ->
  (forall (i : nat) u, (i < n)%nat -> midnight u -> days u = days t + k * Z.of_nat i ->
             cond u = true) ->
  exists r, while fuel cond (fun t => AddDate t 0 0 k) t = Ok r /\
            midnight r /\ days r = days t + k * Z.of_nat n.
Proof.
  revert fuel t. induction n as [|n IH]; intros fuel t Hmid Hle Hstop Hgo.
  - exists t. destruct fuel; cbn [while]; rewrite (Hstop t Hmid ltac:(lia));
      (split; [reflexivity | split; [exact Hmid | lia]]).
  - destruct fuel as [|fuel]; [lia|]. cbn [while].
    rewrite (Hgo 0%nat t ltac:(lia) Hmid ltac:(lia)).
    destruct (AddDate_days t k Hmid) as (Hmid' & Hdays' & _).
    destruct (IH fuel (AddDate t 0 0 k) Hmid' ltac:(lia)) as (r & Hr & Hrm & Hrd).
    + intros u Hu Hd. apply Hstop; [exact Hu | lia].
    + intros i u Hi Hu Hd. apply (Hgo (S i)); [lia | exact Hu | lia].
    + exists r. split; [exact Hr | split; [exact Hrm | lia]].
Qed.

Lemma Weekday_days (t : Time) : Weekday t = (days t + 1) mod 7.
Proof. reflexivity. Qed.

(** Walking forward to a weekday takes at most six steps. *)
Lemma getMonthAfterLatestWeek_spec (year month day weekDay : Z) :
  1 <= month <= 12 -> 0 <= weekDay <= 6 ->
  exists r, getMonthAfterLatestWeek year month day weekDay = Ok r /\ midnight r /\
            Weekday r = weekDay /\
            daysOf year month day <= days r <= daysOf year month day + 6 /\
            (Weekday (Date year month day 0 0 0 0) <> weekDay ->
             daysOf year month day < days r).
Proof.
  intros Hm Hw. unfold getMonthAfterLatestWeek.
  set (t0 := Date year month day 0 0 0 0).
  assert (Hmid : midnight t0) by (apply Date_midnight; exact Hm).
  assert (Hd0 : days t0 = daysOf year month day) by (apply Date_days; exact Hm).
  set (n := Z.to_nat ((weekDay - (days t0 + 1)) mod 7)).
  assert (Hn : Z.of_nat n = (weekDay - (days t0 + 1)) mod 7) by (unfold n; lia).
  clearbody n.
  destruct (while_steps (fun t => negb (Weekday t =? weekDay)) 1 n loopFuel t0 Hmid)
    as (r & Hr & Hrm & Hrd).
  - unfold loopFuel. lia.
  - intros u _ Hu. unfold Weekday. rewrite Hu. lia.
  - intros i u Hi _ Hu. unfold Weekday. rewrite Hu. lia.
  - exists r. split; [exact Hr|]. split; [exact Hrm|].
    unfold Weekday. rewrite Hrd, <- Hd0. lia.
Qed.

Lemma Date_next_month y m :
  1 <= m <= 12 ->
  Date y m (daysIn y m + 1) 0 0 0 0 =
  Date (nextMonthOf y m).1 (nextMonthOf y m).2 1 0 0 0 0 /\
  1 <= (nextMonthOf y m).2 <= 12 /\ (nextMonthOf y m).2 <> m.
Proof.
  intros Hm. pose proof (daysOf_nextMonth y m Hm) as Hn.
  destruct (nextMonthOf y m) as [y' m'] eqn:En. cbn [fst snd].
  assert (Hm' : 1 <= m' <= 12 /\ m' <> m)
    by (unfold nextMonthOf in En; destruct (m =? 12) eqn:?; injection En; lia).
  split; [|exact Hm'].
  apply midnight_eq; try (apply Date_midnight; lia).
  rewrite !Date_days, daysOf_shift by lia. lia.
Qed.

(** Walking back from a day of the month over a weekend. *)
Lemma getLatestWorkDay_total (year month day : Z) :
  1 <= month <= 12 ->
  exists r, getLatestWorkDay year month day = Ok r /\
    forall t, r = Some t -> Month t = month /\
      exists n, 0 <= n <= 2 /\ t = Date year month (day - n) 0 0 0 0.
Proof.
  intros Hm. unfold getLatestWorkDay.
  set (t0 := Date year month day 0 0 0 0).
  assert (Hmid : midnight t0) by (apply Date_midnight; exact Hm).
  assert (Hd0 : days t0 = daysOf year month day) by (apply Date_days; exact Hm).
  set (wd := (days t0 + 1) mod 7).
  set (n := if wd =? 0 then 2%nat else if wd =? 6 then 1%nat else 0%nat).
  destruct (while_steps (fun t => (Weekday t =? 0) || (Weekday t =? 6)) (-1) n loopFuel
              t0 Hmid) as (r & Hr & Hrm & Hrd).
  - unfold n, loopFuel. destruct (wd =? 0), (wd =? 6); lia.
  - intros u _ Hu. unfold Weekday. rewrite Hu. unfold n, wd.
    destruct (_ =? 0) eqn:E0; [lia|]. destruct (_ =? 6) eqn:E6; lia.
  - intros i u Hi _ Hu. unfold Weekday. rewrite Hu. revert Hi. unfold n, wd.
    destruct (_ =? 0) eqn:E0; [lia|]. destruct (_ =? 6) eqn:E6; lia.
  - rewrite Hr. cbn [mbind res_bind].
    destruct (negb (Month r =? month)) eqn:E; eexists; (split; [reflexivity|]);
      intros t [= <-]. split; [lia|].
    exists (Z.of_nat n). split; [unfold n; destruct (wd =? 0), (wd =? 6); lia|].
    apply midnight_eq; [exact Hrm | apply Date_midnight; exact Hm |].
    rewrite Date_days by exact Hm. replace (day - Z.of_nat n) with (day + - Z.of_nat n) by lia.
    rewrite daysOf_shift. lia.
Qed.

Lemma getLatestWorkDay_last (year month : Z) :
  1 <= month <= 12 ->
  exists t, getLatestWorkDay year month (getYearMonthDays year month) = Ok (Some t) /\
            1 <= Day t.
Proof.
  intros Hm. rewrite getYearMonthDays_daysIn by exact Hm.
  pose proof (daysIn_bounds year month Hm) as Hb.
  unfold getLatestWorkDay.
  set (t0 := Date year month (daysIn year month) 0 0 0 0).
  assert (Hmid : midnight t0) by (apply Date_midnight; exact Hm).
  assert (Hd0 : days t0 = daysOf year month (daysIn year month)) by (apply Date_days; exact Hm).
  set (wd := (days t0 + 1) mod 7).
  set (n := if wd =? 0 then 2%nat else if wd =? 6 then 1%nat else 0%nat).
  destruct (while_steps (fun t => (Weekday t =? 0) || (Weekday t =? 6)) (-1) n loopFuel
              t0 Hmid) as (r & Hr & Hrm & Hrd).
  - unfold n, loopFuel. destruct (wd =? 0), (wd =? 6); lia.
  - intros u _ Hu. unfold Weekday. rewrite Hu. unfold n, wd.
    destruct (_ =? 0) eqn:E0; [lia|]. destruct (_ =? 6) eqn:E6; lia.
  - intros i u Hi _ Hu. unfold Weekday. rewrite Hu. revert Hi. unfold n, wd.
    destruct (_ =? 0) eqn:E0; [lia|]. destruct (_ =? 6) eqn:E6; lia.
  - rewrite Hr. cbn [mbind res_bind].
    assert (Hn : 0 <= Z.of_nat n <= 2) by (unfold n; destruct (wd =? 0), (wd =? 6); lia).
    assert (r = Date year month (daysIn year month - Z.of_nat n) 0 0 0 0) as ->.
    { apply midnight_eq; [exact Hrm | apply Date_midnight; exact Hm |].
      rewrite Date_days by exact Hm.
      replace (daysIn year month - Z.of_nat n) with (daysIn year month + - Z.of_nat n) by lia.
      rewrite daysOf_shift. lia. }
    destruct (Date_fields year month (daysIn year month - Z.of_nat n) 0 0 0 0)
      as (_ & HM & HD & _); try lia.
    rewrite HM, Z.eqb_refl. cbn [negb]. eexists. split; [reflexivity | rewrite HD; lia].
Qed.

Lemma getMonthLatestWeek_total (year month weekDay : Z) :
  1 <= month <= 12 -> 0 <= weekDay <= 6 ->
  exists r, getMonthLatestWeek year month weekDay = Ok r.
Proof.
  intros Hm Hw. unfold getMonthLatestWeek.
  set (t0 := Date year month (getYearMonthDays year month) 0 0 0 0).
  assert (Hmid : midnight t0) by (apply Date_midnight; exact Hm).
  set (n := Z.to_nat (((days t0 + 1) - weekDay) mod 7)).
  assert (Hn : Z.of_nat n = ((days t0 + 1) - weekDay) mod 7) by (unfold n; lia).
  clearbody n.
  destruct (while_steps (fun t => negb (Weekday t =? weekDay)) (-1) n loopFuel t0 Hmid)
    as (r & Hr & _).
  - unfold loopFuel. lia.
  - intros u _ Hu. unfold Weekday. rewrite Hu. lia.
  - intros i u Hi _ Hu. unfold Weekday. rewrite Hu. lia.
  - eauto.
Qed.

Lemma weekNumLoop_total (year month weekNum weekDay : Z) (fuel : nat) (d n : Z) :
  1 <= month <= 12 -> 1 <= d <= daysIn year month + 1 ->
  daysIn year month + 1 - d <= Z.of_nat fuel ->
  exists r, weekNumLoop fuel month weekNum weekDay (Date year month d 0 0 0 0) n = Ok r.
Proof.
  intros Hm. revert d n. induction fuel as [|fuel IH]; intros d n Hd Hf.
  - assert (d = daysIn year month + 1) as -> by lia. cbn [weekNumLoop].
    destruct (Date_next_month year month Hm) as (-> & Hm' & Hne).
    pose proof (daysIn_bounds (nextMonthOf year month).1 (nextMonthOf year month).2 Hm').
    destruct (Date_fields (nextMonthOf year month).1 (nextMonthOf year month).2 1 0 0 0 0)
      as (_ & -> & _); try lia.
    replace (_ =? month) with false by lia. eauto.
  - cbn [weekNumLoop]. destruct (Month _ =? month) eqn:E; [|eauto].
    destruct (_ && _); [eauto|].
    assert (d <> daysIn year month + 1).
    { intros ->. destruct (Date_next_month year month Hm) as (Heq & Hm' & Hne).
      rewrite Heq in E.
      pose proof (daysIn_bounds (nextMonthOf year month).1 (nextMonthOf year month).2 Hm').
      destruct (Date_fields (nextMonthOf year month).1 (nextMonthOf year month).2 1 0 0 0 0)
        as (_ & Hmo & _); try lia. }
    destruct (AddDate_days (Date year month d 0 0 0 0) 1) as (_ & _ & ->);
      [apply Date_midnight; exact Hm|].
    destruct (Date_fields year month d 0 0 0 0) as (-> & -> & -> & _); try lia.
    apply IH; lia.
Qed.

Lemma getMonthWeekByWeekNumDay_total (year month weekNum weekDay : Z) :
  1 <= month <= 12 ->
  exists r, getMonthWeekByWeekNumDay year month weekNum weekDay = Ok r.
Proof.
  intros Hm. unfold getMonthWeekByWeekNumDay. apply (weekNumLoop_total year); try lia.
  - pose proof (daysIn_bounds year month Hm). lia.
  - pose proof (daysIn_bounds year month Hm). unfold loopFuel. lia.
Qed.

(** ** Well-formed triggers *)

Lemma fieldNextValue_wf (lo hi : Z) (f : field.t) (n : Z) :
  wfField lo hi f ->
  exists v b, fieldNextValue f n = Ok (v, b) /\ lo <= v <= hi /\
              (b = true -> n <= v) /\ (b = false -> v < n).
Proof.
  unfold wfField, fieldNextValue. destruct (field.isRange f).
  - intros [H1 H2]. destruct (getRangeNextValue _ _ n) as [v b] eqn:E.
    exists v, b. split; [reflexivity|]. apply getRangeNextValue_spec in E.
    destruct E as [(-> & Hv & Hn) | (-> & -> & Hall)].
    + repeat split; try lia; discriminate.
    + specialize (Hall (field.start f) ltac:(lia)). repeat split; try lia; discriminate.
  - intros [Hne Hall]. rewrite Forall_forall in Hall.
    destruct (getIncreaseNextValue (field.values f) n) as [[v b] | e |] eqn:E.
    + exists v, b. split; [reflexivity|]. apply getIncreaseNextValue_spec in E.
      destruct E as [(-> & Hv & Hn) | (-> & Hv & Hlt)].
      * specialize (Hall v Hv). repeat split; try lia; discriminate.
      * specialize (Hall v Hv). specialize (Hlt v Hv). repeat split; try lia; discriminate.
    + exfalso. unfold getIncreaseNextValue in E. destruct (List.find _ _); [discriminate|].
      destruct (field.values f); [congruence|]. discriminate.
    + exfalso. unfold getIncreaseNextValue in E. destruct (List.find _ _); [discriminate|].
      destruct (field.values f); [congruence|]. discriminate.
Qed.

Lemma selectedCalc_setSingle (t : trigger.t) (d w : Z) :
  selectedCalc (trigger.setDay t (field.setSingle (trigger.day t) d)) = selectedCalc t /\
  selectedCalc
    (trigger.setDay (trigger.setWeek t (field.setSingle (trigger.week t) w))
       (field.setSingle (trigger.day t) d)) = selectedCalc t.
Proof. split; reflexivity. Qed.

(** Running the closure of a well-formed trigger returns, leaves the
    trigger well-formed, and a day it finds is at least 1. *)
Lemma calculate_total (t : trigger.t) (c : calc) (year month : Z) :
  wfTrigger t -> selectedCalc t = Some c -> 1 <= month <= 12 ->
  exists b t', calculate c t year month = Ok (b, t') /\
               wfTrigger t' /\ selectedCalc t' = Some c /\
               (b = true -> 1 <= field.start (trigger.day t')).
Proof.
  intros (Hs & Hmi & Hh & Hmo & Hc) Hsel Hm. rewrite Hsel in Hc.
  assert (Hwf : forall t', selectedCalc t' = Some c ->
                  trigger.sec t' = trigger.sec t -> trigger.min t' = trigger.min t ->
                  trigger.hour t' = trigger.hour t -> trigger.mon t' = trigger.mon t ->
                  wfTrigger t').
  { intros t' Hsel' E1 E2 E3 E4. unfold wfTrigger. rewrite E1, E2, E3, E4, Hsel'. auto. }
  pose proof (daysIn_bounds year month Hm) as Hb.
  destruct c as [| | day | weekNum | weekNum weekDay]; cbn [calculate].
  - eexists _, _. split; [reflexivity|]. split; [apply Hwf; auto|]. split; [exact Hsel|].
    intros _. cbn. rewrite getYearMonthDays_daysIn by exact Hm. lia.
  - destruct (getLatestWorkDay_last year month Hm) as (tm & -> & Hday).
    cbn [mbind res_bind]. eexists _, _. split; [reflexivity|].
    split; [apply Hwf; auto|]. split; [exact Hsel|]. intros _. exact Hday.
  - destruct (getLatestWorkDay_total year month day Hm) as (r & -> & _).
    cbn [mbind res_bind]. destruct r as [tm|].
    + eexists _, _. split; [reflexivity|]. split; [apply Hwf; auto|]. split; [exact Hsel|].
      intros _. cbn. pose proof (Time_date tm). lia.
    + eexists _, _. split; [reflexivity|]. split; [apply Hwf; auto|]. split; [exact Hsel|].
      discriminate.
  - destruct (getMonthLatestWeek_total year month weekNum Hm Hc) as (r & ->).
    cbn [mbind res_bind]. eexists _, _. split; [reflexivity|].
    split; [apply Hwf; auto|]. split; [exact Hsel|].
    intros _. cbn. pose proof (Time_date r). lia.
  - destruct (getMonthWeekByWeekNumDay_total year month weekNum weekDay Hm) as (r & ->).
    cbn [mbind res_bind]. destruct r as [tm|].
    + eexists _, _. split; [reflexivity|]. split; [apply Hwf; auto|]. split; [exact Hsel|].
      intros _. cbn. pose proof (Time_date tm). lia.
    + eexists _, _. split; [reflexivity|]. split; [apply Hwf; auto|]. split; [exact Hsel|].
      discriminate.
Qed.

Lemma nextClock_total (t : trigger.t) (now : Time) (y m d : Z) :
  wfTrigger t -> exists s, nextClock t now y m d = Ok s.
Proof.
  intros (Hs & Hmi & Hh & _). unfold nextClock.
  destruct (fieldNextValue_wf 0 59 _ (if negb ((y =? Year now) && (m =? Month now) && (d =? Day now)) then 0 else Hour now) Hh)
    as (v1 & b1 & -> & _). cbn [mbind res_bind].
  destruct (negb b1); [eauto|].
  match goal with |- context [fieldNextValue (trigger.min t) ?n] =>
    destruct (fieldNextValue_wf 0 59 _ n Hmi) as (v2 & b2 & -> & _) end.
  cbn [mbind res_bind]. destruct (negb b2); [eauto|].
  match goal with |- context [fieldNextValue (trigger.sec t) ?n] =>
    destruct (fieldNextValue_wf 0 59 _ n Hs) as (v3 & b3 & -> & _) end.
  cbn [mbind res_bind]. destruct (negb b3); eauto.
Qed.

(** One activation of [trigger.next] on a well-formed trigger returns. *)
Lemma nextStep_total (t : trigger.t) (now : Time) :
  wfTrigger t -> exists s t', nextStep t now = Ok (s, t') /\ wfTrigger t'.
Proof.
  intros Hwf. pose proof Hwf as (_ & _ & _ & Hmo & Hc).
  destruct (fieldNextValue_wf 1 12 _ (Month now) Hmo) as (m & b & Hm & Hmr & _).
  destruct b.
  - destruct (selectedCalc t) as [c|] eqn:Hsel.
    + destruct (calculate_total t c (Year now) m Hwf Hsel Hmr) as (b & t' & Hcalc & Hwf' & _).
      rewrite (nextStep_calc t t' now m c b Hm Hsel Hcalc). cbv zeta.
      destruct (_ || _); [eauto|].
      destruct (nextClock_total t' now (Year now) m (field.start (trigger.day t')) Hwf')
        as (s & ->). cbn [mbind res_bind]. eauto.
    + rewrite (nextStep_plain t now m Hm Hsel). rewrite nextPlainDay_unfold. cbv zeta.
      destruct Hc as [Hd Hw].
      match goal with |- context [fieldNextValue (trigger.week t) ?n] =>
        destruct (fieldNextValue_wf 0 6 _ n Hw) as (w & bw & -> & Hwr & _) end.
      cbn [mbind res_bind]. destruct bw; cbn [negb].
      * match goal with |- context [nextClock t now ?y ?m ?d] =>
          destruct (nextClock_total t now y m d Hwf) as (s & ->) end.
        cbn [mbind res_bind]. eauto.
      * match goal with |- context [getMonthAfterLatestWeek ?y ?m ?d ?w] =>
          destruct (getMonthAfterLatestWeek_spec y m d w Hmr Hwr) as (r & -> & _) end.
        cbn [mbind res_bind]. eauto.
  - rewrite (nextStep_year t now m Hm). eauto.
Qed.

(** ** The parser produces well-formed triggers *)

Lemma wfField_weaken (lo hi hi' : Z) (f : field.t) :
  hi <= hi' -> wfField lo hi f -> wfField lo hi' f.
Proof.
  intros Hh. unfold wfField. destruct (field.isRange f).
  - lia.
  - intros [Hne Hall]. split; [exact Hne|].
    eapply Forall_impl; [exact Hall|]. cbn. intros. lia.
Qed.

Ltac parser_step H :=
  match type of H with
  | (_ ≫= _) = Ok _ =>
      let a := fresh "a" in let Ha := fresh "Ha" in
      apply bind_Ok in H; destruct H as (a & Ha & H)
  | (if ?b then _ else _) = Ok _ =>
      let E := fresh "E" in destruct b eqn:E; [try discriminate H | try discriminate H]
  | (let '(_, _) := ?p in _) = Ok _ =>
      let E := fresh "E" in destruct p eqn:E
  | Err _ = Ok _ => discriminate H
  | Abort = Ok _ => discriminate H
  end.

Lemma parserRangeField_wf str arr f f' lo hi :
  ranges (field.name f) = Ok (lo, hi) ->
  parserRangeField str arr f = Ok f' ->
  wfField lo hi f' /\ field.calculate f' = field.calculate f.
Proof.
  intros Hr H. unfold parserRangeField in H. cbn [field.name field.setIsRange] in H.
  rewrite Hr in H. cbn [mbind res_bind] in H.
  repeat parser_step H. injection H as <-.
  cbn [field.setStart field.setEnd field.start field.end_ field.isRange] in *.
  unfold wfField. cbn. split; [lia | reflexivity].
Qed.

Lemma stepValues_Forall (fuel : nat) (i end_ increment : Z) :
  0 <= increment -> Forall (fun v => i <= v <= end_) (stepValues fuel i end_ increment).
Proof.
  intros Hinc. revert i. induction fuel as [|fuel IH]; intros i; cbn [stepValues].
  - constructor.
  - destruct (i <=? end_) eqn:E; [|constructor].
    constructor; [lia|]. eapply Forall_impl; [apply IH|]. cbn. intros. lia.
Qed.

Lemma ranges_bounds (n : fieldName) (lo hi : Z) : ranges n = Ok (lo, hi) -> 0 <= lo <= hi.
Proof. destruct n; intros [= <- <-] || discriminate; lia. Qed.

Lemma parserIncreaseField_wf str arr f f' lo hi :
  ranges (field.name f) = Ok (lo, hi) -> field.values f = [] ->
  parserIncreaseField str arr f = Ok f' ->
  wfField lo hi f' /\ field.calculate f' = field.calculate f.
Proof.
  intros Hr Hv H. unfold parserIncreaseField in H. cbn [field.name field.setIsRange] in H.
  rewrite Hr in H. cbn [mbind res_bind] in H.
  parser_step H. parser_step H. parser_step H. parser_step H.
  parser_step H. parser_step H. parser_step H. injection H as <-.
  cbn [field.setIsRange field.values] in *. rewrite Hv. cbn [app].
  pose proof (ranges_bounds _ _ _ Hr) as Hlo.
  assert (Hstart : lo <= a0 <= hi).
  { clear - Ha0 Hr Hlo. destruct (String.eqb a "*").
    - injection Ha0 as <-. lia.
    - repeat parser_step Ha0. injection Ha0 as <-. lia. }
  unfold wfField. cbn. split; [|reflexivity]. split.
  - destruct (Z.to_nat (hi - a0 + 1)) eqn:En; [lia|]. cbn [stepValues].
    replace (a0 <=? hi) with true by lia. discriminate.
  - eapply Forall_impl; [apply stepValues_Forall; lia|]. cbn. intros. lia.
Qed.

Lemma insertSorted_Forall (P : Z -> Prop) (x : Z) (l : list Z) :
  P x -> Forall P l -> Forall P (insertSorted x l).
Proof.
  intros Hx Hl. induction Hl as [|y l Hy Hl IH]; cbn [insertSorted].
  - constructor; [exact Hx | constructor].
  - destruct (x <=? y); constructor; auto.
Qed.

Lemma insertSorted_nonempty (x : Z) (l : list Z) : insertSorted x l <> [].
Proof. destruct l; cbn; [discriminate|]. destruct (x <=? z); discriminate. Qed.

Lemma sortValues_Forall (P : Z -> Prop) (l : list Z) :
  Forall P l -> Forall P (sortValues l).
Proof.
  intros Hl. induction Hl as [|y l Hy Hl IH]; cbn.
  - constructor.
  - apply insertSorted_Forall; assumption.
Qed.

Lemma sortValues_nonempty (l : list Z) : l <> [] -> sortValues l <> [].
Proof. destruct l; [congruence|]. intros _. apply insertSorted_nonempty. Qed.

Lemma enumValues_spec str arr f lo hi vs :
  enumValues str arr f lo hi = Ok vs ->
  List.length vs = List.length arr /\ Forall (fun v => lo <= v <= hi) vs.
Proof.
  revert vs. induction arr as [|a arr IH]; intros vs H; cbn [enumValues] in H.
  - injection H as <-. split; [reflexivity | constructor].
  - repeat parser_step H. injection H as <-.
    match goal with H' : enumValues _ _ _ _ _ = Ok _ |- _ =>
      destruct (IH _ H') as [Hl Hall] end.
    split; [cbn; lia|]. constructor; [lia | exact Hall].
Qed.

Lemma parserEnumField_wf str arr f f' lo hi :
  ranges (field.name f) = Ok (lo, hi) -> arr <> [] ->
  parserEnumField str arr f = Ok f' ->
  wfField lo hi f' /\ field.calculate f' = field.calculate f.
Proof.
  intros Hr Hne H. unfold parserEnumField in H. cbn [field.name field.setIsRange] in H.
  rewrite Hr in H. cbn [mbind res_bind] in H.
  repeat parser_step H. injection H as <-.
  match goal with H' : enumValues _ _ _ _ _ = Ok ?vs |- _ =>
    apply enumValues_spec in H'; destruct H' as [Hl Hall]; rename vs into values end.
  unfold wfField. cbn. split; [|reflexivity]. split.
  - apply sortValues_nonempty. destruct values, arr; cbn in Hl; congruence.
  - apply sortValues_Forall. exact Hall.
Qed.

Lemma Split_not_nil (s : string) (sep : ascii) : Split s sep <> [].
Proof. pose proof (Split_nonempty s sep). destruct (Split s sep); cbn in *; [lia | discriminate]. Qed.

Lemma parserCompound_wf s f other f' lo hi :
  ranges (field.name f) = Ok (lo, hi) -> field.values f = [] ->
  parserCompound s f other = Ok f' ->
  (wfField lo hi f' /\ field.calculate f' = field.calculate f) \/ other = Ok f'.
Proof.
  intros Hr Hv H. unfold parserCompound in H.
  destruct (contains s "-"); [left; eapply parserRangeField_wf; eauto|].
  destruct (contains s "/"); [left; eapply parserIncreaseField_wf; eauto|].
  destruct (contains s ","); [left; eapply parserEnumField_wf; eauto using Split_not_nil|].
  right. exact H.
Qed.

Lemma wfField_single (lo hi v : Z) (f : field.t) :
  lo <= v <= hi -> wfField lo hi (field.setSingle f v).
Proof. intros H. unfold wfField. cbn. lia. Qed.

Lemma parserClockField_wf unit str f :
  unit = secField \/ unit = minField \/ unit = hourField ->
  parserClockField unit str = Ok f -> wfField 0 59 f.
Proof.
  intros Hu H. unfold parserClockField in H.
  assert (Hr : exists hi, ranges unit = Ok (0, hi) /\ hi <= 59)
    by (destruct Hu as [-> | [-> | ->]]; cbn; eexists; (split; [reflexivity | lia])).
  destruct Hr as (hi & Hr & Hhi). cbn [field.name field.new] in H.
  pose proof (ranges_bounds _ _ _ Hr) as Hlo.
  destruct (String.eqb str "*").
  - rewrite Hr in H. cbn in H. injection H as <-. unfold wfField. cbn. lia.
  - apply (parserCompound_wf _ _ _ _ 0 hi) in H; [| exact Hr | reflexivity].
    destruct H as [[H _] | H]; [eapply wfField_weaken; eauto|].
    repeat parser_step H. injection H as <-. apply wfField_single. lia.
Qed.

Lemma monsAlias_range (s : string) (v : Z) : monsAlias s = Some v -> 1 <= v <= 12.
Proof.
  unfold monsAlias.
  repeat (match goal with |- (if ?b then _ else _) = _ -> _ => destruct b end;
          [intros [= <-]; lia|]).
  discriminate.
Qed.

Lemma weekAlias_range (s : string) (v : Z) : weekAlias s = Some v -> 0 <= v <= 6.
Proof.
  unfold weekAlias.
  repeat (match goal with |- (if ?b then _ else _) = _ -> _ => destruct b end;
          [intros [= <-]; lia|]).
  discriminate.
Qed.

Lemma parserMonField_wf s f :
  parserMonField s = Ok f -> wfField 1 12 f.
Proof.
  intros H. unfold parserMonField in H. destruct (String.eqb s "*").
  - injection H as <-. unfold wfField. cbn. lia.
  - apply (parserCompound_wf _ _ _ _ 1 12) in H; [| reflexivity | reflexivity].
    destruct H as [[H _] | H]; [exact H|].
    destruct (ParseUint s 8) as [mon err]. apply bind_Ok in H.
    destruct H as (start & Hstart & [= <-]). apply wfField_single.
    destruct (isSome err).
    + destruct (monsAlias s) as [alias|] eqn:E; [|discriminate].
      injection Hstart as <-. exact (monsAlias_range _ _ E).
    + repeat parser_step Hstart. injection Hstart as <-. lia.
Qed.

(** A day field either is searched, within 1..31, or has a closure. *)
Lemma parserDayField_wf s f :
  parserDayField s = Ok f ->
  (field.calculate f = None /\ wfField 1 31 f) \/
  (exists c, field.calculate f = Some c /\ wfCalc c).
Proof.
  intros H. unfold parserDayField in H. destruct (_ || _).
  - injection H as <-. left. unfold wfField. cbn. split; [reflexivity | lia].
  - apply (parserCompound_wf _ _ _ _ 1 31) in H; [| reflexivity | reflexivity].
    destruct H as [[H Hc] | H]; [left; split; [exact Hc | exact H]|].
    destruct (String.eqb s "L"); [injection H as <-; right; eexists; split; [reflexivity | exact I]|].
    destruct (String.eqb s "LW"); [injection H as <-; right; eexists; split; [reflexivity | exact I]|].
    destruct (contains s "W").
    + destruct (ParseUint _ 8) as [day e]. injection H as <-.
      right. eexists. split; [reflexivity | exact I].
    + repeat parser_step H. injection H as <-. left.
      split; [reflexivity | apply wfField_single; lia].
Qed.

(** A week field either is searched, within 0..6, or has a closure whose
    weekday is within 0..6. *)
Lemma parserWeekField_wf cron s f :
  parserWeekField cron s = Ok f ->
  (field.calculate f = None /\ wfField 0 6 f) \/
  (exists c, field.calculate f = Some c /\ wfCalc c).
Proof.
  intros H. unfold parserWeekField in H. destruct (_ || _).
  - injection H as <-. left. unfold wfField. cbn. split; [reflexivity | lia].
  - apply bind_Ok in H. destruct H as (a3 & _ & H). destruct (_ && _); [discriminate|].
    apply (parserCompound_wf _ _ _ _ 0 6) in H; [| reflexivity | reflexivity].
    destruct H as [[H Hc] | H]; [left; split; [exact Hc | exact H]|].
    destruct (contains s "L").
    { apply bind_Ok in H. destruct H as (weekNum & Hn & [= <-]).
      right. eexists. split; [reflexivity|]. cbn.
      destruct (String.eqb s "L"); [injection Hn as <-; lia|].
      repeat parser_step Hn. injection Hn as <-. lia. }
    destruct (contains s "#").
    { repeat parser_step H. injection H as <-.
      right. eexists. split; [reflexivity | exact I]. }
    destruct (ParseUint s 8) as [week err]. apply bind_Ok in H.
    destruct H as (start & Hstart & [= <-]). left. split; [reflexivity|].
    apply wfField_single. destruct (isSome err).
    + destruct (weekAlias s) as [alias|] eqn:E; [|discriminate].
      injection Hstart as <-. exact (weekAlias_range _ _ E).
    + repeat parser_step Hstart. injection Hstart as <-. lia.
Qed.

Lemma parse_wf (cron : string) (t : trigger.t) : parse cron = Ok t -> wfTrigger t.
Proof.
  intros H. unfold parse in H. destruct (negb _); [discriminate|].
  apply bind_Ok in H. destruct H as (a0 & _ & H).
  apply bind_Ok in H. destruct H as (sec & Hsec & H).
  apply bind_Ok in H. destruct H as (a1 & _ & H).
  apply bind_Ok in H. destruct H as (min & Hmin & H).
  apply bind_Ok in H. destruct H as (a2 & _ & H).
  apply bind_Ok in H. destruct H as (hour & Hhour & H).
  apply bind_Ok in H. destruct H as (a3 & _ & H).
  apply bind_Ok in H. destruct H as (day & Hday & H).
  apply bind_Ok in H. destruct H as (a4 & _ & H).
  apply bind_Ok in H. destruct H as (mon & Hmon & H).
  apply bind_Ok in H. destruct H as (a5 & _ & H).
  apply bind_Ok in H. destruct H as (week & Hweek & H).
  injection H as <-.
  apply parserClockField_wf in Hsec; [|auto]. apply parserClockField_wf in Hmin; [|auto].
  apply parserClockField_wf in Hhour; [|auto]. apply parserMonField_wf in Hmon.
  apply parserDayField_wf in Hday. apply parserWeekField_wf in Hweek.
  unfold wfTrigger, selectedCalc. cbn [trigger.sec trigger.min trigger.hour trigger.mon
                                       trigger.day trigger.week].
  repeat (split; [assumption|]).
  destruct Hweek as [[-> Hw] | (c & -> & Hc)]; [|exact Hc].
  destruct Hday as [[-> Hd] | (c & -> & Hc)]; [|exact Hc].
  split; assumption.
Qed.

(** ** Activations of [trigger.next] *)

Lemma nextFrom_deep (fuel : nat) (t : trigger.t) (now : Time) (deep : Z) (rest : list Z) :
  maxDeep < deep -> nextFrom (S fuel) t now (deep :: rest) = Ok (time.zero, t).
Proof.
  intros H. cbn [nextFrom List.length]. replace (maxDeep <? deep) with true by lia.
  reflexivity.
Qed.

Lemma nextFrom_cons (fuel : nat) (t : trigger.t) (now : Time) (deep : Z) :
  0 <= deep <= maxDeep ->
  nextFrom (S fuel) t now [deep] =
  ('(s, t') ← nextStep t now;
   match s with
   | Found nextTime => Ok (nextTime, t')
   | Carry now' => nextFrom fuel t' now' [deep + 1]
   end).
Proof.
  intros H. cbn [nextFrom List.length]. replace (maxDeep <? deep) with false by lia.
  cbn [andb]. replace ((deep + 1) mod 256) with (deep + 1) by (unfold maxDeep in H; lia).
  reflexivity.
Qed.

(** With the depth at [deep], [maxDeep + 2 - deep] activations suffice. *)
Lemma nextFrom_total (fuel : nat) (t : trigger.t) (now : Time) (deep : Z) :
  wfTrigger t -> 0 <= deep -> (1 <= fuel)%nat -> maxDeep + 2 - deep <= Z.of_nat fuel ->
  exists r t', nextFrom fuel t now [deep] = Ok (r, t') /\ wfTrigger t'.
Proof.
  revert t now deep. induction fuel as [|fuel IH]; intros t now deep Hwf Hd Hf1 Hf; [lia|].
  destruct (Z.lt_ge_cases maxDeep deep) as [Hgt | Hle].
  - rewrite nextFrom_deep by exact Hgt. eauto.
  - rewrite nextFrom_cons by lia.
    destruct (nextStep_total t now Hwf) as (s & t' & -> & Hwf'). cbn [mbind res_bind].
    destruct s as [r | now']; [eauto|].
    apply IH; try assumption; unfold maxDeep in *; lia.
Qed.

Lemma nextFrom_fuel (fuel fuel' : nat) (t : trigger.t) (now : Time) (deep : Z) :
  0 <= deep -> (1 <= fuel)%nat -> (1 <= fuel')%nat ->
  maxDeep + 2 - deep <= Z.of_nat fuel -> maxDeep + 2 - deep <= Z.of_nat fuel' ->
  nextFrom fuel t now [deep] = nextFrom fuel' t now [deep].
Proof.
  revert fuel' t now deep.
  induction fuel as [|fuel IH]; intros fuel' t now deep Hd H1 H1' Hf Hf'; [lia|].
  destruct fuel' as [|fuel']; [lia|].
  destruct (Z.lt_ge_cases maxDeep deep) as [Hgt | Hle].
  - rewrite !nextFrom_deep by exact Hgt. reflexivity.
  - rewrite !nextFrom_cons by lia.
    destruct (nextStep t now) as [[s t'] | e |]; cbn [mbind res_bind]; try reflexivity.
    destruct s as [r | now']; [reflexivity|].
    apply IH; unfold maxDeep in *; lia.
Qed.

Lemma activations_length (fuel : nat) (t : trigger.t) (now : Time) (deep : Z) :
  0 <= deep ->
  Z.of_nat (List.length (activations fuel t now [deep])) <= Z.max 0 (maxDeep + 1 - deep).
Proof.
  revert t now deep. induction fuel as [|fuel IH]; intros t now deep Hd; cbn [activations].
  - cbn. lia.
  - cbn [List.length Nat.ltb Nat.leb andb]. destruct (maxDeep <? deep) eqn:E; [cbn; lia|].
    cbn [List.length].
    destruct (nextStep t now) as [[[r | now'] t'] | e |]; cbn [List.length];
      try (unfold maxDeep in *; lia).
    replace ((deep + 1) mod 256) with (deep + 1) by (unfold maxDeep in *; lia).
    specialize (IH t' now' (deep + 1) ltac:(lia)). unfold maxDeep in *. lia.
Qed.

Lemma next_nil (fuel : nat) (t : trigger.t) (now : Time) :
  nextFrom (S fuel) t now [] =
  ('(s, t') ← nextStep t now;
   match s with
   | Found nextTime => Ok (nextTime, t')
   | Carry now' => nextFrom fuel t' now' [1]
   end).
Proof. reflexivity. Qed.

Lemma next_total (t : trigger.t) (now : Time) :
  wfTrigger t -> exists r t', next t now = Ok (r, t') /\ wfTrigger t'.
Proof.
  intros Hwf. unfold next. change (Z.to_nat (maxDeep + 2)) with 12%nat. rewrite next_nil.
  destruct (nextStep_total t now Hwf) as (s & t' & -> & Hwf'). cbn [mbind res_bind].
  destruct s as [r | now']; [eauto|].
  apply nextFrom_total; try assumption; unfold maxDeep; lia.
Qed.

(** C3: [trigger.next] terminates on every trigger the package builds
    (the parser's triggers are well-formed, and [next] keeps them so): it
    returns within [maxDeep + 2] activations whatever bound is allowed,
    the body runs at most [maxDeep + 1] times, and a call whose depth
    exceeds [maxDeep] returns the zero time at once, which is before any
    instant later than the first second of year 1. *)
Theorem next_terminates (t : trigger.t) (now : Time) :
  wfTrigger t ->
  (exists r t', next t now = Ok (r, t') /\ wfTrigger t') /\
  (forall fuel, (Z.to_nat (maxDeep + 2) <= fuel)%nat -> nextFrom fuel t now [] = next t now) /\
  (forall fuel, (List.length (activations fuel t now []) <= Z.to_nat (maxDeep + 1))%nat) /\
  (forall fuel t0 now0 deep rest,
     maxDeep < deep -> nextFrom (S fuel) t0 now0 (deep :: rest) = Ok (time.zero, t0)) /\
  (0 < wall now -> Before time.zero now = true) /\
  (forall cron t0, parse cron = Ok t0 -> wfTrigger t0).
Proof.
  intros Hwf. split; [|split; [|split; [|split; [|split]]]].
  - apply next_total. exact Hwf.
  - intros fuel Hf. unfold next. change (Z.to_nat (maxDeep + 2)) with 12%nat in *.
    destruct fuel as [|fuel]; [lia|]. rewrite !next_nil.
    destruct (nextStep t now) as [[s t'] | e |]; cbn [mbind res_bind]; try reflexivity.
    destruct s as [r | now']; [reflexivity|].
    apply nextFrom_fuel; unfold maxDeep; lia.
  - intros fuel. change (Z.to_nat (maxDeep + 1)) with 11%nat.
    destruct fuel as [|fuel]; cbn [activations List.length Nat.ltb Nat.leb andb]; [lia|].
    destruct (nextStep t now) as [[[r | now'] t'] | e |]; cbn [List.length]; try lia.
    pose proof (activations_length fuel t' now' 1 ltac:(lia)) as H.
    change ((0 + 1) mod 256) with 1. unfold maxDeep in H. lia.
  - intros fuel t0 now0 deep rest H. apply nextFrom_deep. exact H.
  - intros H. unfold Before. cbn. lia.
  - exact parse_wf.
Qed.

(** ** Fire times are not earlier than the instant asked about *)

Lemma Add_wall (t : Time) (d : Z) :
  nsec t = 0 -> d = 24 * Hour_ \/ d = Hour_ \/ d = Minute_ \/ d = Second_ ->
  wall (Add t d) = wall t + d / 1000000000 /\ nsec (Add t d) = 0.
Proof.
  intros Hn Hd. unfold Add. rewrite Hn. cbn [wall nsec].
  unfold Hour_, Minute_, Second_ in Hd. destruct Hd as [-> | [-> | [-> | ->]]]; split; reflexivity.
Qed.

Lemma daysOf_diff y m d d' : daysOf y m d' - daysOf y m d = d' - d.
Proof. unfold daysOf, yday. lia. Qed.

Lemma daysOf_month_lt y m d m' d' :
  1 <= m -> m < m' -> m' <= 12 -> d <= daysIn y m -> 1 <= d' ->
  daysOf y m d < daysOf y m' d'.
Proof.
  intros H1 H2 H3 Hd Hd'. revert Hd. unfold daysOf, daysIn, yday, monthLen.
  assert (1 <= m <= 12) as Hm by lia. assert (1 <= m' <= 12) as Hm' by lia.
  month_cases m; month_cases m'; try lia; destruct (isLeap y); calc; lia.
Qed.

Lemma daysOf_year_lt y m d m' d' :
  1 <= m <= 12 -> d <= daysIn y m -> 1 <= m' <= 12 -> 1 <= d' ->
  daysOf y m d < daysOf (y + 1) m' d'.
Proof.
  intros Hm Hd Hm' Hd'. revert Hd. unfold daysOf, daysIn, yday, monthLen.
  rewrite daysSinceEpoch_succ. unfold leapDays.
  month_cases m; destruct (isLeap y); calc; intros Hd;
    (assert (0 <= daysBefore (m' - 1)) by (month_cases m'; calc; lia));
    destruct (isLeap (y + 1) && (3 <=? m')); lia.
Qed.

(** The clock part is not earlier than [now] when the chosen day is
    today or a later day. *)
Lemma nextClock_ge (t : trigger.t) (now : Time) (y m d : Z) (s : step) :
  wfTrigger t -> 1 <= m <= 12 ->
  (y = Year now /\ m = Month now /\ d = Day now) \/ days now < daysOf y m d ->
  nextClock t now y m d = Ok s ->
  match s with
  | Found r => wall now <= wall r /\ nsec r = 0
  | Carry c => wall now < wall c /\ nsec c = 0
  end.
Proof.
  intros (Hs & Hmi & Hh & _) Hm Hday H.
  pose proof (Time_date now) as (_ & _ & Hhr & Hmr & Hsr & Hdays & Hwall).
  unfold nextClock in H.
  set (same := (y =? Year now) && (m =? Month now) && (d =? Day now)) in *.
  assert (Hsame : if same then daysOf y m d = days now else days now < daysOf y m d).
  { unfold same. destruct Hday as [(-> & -> & ->) | Hlt].
    - rewrite !Z.eqb_refl. cbn. congruence.
    - destruct (_ && _) eqn:E; [|exact Hlt]. exfalso.
      assert (y = Year now /\ m = Month now /\ d = Day now) as (-> & -> & ->) by lia. lia. }
  clearbody same.
  match type of H with context [fieldNextValue (trigger.hour t) ?n] =>
    destruct (fieldNextValue_wf 0 59 _ n Hh) as (v1 & b1 & E1 & R1 & T1 & F1) end.
  rewrite E1 in H. cbn [mbind res_bind] in H.
  destruct b1; cbn [negb] in H.
  2:{ injection H as <-.
      destruct (Add_wall (Date y m d v1 0 0 0) (24 * Hour_) (Date_nsec _ _ _ _ _ _)
                  ltac:(auto)) as [-> ->].
      rewrite Date_wall0 by exact Hm. split; [|reflexivity].
      unfold Hour_, Minute_, Second_. destruct same; lia. }
  specialize (T1 eq_refl).
  match type of H with context [fieldNextValue (trigger.min t) ?n] =>
    destruct (fieldNextValue_wf 0 59 _ n Hmi) as (v2 & b2 & E2 & R2 & T2 & F2) end.
  rewrite E2 in H. cbn [mbind res_bind] in H.
  destruct b2; cbn [negb] in H.
  2:{ injection H as <-.
      destruct (Add_wall (Date y m d v1 v2 0 0) Hour_ (Date_nsec _ _ _ _ _ _)
                  ltac:(auto)) as [-> ->].
      rewrite Date_wall0 by exact Hm. split; [|reflexivity].
      unfold Hour_, Minute_, Second_. specialize (F2 eq_refl).
      destruct same; cbn [negb andb] in *; [|lia].
      destruct (v1 =? Hour now) eqn:Ev; cbn [negb] in *; lia. }
  specialize (T2 eq_refl).
  match type of H with context [fieldNextValue (trigger.sec t) ?n] =>
    destruct (fieldNextValue_wf 0 59 _ n Hs) as (v3 & b3 & E3 & R3 & T3 & F3) end.
  rewrite E3 in H. cbn [mbind res_bind] in H.
  destruct b3; cbn [negb] in H; injection H as <-.
  - specialize (T3 eq_refl). rewrite Date_wall0 by exact Hm. split; [|apply Date_nsec].
    destruct same; cbn [negb andb] in *; [|lia].
    destruct (v1 =? Hour now) eqn:Ev; cbn [negb andb] in *; [|lia].
    destruct (v2 =? Minute now) eqn:Ev2; cbn [negb] in *; lia.
  - destruct (Add_wall (Date y m d v1 v2 v3 0) Minute_ (Date_nsec _ _ _ _ _ _)
                ltac:(auto)) as [-> ->].
    rewrite Date_wall0 by exact Hm. split; [|reflexivity].
    unfold Hour_, Minute_, Second_. specialize (F3 eq_refl).
    destruct same; cbn [negb andb] in *; [|lia].
    destruct (v1 =? Hour now) eqn:Ev; cbn [negb andb] in *; [|lia].
    destruct (v2 =? Minute now) eqn:Ev2; cbn [negb] in *; lia.
Qed.

Lemma Date_month13 y d h mi s ns :
  Date y 13 d h mi s ns = Date (y + 1) 1 d h mi s ns.
Proof.
  unfold Date, norm.
  change ((13 - 1) / 12) with 1. change ((13 - 1) mod 12) with 0.
  change ((1 - 1) / 12) with 0. change ((1 - 1) mod 12) with 0.
  replace (y + 1 + 0) with (y + 1) by lia. reflexivity.
Qed.

Lemma Date_month_succ y m :
  1 <= m <= 12 ->
  wall (AddDate (Date y m 1 0 0 0 0) 0 1 0) =
    (daysOf y m (daysIn y m) + 1) * 86400 /\
  nsec (AddDate (Date y m 1 0 0 0 0) 0 1 0) = 0.
Proof.
  intros Hm. pose proof (daysIn_bounds y m Hm).
  unfold AddDate.
  destruct (Date_fields y m 1 0 0 0 0) as (-> & -> & -> & -> & -> & -> & ->); try lia.
  rewrite !Z.add_0_r. split; [|apply Date_nsec].
  destruct (Date_next_month y m Hm) as (Heq & Hm' & _).
  pose proof (daysOf_nextMonth y m Hm) as Hn. unfold nextMonthOf in *.
  destruct (m =? 12) eqn:E; cbn [fst snd] in *.
  - assert (m = 12) as -> by lia. change (12 + 1) with 13.
    rewrite Date_month13, Date_wall0 by lia. lia.
  - rewrite Date_wall0 by lia. lia.
Qed.

Lemma dayMissing_false (t : trigger.t) (now : Time) (m w : Z) :
  dayMissing t now = false ->
  fieldNextValue (trigger.mon t) (Month now) = Ok (m, true) ->
  selectedCalc t = None ->
  fieldNextValue (trigger.week t) (if negb (m =? Month now) then 0 else Weekday now) =
    Ok (w, true) ->
  dayNextValue (trigger.day t) (Year now) m
    (if negb (m =? Month now) then 1 else Day now) w <> 0.
Proof.
  intros Hdm Hm Hsel Hw. unfold dayMissing in Hdm. rewrite Hm, Hsel in Hdm.
  cbv zeta in Hdm. rewrite Z.eqb_refl in Hdm. cbn [andb] in Hdm. rewrite Hw in Hdm.
  apply Z.eqb_neq. exact Hdm.
Qed.

Lemma notBefore_day (now : Time) (m d : Z) :
  1 <= m <= 12 -> Month now <= m ->
  (if negb (m =? Month now) then 1 else Day now) <= d ->
  notBefore now (Year now) m d.
Proof.
  intros Hm Hle Hd. pose proof (Time_date now) as (Hmr & Hdr & _ & _ & _ & Hdays & _).
  unfold notBefore. destruct (Z.eq_dec m (Month now)) as [-> | Hne].
  - rewrite Z.eqb_refl in Hd. cbn [negb] in Hd.
    destruct (Z.eq_dec d (Day now)) as [-> | Hne]; [left; auto|]. right.
    pose proof (daysOf_diff (Year now) (Month now) (Day now) d). lia.
  - replace (m =? Month now) with false in Hd by lia. cbn [negb] in Hd. right.
    pose proof (daysOf_month_lt (Year now) (Month now) (Day now) m 1).
    pose proof (daysOf_diff (Year now) m 1 d). lia.
Qed.

Lemma notBefore_calc (now : Time) (m d : Z) :
  1 <= m <= 12 -> Month now <= m -> 1 <= d -> validTime now ->
  Before (Date (Year now) m d (Hour now) (Minute now) (Second now) (Nanosecond now)) now
    = false ->
  notBefore now (Year now) m d.
Proof.
  intros Hm Hle Hd Hv Hb.
  pose proof (Time_date now) as (Hmr & Hdr & Hhr & Hmir & Hsr & Hdays & Hwall).
  apply Before_false in Hb.
  destruct (Date_wall (Year now) m d (Hour now) (Minute now) (Second now) (Nanosecond now)
              Hm Hv) as [Ew En].
  rewrite Ew, En in Hb. unfold notBefore.
  destruct (Z.eq_dec m (Month now)) as [-> | Hne].
  - destruct (Z.eq_dec d (Day now)) as [-> | Hne']; [left; auto|]. right.
    pose proof (daysOf_diff (Year now) (Month now) (Day now) d). lia.
  - right. pose proof (daysOf_month_lt (Year now) (Month now) (Day now) m d). lia.
Qed.

Lemma monthCarry_later (now : Time) (m : Z) :
  1 <= m <= 12 -> Month now <= m ->
  wall now < wall (AddDate (Date (Year now) m 1 0 0 0 0) 0 1 0) /\
  nsec (AddDate (Date (Year now) m 1 0 0 0 0) 0 1 0) = 0.
Proof.
  intros Hm Hle.
  pose proof (Time_date now) as (Hmr & Hdr & Hhr & Hmir & Hsr & Hdays & Hwall).
  destruct (Date_month_succ (Year now) m Hm) as [-> ->]. split; [|reflexivity].
  destruct (Z.eq_dec m (Month now)) as [-> | Hne].
  - pose proof (daysOf_diff (Year now) (Month now) (Day now) (daysIn (Year now) (Month now))).
    lia.
  - pose proof (daysOf_month_lt (Year now) (Month now) (Day now) m (daysIn (Year now) m)).
    pose proof (daysIn_bounds (Year now) m Hm). lia.
Qed.

Lemma yearCarry_later (now : Time) (m : Z) :
  1 <= m <= 12 ->
  wall now < wall (Date (Year now + 1) m 1 0 0 0 0) /\
  nsec (Date (Year now + 1) m 1 0 0 0 0) = 0.
Proof.
  intros Hm.
  pose proof (Time_date now) as (Hmr & Hdr & Hhr & Hmir & Hsr & Hdays & Hwall).
  rewrite Date_wall0 by exact Hm. split; [|apply Date_nsec].
  pose proof (daysOf_year_lt (Year now) (Month now) (Day now) m 1). lia.
Qed.

Lemma weekCarry_later (now r : Time) (w : Z) :
  0 <= w < Weekday now ->
  getMonthAfterLatestWeek (Year now) (Month now) (Day now) w = Ok r ->
  wall now < wall r /\ nsec r = 0.
Proof.
  intros Hw Hr.
  pose proof (Time_date now) as (Hmr & Hdr & Hhr & Hmir & Hsr & Hdays & Hwall).
  pose proof (Weekday_range now) as Hwr.
  destruct (getMonthAfterLatestWeek_spec (Year now) (Month now) (Day now) w Hmr ltac:(lia))
    as (r' & Hr' & [Hn Hwl] & _ & Hrange & Hstrict).
  assert (r' = r) as -> by congruence.
  split; [|exact Hn]. rewrite Hwl.
  assert (days now < days r); [|lia]. rewrite Hdays. apply Hstrict.
  rewrite Date_Weekday by exact Hmr. rewrite <- Hdays. rewrite <- Weekday_days. lia.
Qed.

Lemma nextClock_notBefore (t : trigger.t) (now : Time) (y m d : Z) (s : step) :
  wfTrigger t -> 1 <= m <= 12 -> notBefore now y m d ->
  nextClock t now y m d = Ok s ->
  match s with
  | Found r => wall now <= wall r /\ nsec r = 0
  | Carry c => wall now < wall c /\ nsec c = 0
  end.
Proof. intros Hwf Hm Hnb H. exact (nextClock_ge t now y m d s Hwf Hm Hnb H). Qed.

Lemma nextPlainDay_ge (t : trigger.t) (now : Time) (m : Z) (s : step) :
  wfTrigger t -> selectedCalc t = None -> 1 <= m <= 12 -> Month now <= m ->
  (forall w,
     fieldNextValue (trigger.week t) (if negb (m =? Month now) then 0 else Weekday now) =
       Ok (w, true) ->
     dayNextValue (trigger.day t) (Year now) m
       (if negb (m =? Month now) then 1 else Day now) w <> 0) ->
  nextPlainDay t now (Year now) m = Ok s ->
  match s with
  | Found r => wall now <= wall r /\ nsec r = 0
  | Carry c => wall now < wall c /\ nsec c = 0
  end.
Proof.
  intros Hwf Hsel Hm Hle Hfound H.
  assert (Hw : wfField 0 6 (trigger.week t)).
  { destruct Hwf as (_ & _ & _ & _ & Hc). rewrite Hsel in Hc. apply Hc. }
  rewrite nextPlainDay_unfold in H. cbv zeta in H.
  rewrite Z.eqb_refl in H. cbn [andb] in H.
  destruct (fieldNextValue_wf 0 6 _ (if negb (m =? Month now) then 0 else Weekday now) Hw)
    as (w & bw & Ew & Rw & Tw & Fw).
  rewrite Ew in H. cbn [mbind res_bind] in H.
  destruct (negb bw) eqn:Eb;
    [apply negb_true_iff in Eb | apply negb_false_iff in Eb]; subst bw.
  - specialize (Fw eq_refl). apply bind_Ok in H. destruct H as (r & Hr & [= <-]).
    destruct (Z.eq_dec m (Month now)) as [-> | Hne].
    + rewrite Z.eqb_refl in Hr, Fw. cbn [negb] in Hr, Fw.
      apply (weekCarry_later now r w); [lia | exact Hr].
    + exfalso. replace (m =? Month now) with false in Fw by lia. cbn [negb] in Fw. lia.
  - specialize (Hfound w Ew).
    pose proof (dayNextValue_spec (trigger.day t) (Year now) m
                  (if negb (m =? Month now) then 1 else Day now) w) as Hspec.
    cbv zeta in Hspec. destruct Hspec as [(_ & Hge & _) | [H0 _]]; [|contradiction].
    eapply nextClock_notBefore; [exact Hwf | exact Hm | | exact H].
    apply notBefore_day; assumption.
Qed.

Lemma nextStep_ge (t t' : trigger.t) (now : Time) (s : step) :
  wfTrigger t -> validTime now -> dayMissing t now = false ->
  nextStep t now = Ok (s, t') ->
  match s with
  | Found r => wall now <= wall r /\ nsec r = 0
  | Carry c => wall now < wall c /\ nsec c = 0
  end.
Proof.
  intros Hwf Hv Hdm H.
  assert (Hmo : wfField 1 12 (trigger.mon t)) by apply Hwf.
  destruct (fieldNextValue_wf 1 12 _ (Month now) Hmo) as (m & b & Hm & Hmb & Tm & _).
  destruct b.
  2:{ rewrite (nextStep_year t now m Hm) in H. injection H as <- <-.
      apply yearCarry_later. exact Hmb. }
  specialize (Tm eq_refl).
  destruct (selectedCalc t) as [c|] eqn:Hsel.
  - clear Hdm.
    destruct (calculate_total t c (Year now) m Hwf Hsel Hmb)
      as (b & t1 & Hcalc & Hwf1 & _ & Hday).
    rewrite (nextStep_calc t t1 now m c b Hm Hsel Hcalc) in H. cbv zeta in H.
    destruct (negb b || _) eqn:Eb.
    + injection H as <- <-. apply monthCarry_later; assumption.
    + apply orb_false_iff in Eb. destruct Eb as [Eb Ebef].
      assert (b = true) as -> by (destruct b; [reflexivity | discriminate]).
      specialize (Hday eq_refl). apply bind_Ok in H. destruct H as (s' & Hclock & [= <- <-]).
      eapply nextClock_notBefore; [exact Hwf1 | exact Hmb | | exact Hclock].
      apply notBefore_calc; assumption.
  - rewrite (nextStep_plain t now m Hm Hsel) in H. apply bind_Ok in H.
    destruct H as (s' & H & [= <- <-]).
    apply (nextPlainDay_ge t now m s' Hwf Hsel Hmb Tm); [|exact H].
    intros w Ew. exact (dayMissing_false t now m w Hdm Hm Hsel Ew).
Qed.

Lemma nextStep_wf (t t' : trigger.t) (now : Time) (s : step) :
  wfTrigger t -> nextStep t now = Ok (s, t') -> wfTrigger t'.
Proof.
  intros Hwf H. destruct (nextStep_total t now Hwf) as (s0 & t0 & E & Hwf').
  rewrite E in H. injection H as <- <-. exact Hwf'.
Qed.

Lemma nextFrom_ge (fuel : nat) (t t' : trigger.t) (now r : Time) (deeps : list Z) :
  wfTrigger t -> validTime now ->
  nextFrom fuel t now deeps = Ok (r, t') ->
  allDaysFound (activations fuel t now deeps) = true ->
  wfTrigger t' /\ (r = time.zero \/ (wall now <= wall r /\ nsec r = 0)).
Proof.
  revert t now deeps. induction fuel as [|fuel IH]; intros t now deeps Hwf Hv H Hall;
    [discriminate|].
  cbn [nextFrom activations] in H, Hall.
  destruct (_ && _); [injection H as <- <-; auto|].
  unfold allDaysFound in Hall. cbn [forallb] in Hall. apply andb_true_iff in Hall.
  destruct Hall as [Hfound Hall]. apply negb_true_iff in Hfound. cbn [fst snd] in Hfound.
  fold (allDaysFound (match nextStep t now with
                      | Ok (Carry now', t') =>
                          activations fuel t' now'
                            [((match deeps with d :: _ => d | [] => 0 end) + 1) mod 256]
                      | _ => []
                      end)) in Hall.
  apply bind_Ok in H. destruct H as ([s t1] & Hstep & H). rewrite Hstep in Hall.
  pose proof (nextStep_wf t t1 now s Hwf Hstep) as Hwf1.
  pose proof (nextStep_ge t t1 now s Hwf Hv Hfound Hstep) as Hge.
  destruct s as [r1 | now1].
  - injection H as <- <-. split; [exact Hwf1 | right; exact Hge].
  - destruct Hge as [Hlt Hn].
    destruct (IH t1 now1 _ Hwf1 ltac:(unfold validTime; lia) H Hall) as [Hwf' [-> | [Hle Hr]]].
    + auto.
    + split; [exact Hwf'|]. right. split; [lia | exact Hr].
Qed.

Lemma nextFrom_nsec (fuel : nat) (t t' : trigger.t) (now r : Time) (deeps : list Z) :
  nextFrom fuel t now deeps = Ok (r, t') -> nsec r = 0.
Proof.
  revert t now deeps. induction fuel as [|fuel IH]; intros t now deeps H; [discriminate|].
  cbn [nextFrom] in H. destruct (_ && _); [injection H as <- <-; reflexivity|].
  apply bind_Ok in H. destruct H as ([s t1] & Hstep & H).
  destruct s as [r1 | now1]; [|eapply IH; exact H].
  injection H as <- <-. unfold nextStep in Hstep.
  apply bind_Ok in Hstep. destruct Hstep as ([m b] & _ & Hstep).
  destruct (negb b); [discriminate|].
  destruct (_ || _).
  - apply bind_Ok in Hstep. destruct Hstep as ([b' t2] & _ & Hstep).
    destruct (_ || _); [discriminate|].
    apply bind_Ok in Hstep. destruct Hstep as (s & Hc & [= -> ->]).
    apply nextClock_day in Hc. destruct Hc as (h & mi & sec & ->). apply Date_nsec.
  - apply bind_Ok in Hstep. destruct Hstep as (s & Hp & [= -> ->]).
    rewrite nextPlainDay_unfold in Hp. cbv zeta in Hp.
    apply bind_Ok in Hp. destruct Hp as ([w bw] & _ & Hp).
    destruct (negb bw).
    + apply bind_Ok in Hp. destruct Hp as (? & _ & [=]).
    + apply nextClock_day in Hp. destruct Hp as (h & mi & sec & ->). apply Date_nsec.
Qed.

Lemma next_wf (t t' : trigger.t) (now r : Time) :
  wfTrigger t -> next t now = Ok (r, t') -> wfTrigger t' /\ nsec r = 0.
Proof.
  intros Hwf H. split; [|eapply nextFrom_nsec; exact H].
  destruct (next_total t now Hwf) as (r0 & t0 & E & Hwf').
  rewrite E in H. injection H as <- <-. exact Hwf'.
Qed.

(** C1, as the code has it with [time.Local] the zone of offset zero
    (UTC, no daylight saving): for an expression that parses and a
    well-formed instant [now], when [next] returns and the day search of
    no activation came back empty, the result is the zero time or a whole
    second not earlier than the second of [now]; so it is not before a
    [now] without nanoseconds. *)
Theorem next_not_before_second (cron : string) (t t' : trigger.t) (now r : Time) :
  parse cron = Ok t -> validTime now ->
  next t now = Ok (r, t') ->
  allDaysFound (activations (Z.to_nat (maxDeep + 2)) t now []) = true ->
  (r = time.zero \/ (wall now <= wall r /\ nsec r = 0)) /\
  (nsec now = 0 -> r = time.zero \/ Before r now = false).
Proof.
  intros Hp Hv H Hall. apply parse_wf in Hp.
  destruct (nextFrom_ge _ t t' now r [] Hp Hv H Hall) as [_ Hr].
  split; [exact Hr|]. intros Hn. destruct Hr as [-> | [Hle Hr]]; [auto|].
  right. apply Before_false. lia.
Qed.

Lemma next_not_before_second_witness :
  (Date 2024 2 10 12 0 0 0 = time.zero \/
   (wall halfPastNoon <= wall (Date 2024 2 10 12 0 0 0) /\
    nsec (Date 2024 2 10 12 0 0 0) = 0)) /\
  (nsec halfPastNoon = 0 ->
   Date 2024 2 10 12 0 0 0 = time.zero \/ Before (Date 2024 2 10 12 0 0 0) halfPastNoon = false).
Proof.
  apply (next_not_before_second "* * * * * ?" everySecondTrigger everySecondTrigger
           halfPastNoon (Date 2024 2 10 12 0 0 0)).
  - vm_compute. reflexivity.
  - unfold validTime, halfPastNoon. cbn [nsec]. lia.
  - vm_compute. reflexivity.
  - vm_compute. reflexivity.
Defined.

(** The claim of C1 fails at half a second past noon: ["* * * * * ?"]
    resolves to noon sharp, which is before the instant asked about and
    is not the zero time. *)
Lemma next_before_now_counterexample :
  parse "* * * * * ?" = Ok everySecondTrigger /\
  next everySecondTrigger halfPastNoon = Ok (Date 2024 2 10 12 0 0 0, everySecondTrigger) /\
  Before (Date 2024 2 10 12 0 0 0) halfPastNoon = true /\
  Date 2024 2 10 12 0 0 0 <> time.zero.
Proof.
  split; [vm_compute; reflexivity|]. split; [vm_compute; reflexivity|].
  split; [vm_compute; reflexivity|]. vm_compute. discriminate.
Qed.

(** C2, as the code has it with [time.Local] the zone of offset zero
    (UTC, no daylight saving): when [next] has returned [r] for a trigger
    of the package, calling it again on [r] plus one second returns, and
    the result is the zero time or, when the day search of no activation
    of that second call came back empty, an instant strictly after [r]. *)
Theorem next_again_later (t t1 : trigger.t) (now r : Time) :
  wfTrigger t -> next t now = Ok (r, t1) ->
  (exists r2 t2, next t1 (Add r Second_) = Ok (r2, t2)) /\
  (forall r2 t2,
     next t1 (Add r Second_) = Ok (r2, t2) ->
     allDaysFound (activations (Z.to_nat (maxDeep + 2)) t1 (Add r Second_) []) = true ->
     r2 = time.zero \/ Before r r2 = true).
Proof.
  intros Hwf H. destruct (next_wf t t1 now r Hwf H) as [Hwf1 Hn].
  split.
  - destruct (next_total t1 (Add r Second_) Hwf1) as (r2 & t2 & E & _). eauto.
  - intros r2 t2 H2 Hall.
    destruct (Add_wall r Second_ Hn ltac:(auto)) as [Hw Hn'].
    assert (Hv : validTime (Add r Second_)) by (unfold validTime; lia).
    destruct (nextFrom_ge _ t1 t2 _ r2 [] Hwf1 Hv H2 Hall) as [_ [-> | [Hle Hr]]]; [auto|].
    right. unfold Before. rewrite Hw in Hle. change (Second_ / 1000000000) with 1 in Hle.
    lia.
Qed.

Lemma next_again_later_witness :
  (exists r2 t2, next everySecondTrigger (Add (Date 2024 2 10 12 0 0 0) Second_) = Ok (r2, t2)) /\
  (forall r2 t2,
     next everySecondTrigger (Add (Date 2024 2 10 12 0 0 0) Second_) = Ok (r2, t2) ->
     allDaysFound (activations (Z.to_nat (maxDeep + 2)) everySecondTrigger
                     (Add (Date 2024 2 10 12 0 0 0) Second_) []) = true ->
     r2 = time.zero \/ Before (Date 2024 2 10 12 0 0 0) r2 = true).
Proof.
  apply (next_again_later everySecondTrigger everySecondTrigger halfPastNoon
           (Date 2024 2 10 12 0 0 0)).
  - apply (parse_wf "* * * * * ?"). reflexivity.
  - vm_compute. reflexivity.
Defined.

(** The claim of C2 fails for ["0 0 0 30W 2 ?"]: from 2025-02-01 it
    resolves to 2025-02-28 00:00:00, and fed that instant plus one second
    it runs out of depth (no February of the next years qualifies) and
    returns the zero time. *)
Lemma next_again_sentinel_counterexample :
  parse "0 0 0 30W 2 ?" = Ok feb30Trigger /\
  next feb30Trigger (Date 2025 2 1 0 0 0 0) =
    Ok (Date 2025 2 28 0 0 0 0, feb30TriggerAt 28) /\
  Date 2025 2 28 0 0 0 0 <> time.zero /\
  next (feb30TriggerAt 28) (Add (Date 2025 2 28 0 0 0 0) Second_) =
    Ok (time.zero, feb30TriggerAt 28).
Proof. repeat split; try (vm_compute; reflexivity). discriminate. Qed.

(** ** The cached fire time of a job *)

Lemma job_next_spec (j j' : job.t) (t r : Time) :
  job.next j t = Ok (r, j') ->
  job.nextTime j' = Some r /\
  ((job.nextTime j = Some r /\ After r t = true /\ j' = j) \/
   ((forall c, job.nextTime j = Some c -> After c t = false) /\
    exists tr', next (job.tr j) t = Ok (r, tr') /\
                j' = job.mk (job.id j) tr' (job.fun_ j) (Some r) (job.running j))).
Proof.
  unfold job.next. intros H.
  assert (Hre : forall (H' : ('(nt, tr') ← next (job.tr j) t;
                     Ok (nt, job.mk (job.id j) tr' (job.fun_ j) (Some nt) (job.running j)))
                    = Ok (r, j')),
            job.nextTime j' = Some r /\
            exists tr', next (job.tr j) t = Ok (r, tr') /\
                        j' = job.mk (job.id j) tr' (job.fun_ j) (Some r) (job.running j)).
  { intros H'. apply bind_Ok in H'. destruct H' as ([nt tr'] & E & [= <- <-]).
    split; [reflexivity | eauto]. }
  destruct (job.nextTime j) as [c|] eqn:Ec.
  - destruct (After c t) eqn:Ea.
    + injection H as <- <-. rewrite Ec. split; [reflexivity|]. left. auto.
    + destruct (Hre H) as [H1 H2]. split; [exact H1|]. right. split; [|exact H2].
      intros c' [= <-]. exact Ea.
  - destruct (Hre H) as [H1 H2]. split; [exact H1|]. right. split; [|exact H2].
    intros c' [=].
Qed.

Lemma job_next_wf (j j' : job.t) (t r : Time) :
  wfJob j -> job.next j t = Ok (r, j') -> wfJob j' /\ nsec r = 0.
Proof.
  intros [Hwf Hc] H. apply job_next_spec in H.
  destruct H as [Hr [(Hold & _ & ->) | (_ & tr' & Hn & ->)]].
  - split; [split; assumption | apply Hc; exact Hold].
  - destruct (next_wf _ _ _ _ Hwf Hn) as [Hwf' Hns].
    split; [|exact Hns]. split; [exact Hwf'|]. cbn. intros c [= <-]. exact Hns.
Qed.

Lemma newJob_wf (cronExpression : string) (f : func) (now : Time) (j : job.t) :
  newJob cronExpression f now = Ok j -> wfJob j /\ exists c, job.nextTime j = Some c.
Proof.
  unfold newJob, newTrigger. intros H.
  apply bind_Ok in H. destruct H as (tr & Hp & H).
  apply bind_Ok in H. destruct H as ([nt tr'] & Hn & [= <-]).
  destruct (next_wf _ _ _ _ (parse_wf _ _ Hp) Hn) as [Hwf Hns].
  split; [|cbn; eauto]. split; [exact Hwf|]. cbn. intros c [= <-]. exact Hns.
Qed.

(** One call does not move the cached time back, on the cached path or
    when the recomputed instant is clean. *)
Lemma job_next_monotone (j j' : job.t) (t r c : Time) :
  wfJob j -> validTime t -> job.nextTime j = Some c ->
  job.next j t = Ok (r, j') ->
  job.nextTime j = Some r \/
  (r <> time.zero /\
   allDaysFound (activations (Z.to_nat (maxDeep + 2)) (job.tr j) t []) = true) ->
  After c r = false.
Proof.
  intros [Hwf Hc] Hv Ec H Hclean. pose proof (Hc c Ec) as Hcn.
  apply job_next_spec in H. destruct H as [_ [(Hold & _ & _) | (Hna & tr' & Hn & _)]].
  - assert (r = c) as -> by congruence. apply After_false. lia.
  - destruct Hclean as [Hold | [Hnz Hall]].
    + assert (r = c) as -> by congruence. apply After_false. lia.
    + destruct (nextFrom_ge _ _ _ _ _ [] Hwf Hv Hn Hall) as [_ [-> | [Hle Hr]]];
        [congruence|].
      specialize (Hna c Ec). apply After_false in Hna. apply After_false. lia.
Qed.

Lemma nextAll_nondecreasing (j j' : job.t) (ts rs : list Time) (c : Time) :
  wfJob j -> Forall validTime ts -> job.nextTime j = Some c ->
  nextAll j ts = Ok (rs, j') -> cleanRun j ts -> nondecreasing c rs.
Proof.
  revert j c rs. induction ts as [|t ts IH]; intros j c rs Hwf Hv Ec Hall Hclean;
    cbn [nextAll] in Hall.
  - injection Hall as <- <-. exact I.
  - apply Forall_cons in Hv. destruct Hv as [Hvt Hv].
    apply bind_Ok in Hall. destruct Hall as ([r j1] & Hn & Hall).
    apply bind_Ok in Hall. destruct Hall as ([rs' j2] & Hrest & [= <- <-]).
    cbn [cleanRun] in Hclean. rewrite Hn in Hclean. destruct Hclean as [Hc1 Hclean].
    cbn [nondecreasing]. split.
    + exact (job_next_monotone j j1 t r c Hwf Hvt Ec Hn Hc1).
    + destruct (job_next_wf j j1 t r Hwf Hn) as [Hwf1 _].
      apply (IH j1 r rs' Hwf1 Hv); [|exact Hrest | exact Hclean].
      apply job_next_spec in Hn. apply Hn.
Qed.

Lemma job_next_total (j : job.t) (t : Time) :
  wfJob j -> exists r j1, job.next j t = Ok (r, j1).
Proof.
  intros [Hwf _]. unfold job.next.
  destruct (next_total (job.tr j) t Hwf) as (r & tr' & E & _). rewrite E.
  cbn [mbind res_bind]. destruct (job.nextTime j) as [c|]; [|eauto].
  destruct (After c t); eauto.
Qed.

(** C8, as the code has it with [time.Local] the zone of offset zero
    (UTC, no daylight saving): [j.next(t)] returns; it returns the cached
    fire time unchanged when that is set and strictly after [t], and
    otherwise (the cache is nil or not after [t]) stores and returns what
    the trigger's resolver computes for [t]; across any sequence of calls
    in which every recomputation is clean (not the zero time, no empty
    day search), the cached fire time never moves back, from the cache
    the job starts with when it has one. *)
Theorem job_next_memoized (j j' : job.t) (ts : list Time) (rs : list Time) :
  wfJob j -> Forall validTime ts ->
  nextAll j ts = Ok (rs, j') -> cleanRun j ts ->
  nondecreasingFrom (job.nextTime j) rs /\
  (forall t, exists r j1, job.next j t = Ok (r, j1)) /\
  (forall t r j1, job.next j t = Ok (r, j1) ->
     job.nextTime j1 = Some r /\
     match job.nextTime j with
     | Some c =>
         (After c t = true -> r = c /\ j1 = j) /\
         (After c t = false ->
          exists tr', next (job.tr j) t = Ok (r, tr') /\
                      j1 = job.mk (job.id j) tr' (job.fun_ j) (Some r) (job.running j))
     | None =>
         exists tr', next (job.tr j) t = Ok (r, tr') /\
                     j1 = job.mk (job.id j) tr' (job.fun_ j) (Some r) (job.running j)
     end).
Proof.
  intros Hwf Hv Hall Hclean. split; [|split].
  - destruct (job.nextTime j) as [c|] eqn:Ec; cbn [nondecreasingFrom].
    + exact (nextAll_nondecreasing j j' ts rs c Hwf Hv Ec Hall Hclean).
    + destruct ts as [|t ts]; cbn [nextAll] in Hall.
      * injection Hall as <- <-. exact I.
      * apply Forall_cons in Hv. destruct Hv as [Hvt Hv].
        apply bind_Ok in Hall. destruct Hall as ([r j1] & Hn & Hall).
        apply bind_Ok in Hall. destruct Hall as ([rs' j2] & Hrest & [= <- <-]).
        cbn [cleanRun] in Hclean. rewrite Hn in Hclean. destruct Hclean as [_ Hclean].
        destruct (job_next_wf j j1 t r Hwf Hn) as [Hwf1 _].
        apply (nextAll_nondecreasing j1 j2 ts rs' r Hwf1 Hv); [|exact Hrest | exact Hclean].
        apply job_next_spec in Hn. apply Hn.
  - intros t. exact (job_next_total j t Hwf).
  - intros t r j1 Hn. apply job_next_spec in Hn.
    destruct Hn as [Hr [(Hold & Ha & ->) | (Hna & tr' & Hn & ->)]].
    + rewrite Hold. split; [reflexivity|]. split; [auto|].
      intros Hf. congruence.
    + split; [reflexivity|]. destruct (job.nextTime j) as [c|]; [|eauto].
      split; [|eauto]. intros Ha. rewrite (Hna c eq_refl) in Ha. discriminate.
Qed.

(** ** Evaluations *)

(** What [next] does with the day search of ["0 0 0 1 * ?"] on Saturday
    2024-02-10 at noon: no first of the month is left in February, the
    search returns 0 and the fire time is midnight of January 31. *)
Example next_first_of_month :
  parse "0 0 0 1 * ?" = Ok firstOfMonthTrigger /\
  next firstOfMonthTrigger (Date 2024 2 10 12 0 0 0) =
    Ok (Date 2024 1 31 0 0 0 0, firstOfMonthTrigger) /\
  Date 2024 2 0 0 0 0 0 = Date 2024 1 31 0 0 0 0 /\
  Before (Date 2024 1 31 0 0 0 0) (Date 2024 2 10 12 0 0 0) = true /\
  dayMissing firstOfMonthTrigger (Date 2024 2 10 12 0 0 0) = true.
Proof. repeat split; vm_compute; reflexivity. Qed.

(** C4 does not hold of the code: tokens with a component that is not a
    number, or with a value outside the field's domain, are accepted.
    ["a-5"] as seconds parses as the range 0-5, ["0,x"] as the list 0,0,
    ["xW"] as day-of-month as the nearest-weekday rule for day 0, ["32W"]
    as that rule for day 32, and ["30"] as the hour 30. *)
Theorem parse_accepts_invalid_tokens :
  (t ← parse "a-5 * * * * ?"; Ok (trigger.sec t)) = Ok (rangeField secField 0 5) /\
  (t ← parse "0,x * * * * ?"; Ok (field.values (trigger.sec t))) = Ok [0; 0] /\
  (t ← parse "0 0 0 xW * ?"; Ok (trigger.day t)) = Ok (calcField dayField (calcDayW 0)) /\
  (t ← parse "0 0 0 32W * ?"; Ok (trigger.day t)) = Ok (calcField dayField (calcDayW 32)) /\
  (t ← parse "0 0 30 * * ?"; Ok (trigger.hour t)) = Ok (rangeField hourField 30 30).
Proof. repeat split; vm_compute; reflexivity. Qed.

(** ** Witnesses *)


Lemma last_day_of_february_witness :
  next lastDayTrigger (Date 2024 2 10 12 0 0 0) =
    Ok (Date 2024 2 29 23 0 0 0, lastDayTriggerAt 29).
Proof.
  destruct (last_day_of_february (Date 2024 2 10 12 0 0 0)) as (_ & _ & H & _).
  - vm_compute. reflexivity.
  - unfold nsec, Date, norm. cbn. lia.
  - vm_compute. reflexivity.
  - exact H.
Defined.

Lemma next_terminates_witness :
  exists r t', next feb30Trigger (Date 2025 2 28 0 0 1 0) = Ok (r, t') /\ wfTrigger t'.
Proof.
  destruct (next_terminates feb30Trigger (Date 2025 2 28 0 0 1 0)) as (H & _).
  - apply (parse_wf "0 0 0 30W 2 ?"). reflexivity.
  - exact H.
Defined.

Lemma AddJob_Remove_keep_map_and_slice_witness :
  consistent Scheduler.New /\
  (forall cronExpression f now i err c',
     Scheduler.id Scheduler.New + 1 < 2 ^ 64 ->
     Scheduler.AddJob Scheduler.New cronExpression f now = Ok (i, err, c') ->
     schedInv c' /\ consistent c') /\
  (forall i c', Scheduler.Remove Scheduler.New i = Ok c' -> schedInv c' /\ consistent c').
Proof. apply (AddJob_Remove_keep_map_and_slice Scheduler.New). exact schedInv_New. Defined.

Lemma job_next_memoized_witness :
  nondecreasingFrom (job.nextTime noonJob)
    [Date 2024 2 10 12 0 0 0; Date 2024 2 10 12 0 1 0].
Proof.
  destruct (job_next_memoized noonJob
              (job.mk 1 everySecondTrigger (mkFunc 0) (Some (Date 2024 2 10 12 0 1 0)) false)
              [Date 2024 2 10 11 59 59 0; Date 2024 2 10 12 0 1 0]
              [Date 2024 2 10 12 0 0 0; Date 2024 2 10 12 0 1 0]) as [H _].
  - split; [apply (parse_wf "* * * * * ?"); reflexivity|].
    intros c [= <-]. reflexivity.
  - repeat constructor; unfold validTime; cbn; lia.
  - vm_compute. reflexivity.
  - cbn [cleanRun].
    change (job.next noonJob (Date 2024 2 10 11 59 59 0))
      with (Ok (Date 2024 2 10 12 0 0 0, noonJob) : res (Time * job.t)).
    split; [left; reflexivity|].
    change (job.next noonJob (Date 2024 2 10 12 0 1 0))
      with (Ok (Date 2024 2 10 12 0 1 0,
                job.mk 1 everySecondTrigger (mkFunc 0) (Some (Date 2024 2 10 12 0 1 0)) false)
            : res (Time * job.t)).
    split; [|exact I]. right. split; [discriminate | vm_compute; reflexivity].
  - exact H.
Defined.

(** The claim of C8 fails for a job on ["0 0 0 30W 2 ?"] created on
    2025-02-01: its cached fire time is 2025-02-28 00:00:00; the call for
    that instant keeps it, and the call for one second later replaces it
    by the zero time, which is earlier. *)
Lemma job_next_not_monotone_counterexample :
  newJob "0 0 0 30W 2 ?" (mkFunc 0) (Date 2025 2 1 0 0 0 0) =
    Ok (job.mk 0 (feb30TriggerAt 28) (mkFunc 0) (Some (Date 2025 2 28 0 0 0 0)) false) /\
  nextAll (job.mk 0 (feb30TriggerAt 28) (mkFunc 0) (Some (Date 2025 2 28 0 0 0 0)) false)
    [Date 2025 2 28 0 0 0 0; Date 2025 2 28 0 0 1 0] =
    Ok ([Date 2025 2 28 0 0 0 0; time.zero],
        job.mk 0 (feb30TriggerAt 28) (mkFunc 0) (Some time.zero) false) /\
  After (Date 2025 2 28 0 0 0 0) (Date 2025 2 28 0 0 1 0) = false /\
  After (Date 2025 2 28 0 0 0 0) time.zero = true.
Proof. repeat split; vm_compute; reflexivity. Qed.

(** ** The parser returns, and what it returns *)

(** X1: [parse] returns on every string: none of its slice indexings
    ([arr[0]], [arr[1]], [arr[3]]) is out of range and the [ranges] table
    is only asked for fields it has; a string that does not split into six
    fields at single spaces is rejected. *)
Theorem parse_never_panics (cron : string) :
  parse cron <> Abort /\
  (List.length (Split cron " ") <> 6%nat -> parse cron = Err errFieldCount).
Proof.
  split; [apply parse_not_abort|]. intros Hlen. unfold parse.
  destruct (List.length (Split cron " ") =? 6)%nat eqn:E; [|reflexivity].
  apply Nat.eqb_eq in E. contradiction.
Qed.

(** X2: in every trigger that [parse] returns, seconds, minutes and hours
    are a range within 0..59 or a non-empty list of values within 0..59,
    the month lies within 1..12 and, unless the day or the week field
    carries a computed rule, the day lies within 1..31 and the weekday
    within 0..6; the expression is kept in the trigger. *)
Theorem parse_fields_in_range (cron : string) (t : trigger.t) :
  parse cron = Ok t -> wfTrigger t /\ trigger.cron t = cron.
Proof.
  intros H. split; [exact (parse_wf cron t H)|].
  unfold parse in H. destruct (negb _); [discriminate|].
  repeat (apply bind_Ok in H; destruct H as (? & _ & H)).
  injection H as <-. reflexivity.
Qed.

Lemma parse_fields_in_range_witness :
  wfTrigger everySecondTrigger /\ trigger.cron everySecondTrigger = "* * * * * ?".
Proof. apply (parse_fields_in_range "* * * * * ?" everySecondTrigger). reflexivity. Defined.

(** ** Calendar helpers *)

(** X3: for a month of the year, [getYearMonthDays] is the number of the
    last day of that month as [time.Date] counts: that day is still in the
    month, the day after is the first of the following month, and the
    answer is 29 exactly for the February of a leap year. *)
Theorem getYearMonthDays_last_day (year month : Z) :
  1 <= month <= 12 ->
  let n := getYearMonthDays year month in
  28 <= n <= 31 /\
  (n = 29 <-> month = 2 /\ leapYear year) /\
  Month (Date year month n 0 0 0 0) = month /\ Day (Date year month n 0 0 0 0) = n /\
  Month (Date year month (n + 1) 0 0 0 0) = (nextMonthOf year month).2 /\
  Day (Date year month (n + 1) 0 0 0 0) = 1.
Proof.
  intros Hm n. assert (En : n = daysIn year month) by (apply getYearMonthDays_daysIn; exact Hm).
  pose proof (daysIn_bounds year month Hm) as Hb.
  split; [lia|]. split.
  - rewrite <- isLeap_true_iff. unfold n. destruct (Z.eq_dec month 2) as [-> | Hne].
    + change (getYearMonthDays year 2) with (if isLeap year then 29 else 28).
      destruct (isLeap year); split; easy.
    + month_cases month; try lia;
        (split; [intros H; discriminate H | intros [H _]; discriminate H]).
  - destruct (Date_fields year month n 0 0 0 0) as (_ & HM & HD & _); try lia.
    rewrite En. destruct (Date_next_month year month Hm) as (-> & Hm' & _).
    pose proof (daysIn_bounds (nextMonthOf year month).1 (nextMonthOf year month).2 Hm').
    destruct (Date_fields (nextMonthOf year month).1 (nextMonthOf year month).2 1 0 0 0 0)
      as (_ & HM' & HD' & _); try lia.
    rewrite <- En. auto.
Qed.

Lemma getYearMonthDays_last_day_witness :
  let n := getYearMonthDays 2024 2 in
  28 <= n <= 31 /\
  (n = 29 <-> 2 = 2 /\ leapYear 2024) /\
  Month (Date 2024 2 n 0 0 0 0) = 2 /\ Day (Date 2024 2 n 0 0 0 0) = n /\
  Month (Date 2024 2 (n + 1) 0 0 0 0) = (nextMonthOf 2024 2).2 /\
  Day (Date 2024 2 (n + 1) 0 0 0 0) = 1.
Proof. apply (getYearMonthDays_last_day 2024 2). lia. Defined.

(** The day [k] days after day [day] of a month, as a [Time]. *)
Lemma Date_shift_eq (year month day : Z) (r : Time) :
  1 <= month <= 12 -> midnight r ->
  r = Date year month (day + (days r - daysOf year month day)) 0 0 0 0.
Proof.
  intros Hm Hr. apply midnight_eq; [exact Hr | apply Date_midnight; exact Hm|].
  rewrite Date_days, daysOf_shift by exact Hm. lia.
Qed.

(** X4: [getMonthAfterLatestWeek] returns the first midnight on or after
    the given day of the month that falls on the weekday asked for, which
    is at most six days later (and may lie in the following month). *)
Theorem getMonthAfterLatestWeek_first (year month day weekDay : Z) :
  1 <= month <= 12 -> 0 <= weekDay <= 6 ->
  exists k, 0 <= k <= 6 /\
    getMonthAfterLatestWeek year month day weekDay =
      Ok (Date year month (day + k) 0 0 0 0) /\
    Weekday (Date year month (day + k) 0 0 0 0) = weekDay /\
    forall j, 0 <= j < k -> Weekday (Date year month (day + j) 0 0 0 0) <> weekDay.
Proof.
  intros Hm Hw.
  destruct (getMonthAfterLatestWeek_spec year month day weekDay Hm Hw)
    as (r & Hr & Hmid & Hwd & Hk & _).
  exists (days r - daysOf year month day). split; [lia|].
  rewrite <- (Date_shift_eq year month day r Hm Hmid).
  split; [exact Hr|]. split; [exact Hwd|].
  intros j Hj. rewrite Date_Weekday, daysOf_shift by exact Hm.
  rewrite Weekday_days in Hwd. lia.
Qed.

Lemma getMonthAfterLatestWeek_first_witness :
  exists k, 0 <= k <= 6 /\
    getMonthAfterLatestWeek 2024 2 10 1 = Ok (Date 2024 2 (10 + k) 0 0 0 0) /\
    Weekday (Date 2024 2 (10 + k) 0 0 0 0) = 1 /\
    forall j, 0 <= j < k -> Weekday (Date 2024 2 (10 + j) 0 0 0 0) <> 1.
Proof. apply (getMonthAfterLatestWeek_first 2024 2 10 1); lia. Defined.

Lemma getLatestWorkDay_walk (year month day : Z) :
  1 <= month <= 12 ->
  let back := weekendBack (Weekday (Date year month day 0 0 0 0)) in
  let t := Date year month (day - back) 0 0 0 0 in
  getLatestWorkDay year month day = Ok (if Month t =? month then Some t else None) /\
  1 <= Weekday t <= 5.
Proof.
  intros Hm back t. unfold getLatestWorkDay.
  set (t0 := Date year month day 0 0 0 0) in *.
  assert (Hmid : midnight t0) by (apply Date_midnight; exact Hm).
  assert (Hd0 : days t0 = daysOf year month day) by (apply Date_days; exact Hm).
  assert (Hwd : Weekday t0 = (days t0 + 1) mod 7) by reflexivity.
  assert (Hback : back = weekendBack ((days t0 + 1) mod 7)) by reflexivity.
  clearbody back. unfold weekendBack in Hback.
  set (n := Z.to_nat back).
  assert (Hn : Z.of_nat n = back)
    by (unfold n; destruct (_ =? 0) in Hback; [|destruct (_ =? 6) in Hback]; lia).
  clearbody n.
  destruct (while_steps (fun t => (Weekday t =? 0) || (Weekday t =? 6)) (-1) n loopFuel
              t0 Hmid) as (r & Hr & Hrm & Hrd).
  - unfold loopFuel. destruct (_ =? 0) in Hback; [|destruct (_ =? 6) in Hback]; lia.
  - intros u _ Hu. unfold Weekday. rewrite Hu.
    destruct (_ =? 0) eqn:E0 in Hback; [lia|]. destruct (_ =? 6) eqn:E6 in Hback; lia.
  - intros i u Hi _ Hu. unfold Weekday. rewrite Hu.
    destruct (_ =? 0) eqn:E0 in Hback; [lia|]. destruct (_ =? 6) eqn:E6 in Hback; lia.
  - assert (r = t) as ->.
    { apply midnight_eq; [exact Hrm | apply Date_midnight; exact Hm |].
      unfold t. rewrite Date_days by exact Hm.
      replace (day - back) with (day + - back) by lia. rewrite daysOf_shift. lia. }
    rewrite Hr. cbn [mbind res_bind]. split.
    + destruct (Month t =? month); reflexivity.
    + rewrite Weekday_days, Hrd.
      destruct (_ =? 0) eqn:E0 in Hback; [lia|]. destruct (_ =? 6) eqn:E6 in Hback; lia.
Qed.

Lemma weekendBack_spec (year month day : Z) :
  1 <= month <= 12 ->
  let back := weekendBack (Weekday (Date year month day 0 0 0 0)) in
  0 <= back <= 2 /\
  (forall d, day - back < d <= day ->
     Weekday (Date year month d 0 0 0 0) = 0 \/ Weekday (Date year month d 0 0 0 0) = 6).
Proof.
  intros Hm back.
  assert (Hb : back = weekendBack ((daysOf year month day + 1) mod 7)).
  { unfold back. rewrite Date_Weekday by exact Hm. reflexivity. }
  clearbody back. unfold weekendBack in Hb. split.
  - destruct (_ =? 0) in Hb; [|destruct (_ =? 6) in Hb]; lia.
  - intros d Hd. rewrite Date_Weekday by exact Hm.
    pose proof (daysOf_diff year month day d).
    destruct (_ =? 0) eqn:E0 in Hb; [lia|]. destruct (_ =? 6) eqn:E6 in Hb; lia.
Qed.

(** X5: [getLatestWorkDay] returns the given day when it is a Monday to
    Friday and else the Friday before it, and [nil] when that day is not
    in the month asked for; it never walks back more than two days. *)
Theorem getLatestWorkDay_friday_before (year month day : Z) :
  1 <= month <= 12 ->
  let back := weekendBack (Weekday (Date year month day 0 0 0 0)) in
  let t := Date year month (day - back) 0 0 0 0 in
  getLatestWorkDay year month day = Ok (if Month t =? month then Some t else None) /\
  1 <= Weekday t <= 5 /\ 0 <= back <= 2 /\
  (forall d, day - back < d <= day ->
     Weekday (Date year month d 0 0 0 0) = 0 \/ Weekday (Date year month d 0 0 0 0) = 6).
Proof.
  intros Hm back t. destruct (getLatestWorkDay_walk year month day Hm) as [H1 H2].
  destruct (weekendBack_spec year month day Hm) as [H3 H4].
  split; [exact H1|]. split; [exact H2|]. split; [exact H3 | exact H4].
Qed.

Lemma getLatestWorkDay_friday_before_witness :
  let back := weekendBack (Weekday (Date 2024 6 30 0 0 0 0)) in
  let t := Date 2024 6 (30 - back) 0 0 0 0 in
  getLatestWorkDay 2024 6 30 = Ok (if Month t =? 6 then Some t else None) /\
  1 <= Weekday t <= 5 /\ 0 <= back <= 2 /\
  (forall d, 30 - back < d <= 30 ->
     Weekday (Date 2024 6 d 0 0 0 0) = 0 \/ Weekday (Date 2024 6 d 0 0 0 0) = 6).
Proof. apply (getLatestWorkDay_friday_before 2024 6 30). lia. Defined.

Lemma getMonthLatestWeek_day (year month weekDay : Z) :
  1 <= month <= 12 -> 0 <= weekDay <= 6 ->
  exists d, getYearMonthDays year month - 6 <= d <= getYearMonthDays year month /\
    getMonthLatestWeek year month weekDay = Ok (Date year month d 0 0 0 0) /\
    Weekday (Date year month d 0 0 0 0) = weekDay /\
    Month (Date year month d 0 0 0 0) = month /\ Day (Date year month d 0 0 0 0) = d.
Proof.
  intros Hm Hw. unfold getMonthLatestWeek.
  rewrite getYearMonthDays_daysIn by exact Hm.
  pose proof (daysIn_bounds year month Hm) as Hb.
  set (t0 := Date year month (daysIn year month) 0 0 0 0).
  assert (Hmid : midnight t0) by (apply Date_midnight; exact Hm).
  assert (Hd0 : days t0 = daysOf year month (daysIn year month))
    by (apply Date_days; exact Hm).
  set (n := Z.to_nat (((days t0 + 1) - weekDay) mod 7)).
  assert (Hn : Z.of_nat n = ((days t0 + 1) - weekDay) mod 7) by (unfold n; lia).
  clearbody n.
  destruct (while_steps (fun t => negb (Weekday t =? weekDay)) (-1) n loopFuel t0 Hmid)
    as (r & Hr & Hrm & Hrd).
  - unfold loopFuel. lia.
  - intros u _ Hu. unfold Weekday. rewrite Hu. lia.
  - intros i u Hi _ Hu. unfold Weekday. rewrite Hu. lia.
  - exists (daysIn year month - Z.of_nat n). split; [lia|].
    assert (r = Date year month (daysIn year month - Z.of_nat n) 0 0 0 0) as ->.
    { apply midnight_eq; [exact Hrm | apply Date_midnight; exact Hm |].
      rewrite Date_days by exact Hm.
      replace (daysIn year month - Z.of_nat n) with (daysIn year month + - Z.of_nat n) by lia.
      rewrite daysOf_shift. lia. }
    split; [exact Hr|]. split; [rewrite Weekday_days, Hrd; lia|].
    destruct (Date_fields year month (daysIn year month - Z.of_nat n) 0 0 0 0)
      as (_ & HM & HD & _); try lia; auto.
Qed.

(** X6: for a weekday 0..6, [getMonthLatestWeek] returns the last day of
    the month that falls on it, one of the month's last seven days. *)
Theorem getMonthLatestWeek_last (year month weekDay : Z) :
  1 <= month <= 12 -> 0 <= weekDay <= 6 ->
  exists d, getYearMonthDays year month - 6 <= d <= getYearMonthDays year month /\
    getMonthLatestWeek year month weekDay = Ok (Date year month d 0 0 0 0) /\
    Weekday (Date year month d 0 0 0 0) = weekDay /\
    Month (Date year month d 0 0 0 0) = month /\ Day (Date year month d 0 0 0 0) = d.
Proof. exact (getMonthLatestWeek_day year month weekDay). Qed.

Lemma getMonthLatestWeek_last_witness :
  exists d, getYearMonthDays 2024 2 - 6 <= d <= getYearMonthDays 2024 2 /\
    getMonthLatestWeek 2024 2 5 = Ok (Date 2024 2 d 0 0 0 0) /\
    Weekday (Date 2024 2 d 0 0 0 0) = 5 /\
    Month (Date 2024 2 d 0 0 0 0) = 2 /\ Day (Date 2024 2 d 0 0 0 0) = d.
Proof. apply (getMonthLatestWeek_last 2024 2 5); lia. Defined.

(** The days just outside a month belong to its neighbours. *)
Lemma Month_Date_near (y m d : Z) :
  1 <= m <= 12 -> -2 <= d <= 34 ->
  (Month (Date y m d 0 0 0 0) = m <-> 1 <= d <= daysIn y m) /\
  (1 <= d <= daysIn y m -> Day (Date y m d 0 0 0 0) = d).
Proof.
  intros Hm Hd. pose proof (daysIn_bounds y m Hm) as Hb.
  assert (Hin : 1 <= d <= daysIn y m ->
                Month (Date y m d 0 0 0 0) = m /\ Day (Date y m d 0 0 0 0) = d).
  { intros Hr. destruct (Date_fields y m d 0 0 0 0) as (_ & HM & HD & _); try lia; auto. }
  split; [|intros Hr; apply Hin; exact Hr].
  split; [|intros Hr; apply Hin; exact Hr].
  intros HM. destruct (Z_lt_le_dec d 1) as [Hlt | Hge].
  - exfalso. pose proof (daysOf_prevMonth y m Hm) as Hp.
    destruct (prevMonth y m) as [y' m'] eqn:Ep.
    assert (Hm' : 1 <= m' <= 12 /\ m' <> m)
      by (unfold prevMonth in Ep; destruct (m =? 1) eqn:?; injection Ep; lia).
    pose proof (daysIn_bounds y' m' ltac:(lia)) as Hb'.
    assert (E : Date y m d 0 0 0 0 = Date y' m' (daysIn y' m' + d) 0 0 0 0).
    { apply midnight_eq; try (apply Date_midnight; lia).
      rewrite !Date_days by lia.
      pose proof (daysOf_diff y m 0 d). pose proof (daysOf_diff y' m' (daysIn y' m') (daysIn y' m' + d)).
      lia. }
    rewrite E in HM.
    destruct (Date_fields y' m' (daysIn y' m' + d) 0 0 0 0) as (_ & HM' & _); lia.
  - destruct (Z_le_gt_dec d (daysIn y m)) as [Hle | Hgt]; [lia|]. exfalso.
    pose proof (daysOf_nextMonth y m Hm) as Hn.
    destruct (nextMonthOf y m) as [y' m'] eqn:En.
    assert (Hm' : 1 <= m' <= 12 /\ m' <> m)
      by (unfold nextMonthOf in En; destruct (m =? 12) eqn:?; injection En; lia).
    pose proof (daysIn_bounds y' m' ltac:(lia)) as Hb'.
    assert (E : Date y m d 0 0 0 0 = Date y' m' (d - daysIn y m) 0 0 0 0).
    { apply midnight_eq; try (apply Date_midnight; lia).
      rewrite !Date_days by lia.
      pose proof (daysOf_diff y m (daysIn y m) d).
      pose proof (daysOf_diff y' m' 1 (d - daysIn y m)). lia. }
    rewrite E in HM.
    destruct (Date_fields y' m' (d - daysIn y m) 0 0 0 0) as (_ & HM' & _); lia.
Qed.

(** ** The computed day rules *)

(** X8: the [LW] rule never meets a [nil] date: for every month it sets
    the day field to the last day of the month that is a Monday to Friday,
    which is one of the month's last three days, and reports a match. *)
Theorem calculate_LW_last_working_day (t : trigger.t) (year month : Z) :
  1 <= month <= 12 ->
  exists d,
    calculate calcDayLW t year month =
      Ok (true, trigger.setDay t (field.setSingle (trigger.day t) d)) /\
    getYearMonthDays year month - 2 <= d <= getYearMonthDays year month /\
    1 <= Weekday (Date year month d 0 0 0 0) <= 5 /\
    (forall d', d < d' <= getYearMonthDays year month ->
       Weekday (Date year month d' 0 0 0 0) = 0 \/ Weekday (Date year month d' 0 0 0 0) = 6).
Proof.
  intros Hm. cbn [calculate].
  destruct (getLatestWorkDay_walk year month (getYearMonthDays year month) Hm) as [H1 H2].
  destruct (weekendBack_spec year month (getYearMonthDays year month) Hm) as [H3 H4].
  set (back := weekendBack _) in *.
  set (d := getYearMonthDays year month - back) in *.
  assert (Hd : 1 <= d <= daysIn year month).
  { pose proof (getYearMonthDays_daysIn year month Hm).
    pose proof (daysIn_bounds year month Hm). lia. }
  destruct (Month_Date_near year month d Hm ltac:(pose proof (daysIn_bounds year month Hm); lia))
    as [HM HD].
  exists d. rewrite H1.
  replace (Month (Date year month d 0 0 0 0) =? month) with true
    by (symmetry; apply Z.eqb_eq, HM; exact Hd).
  cbn [mbind res_bind]. rewrite (HD Hd).
  split; [reflexivity|]. split; [lia|]. split; [exact H2|]. exact H4.
Qed.

Lemma calculate_LW_last_working_day_witness :
  exists d,
    calculate calcDayLW lastDayTrigger 2024 6 =
      Ok (true, trigger.setDay lastDayTrigger
                  (field.setSingle (trigger.day lastDayTrigger) d)) /\
    getYearMonthDays 2024 6 - 2 <= d <= getYearMonthDays 2024 6 /\
    1 <= Weekday (Date 2024 6 d 0 0 0 0) <= 5 /\
    (forall d', d < d' <= getYearMonthDays 2024 6 ->
       Weekday (Date 2024 6 d' 0 0 0 0) = 0 \/ Weekday (Date 2024 6 d' 0 0 0 0) = 6).
Proof. apply (calculate_LW_last_working_day lastDayTrigger 2024 6). lia. Defined.

(** X9: the [NW] rule looks for a working day on or before day [N] only:
    it takes [N] itself when that is a Monday to Friday and else the
    Friday before, and reports no match for the month when that day is
    not a day of the month (as for [1W] in a month that starts on a
    weekend, or for [31W] in a month of 30 days whose successor starts on
    a working day). *)
Theorem calculate_W_on_or_before (t : trigger.t) (year month day : Z) :
  1 <= month <= 12 -> 0 <= day <= 31 ->
  let d := day - weekendBack (Weekday (Date year month day 0 0 0 0)) in
  calculate (calcDayW day) t year month =
    Ok (if (1 <=? d) && (d <=? getYearMonthDays year month)
        then (true, trigger.setDay t (field.setSingle (trigger.day t) d))
        else (false, t)).
Proof.
  intros Hm Hday d. cbn [calculate].
  destruct (getLatestWorkDay_walk year month day Hm) as [H1 _].
  destruct (weekendBack_spec year month day Hm) as [H3 _].
  fold d in H1. rewrite H1. rewrite (getYearMonthDays_daysIn year month Hm).
  destruct (Month_Date_near year month d Hm ltac:(unfold d; lia)) as [HM HD].
  destruct ((1 <=? d) && (d <=? daysIn year month)) eqn:E.
  - assert (Hd : 1 <= d <= daysIn year month) by lia.
    replace (Month (Date year month d 0 0 0 0) =? month) with true
      by (symmetry; apply Z.eqb_eq, HM; exact Hd).
    cbn [mbind res_bind]. rewrite (HD Hd). reflexivity.
  - replace (Month (Date year month d 0 0 0 0) =? month) with false; [reflexivity|].
    symmetry. apply Z.eqb_neq. intros HMd. apply HM in HMd. lia.
Qed.

Lemma calculate_W_on_or_before_witness :
  let d := 1 - weekendBack (Weekday (Date 2024 6 1 0 0 0 0)) in
  calculate (calcDayW 1) feb30Trigger 2024 6 =
    Ok (if (1 <=? d) && (d <=? getYearMonthDays 2024 6)
        then (true, trigger.setDay feb30Trigger (field.setSingle (trigger.day feb30Trigger) d))
        else (false, feb30Trigger)).
Proof. apply (calculate_W_on_or_before feb30Trigger 2024 6 1); lia. Defined.

Lemma weekNumLoop_nth (year month weekNum weekDay : Z) (fuel : nat) (d n : Z) :
  1 <= month <= 12 -> 0 <= weekDay <= 6 -> 1 <= weekNum ->
  firstWeekday year month weekDay + 7 * (weekNum - 1) <= daysIn year month ->
  1 <= d <= firstWeekday year month weekDay + 7 * (weekNum - 1) ->
  n = (d - firstWeekday year month weekDay + 6) / 7 ->
  firstWeekday year month weekDay + 7 * (weekNum - 1) - d <= Z.of_nat fuel ->
  weekNumLoop fuel month weekNum weekDay (Date year month d 0 0 0 0) n =
    Ok (Some (Date year month (firstWeekday year month weekDay + 7 * (weekNum - 1)) 0 0 0 0)).
Proof.
  intros Hm Hw Hn1.
  assert (Hf1 : firstWeekday year month weekDay =
                1 + (weekDay - (daysOf year month 1 + 1) mod 7) mod 7).
  { unfold firstWeekday. rewrite Date_Weekday by exact Hm. reflexivity. }
  set (f1 := firstWeekday year month weekDay) in *. clearbody f1. intros HT.
  revert d n. induction fuel as [|fuel IH]; intros d n Hd Hn Hf; cbn [weekNumLoop];
    (destruct (Date_fields year month d 0 0 0 0) as (HY & HM & HD & _); try lia);
    rewrite HM, Z.eqb_refl, (Date_Weekday year month d Hm);
    pose proof (daysOf_diff year month 1 d) as Hdd;
    destruct ((daysOf year month d + 1) mod 7 =? weekDay) eqn:Eh; cbn [andb].
  - replace (n + 1 =? weekNum) with true by lia.
    replace d with (f1 + 7 * (weekNum - 1)) by lia. reflexivity.
  - exfalso. lia.
  - destruct (n + 1 =? weekNum) eqn:En.
    + replace d with (f1 + 7 * (weekNum - 1)) by lia. reflexivity.
    + destruct (AddDate_days (Date year month d 0 0 0 0) 1) as (_ & _ & ->);
        [apply Date_midnight; exact Hm|].
      rewrite HY, HM, HD. apply IH; lia.
  - destruct (AddDate_days (Date year month d 0 0 0 0) 1) as (_ & _ & ->);
      [apply Date_midnight; exact Hm|].
    rewrite HY, HM, HD. apply IH; lia.
Qed.

(** X7: for an occurrence number 1..4 and a weekday 0..6 (what the parser
    lets through for [N#M]), [getMonthWeekByWeekNumDay] never returns
    [nil]: it returns the day of the month that falls on the weekday for
    the [weekNum]-th time, which lies among the days [7 (weekNum - 1) + 1]
    to [7 weekNum]. *)
Theorem getMonthWeekByWeekNumDay_nth (year month weekNum weekDay : Z) :
  1 <= month <= 12 -> 1 <= weekNum <= 4 -> 0 <= weekDay <= 6 ->
  exists d, 7 * (weekNum - 1) < d <= 7 * weekNum /\
    getMonthWeekByWeekNumDay year month weekNum weekDay =
      Ok (Some (Date year month d 0 0 0 0)) /\
    Weekday (Date year month d 0 0 0 0) = weekDay /\
    Month (Date year month d 0 0 0 0) = month /\ Day (Date year month d 0 0 0 0) = d.
Proof.
  intros Hm Hn Hw. pose proof (daysIn_bounds year month Hm) as Hb.
  assert (Hf1 : firstWeekday year month weekDay =
                1 + (weekDay - (daysOf year month 1 + 1) mod 7) mod 7).
  { unfold firstWeekday. rewrite Date_Weekday by exact Hm. reflexivity. }
  exists (firstWeekday year month weekDay + 7 * (weekNum - 1)).
  split; [lia|]. split.
  - unfold getMonthWeekByWeekNumDay.
    apply weekNumLoop_nth; try lia. unfold loopFuel. lia.
  - rewrite Date_Weekday by exact Hm.
    pose proof (daysOf_diff year month 1 (firstWeekday year month weekDay + 7 * (weekNum - 1))).
    split; [lia|].
    destruct (Date_fields year month (firstWeekday year month weekDay + 7 * (weekNum - 1))
                0 0 0 0) as (_ & HM & HD & _); try lia; auto.
Qed.

Lemma getMonthWeekByWeekNumDay_nth_witness :
  exists d, 7 * (2 - 1) < d <= 7 * 2 /\
    getMonthWeekByWeekNumDay 2024 2 2 5 = Ok (Some (Date 2024 2 d 0 0 0 0)) /\
    Weekday (Date 2024 2 d 0 0 0 0) = 5 /\
    Month (Date 2024 2 d 0 0 0 0) = 2 /\ Day (Date 2024 2 d 0 0 0 0) = d.
Proof. apply (getMonthWeekByWeekNumDay_nth 2024 2 2 5); lia. Defined.

(** ** The value search picks the earliest admitted value *)

Lemma elem_of_insertSorted (x y : Z) (l : list Z) :
  y ∈ insertSorted x l <-> y = x \/ y ∈ l.
Proof.
  induction l as [|z l IH]; cbn [insertSorted].
  - rewrite list_elem_of_singleton. split; [auto | intros [H | H]; [exact H|]].
    apply elem_of_nil in H. contradiction.
  - destruct (x <=? z).
    + rewrite elem_of_cons. reflexivity.
    + rewrite !elem_of_cons, IH. tauto.
Qed.

Lemma insertSorted_ascending (x : Z) (l : list Z) :
  ascending l -> ascending (insertSorted x l).
Proof.
  induction l as [|z l IH]; cbn [insertSorted ascending].
  - intros _. split; [|exact I]. intros y Hy. apply elem_of_nil in Hy. contradiction.
  - intros [Hz Hl]. destruct (x <=? z) eqn:E; cbn [ascending].
    + split; [|split; assumption]. intros y Hy. apply elem_of_cons in Hy.
      destruct Hy as [-> | Hy]; [lia|]. specialize (Hz y Hy). lia.
    + split; [|apply IH; exact Hl]. intros y Hy. apply elem_of_insertSorted in Hy.
      destruct Hy as [-> | Hy]; [lia | apply Hz; exact Hy].
Qed.

Lemma sortValues_ascending (l : list Z) : ascending (sortValues l).
Proof.
  induction l as [|x l IH]; cbn; [exact I|]. apply insertSorted_ascending. exact IH.
Qed.

Lemma elem_of_sortValues (y : Z) (l : list Z) : y ∈ sortValues l <-> y ∈ l.
Proof.
  induction l as [|x l IH]; cbn; [reflexivity|].
  rewrite elem_of_insertSorted, elem_of_cons, IH. reflexivity.
Qed.

Lemma stepValues_ascending (fuel : nat) (i end_ increment : Z) :
  0 <= increment -> ascending (stepValues fuel i end_ increment).
Proof.
  intros Hinc. revert i. induction fuel as [|fuel IH]; intros i; cbn [stepValues].
  - exact I.
  - destruct (i <=? end_); [|exact I]. cbn [ascending]. split; [|apply IH].
    intros y Hy.
    pose proof (stepValues_Forall fuel (i + increment) end_ increment Hinc) as Hall.
    rewrite Forall_forall in Hall. specialize (Hall y Hy). lia.
Qed.

Lemma rangeValues_ascending (start end_ : Z) : ascending (rangeValues start end_).
Proof.
  unfold rangeValues. generalize (end_ - start + 1). intros len.
  destruct (Z_le_gt_dec len 0) as [Hle | Hgt]; [rewrite seqZ_nil by exact Hle; exact I|].
  rewrite <- (Z2Nat.id len) by lia. generalize (Z.to_nat len). clear. intros k. revert start.
  induction k as [|k IH]; intros start; [exact I|].
  rewrite seqZ_cons by lia. cbn [ascending].
  replace (Z.pred (Z.of_nat (S k))) with (Z.of_nat k) by lia. split; [|apply IH].
  intros y Hy. apply elem_of_seqZ in Hy. lia.
Qed.

(** The first element that passes a lower-bound test in an ascending list
    is the least that passes it. *)
Lemma find_ascending_least (l : list Z) (n v : Z) :
  ascending l -> List.find (fun i => n <=? i) l = Some v ->
  v ∈ l /\ n <= v /\ forall v', v' ∈ l -> n <= v' -> v <= v'.
Proof.
  induction l as [|x l IH]; cbn [List.find ascending]; [discriminate|].
  intros [Hx Hl]. destruct (n <=? x) eqn:E.
  - intros [= <-]. split; [left|]. split; [lia|].
    intros v' Hv' _. apply elem_of_cons in Hv'. destruct Hv' as [-> | Hv']; [lia | auto].
  - intros H. destruct (IH Hl H) as (Hin & Hge & Hleast). split; [right; exact Hin|].
    split; [exact Hge|]. intros v' Hv' Hn. apply elem_of_cons in Hv'.
    destruct Hv' as [-> | Hv']; [lia | auto].
Qed.

Lemma fieldNextValue_least (f : field.t) (n v : Z) (b : bool) :
  ascending (field.values f) ->
  fieldNextValue f n = Ok (v, b) ->
  (b = true -> admits f v /\ n <= v /\ forall v', admits f v' -> n <= v' -> v <= v') /\
  (b = false -> forall v', admits f v' -> v' < n /\ v <= v').
Proof.
  intros Hasc. unfold fieldNextValue, admits. destruct (field.isRange f).
  - unfold getRangeNextValue.
    destruct (List.find _ _) as [i|] eqn:E; intros [= <- <-];
      (split; [intros Hb | intros Hb]; try discriminate Hb).
    + destruct (find_ascending_least _ _ _ (rangeValues_ascending _ _) E)
        as (Hin & Hge & Hleast).
      apply elem_of_rangeValues in Hin. split; [exact Hin|]. split; [exact Hge|].
      intros v' Hv' Hn. apply Hleast; [apply elem_of_rangeValues; exact Hv' | exact Hn].
    + intros v' Hv'. pose proof (find_None_elem _ _ E v') as Hnone.
      specialize (Hnone ltac:(apply elem_of_rangeValues; exact Hv')). cbn in Hnone. lia.
  - unfold getIncreaseNextValue.
    destruct (List.find _ _) as [i|] eqn:E.
    + intros [= <- <-]. split; [intros _ | intros Hb; discriminate Hb].
      exact (find_ascending_least _ _ _ Hasc E).
    + intros H. apply bind_Ok in H. destruct H as (x & Hx & [= <- <-]).
      split; [intros Hb; discriminate Hb | intros _].
      intros v' Hv'. pose proof (find_None_elem _ _ E v' Hv') as Hnone. cbn in Hnone.
      split; [lia|]. unfold index in Hx.
      destruct (field.values f) as [|y l] eqn:Ev; [discriminate|].
      cbn in Hx. injection Hx as <-. cbn [ascending] in Hasc.
      apply elem_of_cons in Hv'. destruct Hv' as [-> | Hv']; [lia|]. apply Hasc. exact Hv'.
Qed.

Lemma parserRangeField_values str arr f f' :
  parserRangeField str arr f = Ok f' -> field.values f' = field.values f.
Proof.
  intros H. unfold parserRangeField in H.
  repeat parser_step H. injection H as <-. reflexivity.
Qed.

Lemma parserIncreaseField_ascending str arr f f' :
  field.values f = [] -> parserIncreaseField str arr f = Ok f' ->
  ascending (field.values f').
Proof.
  intros Hv H. unfold parserIncreaseField in H.
  repeat parser_step H. injection H as <-.
  match goal with Hr : ranges _ = Ok _ |- _ => apply ranges_bounds in Hr end.
  cbn [field.setIsRange field.setValues field.values] in *. rewrite Hv. cbn [app].
  apply stepValues_ascending. lia.
Qed.

Lemma parserEnumField_ascending str arr f f' :
  parserEnumField str arr f = Ok f' -> ascending (field.values f').
Proof.
  intros H. unfold parserEnumField in H.
  repeat parser_step H. injection H as <-. cbn [field.setValues field.values].
  apply sortValues_ascending.
Qed.

Lemma parserCompound_ascending s f other f' :
  field.values f = [] -> parserCompound s f other = Ok f' ->
  ascending (field.values f') \/ other = Ok f'.
Proof.
  intros Hv H. unfold parserCompound in H.
  destruct (contains s "-").
  { left. rewrite (parserRangeField_values _ _ _ _ H), Hv. exact I. }
  destruct (contains s "/"); [left; eapply parserIncreaseField_ascending; eauto|].
  destruct (contains s ","); [left; eapply parserEnumField_ascending; eauto|].
  right. exact H.
Qed.

Lemma parserClockField_ascending unit str f :
  parserClockField unit str = Ok f -> ascending (field.values f).
Proof.
  intros H. unfold parserClockField in H. destruct (String.eqb str "*").
  - repeat parser_step H. injection H as <-. exact I.
  - apply parserCompound_ascending in H; [|reflexivity].
    destruct H as [H | H]; [exact H|]. repeat parser_step H. injection H as <-. exact I.
Qed.

Lemma parserMonField_ascending s f :
  parserMonField s = Ok f -> ascending (field.values f).
Proof.
  intros H. unfold parserMonField in H. destruct (String.eqb s "*").
  - injection H as <-. exact I.
  - apply parserCompound_ascending in H; [|reflexivity].
    destruct H as [H | H]; [exact H|].
    destruct (ParseUint s 8) as [mon err]. apply bind_Ok in H.
    destruct H as (start & _ & [= <-]). exact I.
Qed.

Lemma parserWeekField_ascending cron s f :
  parserWeekField cron s = Ok f -> ascending (field.values f).
Proof.
  intros H. unfold parserWeekField in H. destruct (_ || _).
  - injection H as <-. exact I.
  - apply bind_Ok in H. destruct H as (a3 & _ & H). destruct (_ && _); [discriminate|].
    apply parserCompound_ascending in H; [|reflexivity].
    destruct H as [H | H]; [exact H|].
    destruct (contains s "L").
    { apply bind_Ok in H. destruct H as (weekNum & _ & [= <-]). exact I. }
    destruct (contains s "#").
    { repeat parser_step H. injection H as <-. exact I. }
    destruct (ParseUint s 8) as [week err]. apply bind_Ok in H.
    destruct H as (start & _ & [= <-]). exact I.
Qed.

Lemma parse_ascending (cron : string) (t : trigger.t) (f : field.t) :
  parse cron = Ok t ->
  f ∈ [trigger.sec t; trigger.min t; trigger.hour t; trigger.mon t; trigger.week t] ->
  ascending (field.values f).
Proof.
  intros H Hf. unfold parse in H. destruct (negb _); [discriminate|].
  apply bind_Ok in H. destruct H as (a0 & _ & H).
  apply bind_Ok in H. destruct H as (sec & Hsec & H).
  apply bind_Ok in H. destruct H as (a1 & _ & H).
  apply bind_Ok in H. destruct H as (min & Hmin & H).
  apply bind_Ok in H. destruct H as (a2 & _ & H).
  apply bind_Ok in H. destruct H as (hour & Hhour & H).
  apply bind_Ok in H. destruct H as (a3 & _ & H).
  apply bind_Ok in H. destruct H as (day & Hday & H).
  apply bind_Ok in H. destruct H as (a4 & _ & H).
  apply bind_Ok in H. destruct H as (mon & Hmon & H).
  apply bind_Ok in H. destruct H as (a5 & _ & H).
  apply bind_Ok in H. destruct H as (week & Hweek & H).
  injection H as <-. cbn [trigger.sec trigger.min trigger.hour trigger.mon trigger.week] in Hf.
  repeat (apply elem_of_cons in Hf; destruct Hf as [-> | Hf]);
    eauto using parserClockField_ascending, parserMonField_ascending,
                parserWeekField_ascending.
  apply elem_of_nil in Hf. contradiction.
Qed.

Lemma fieldNextValue_admits_any (f : field.t) (n v : Z) (b : bool) :
  (field.isRange f = true -> field.start f <= field.end_ f) ->
  fieldNextValue f n = Ok (v, b) -> admits f v.
Proof.
  unfold fieldNextValue, admits. destruct (field.isRange f).
  - intros Ho [= H]. specialize (Ho eq_refl). apply getRangeNextValue_spec in H.
    destruct H as [(_ & Hr & _) | (_ & -> & _)]; lia.
  - intros _ H. apply getIncreaseNextValue_spec in H.
    destruct H as [(_ & Hin & _) | (_ & Hin & _)]; exact Hin.
Qed.

Lemma wfField_ordered (lo hi : Z) (f : field.t) :
  wfField lo hi f -> field.isRange f = true -> field.start f <= field.end_ f.
Proof. unfold wfField. intros H E. rewrite E in H. lia. Qed.

Lemma parserWeekField_ordered cron s f :
  parserWeekField cron s = Ok f ->
  field.isRange f = true -> field.start f <= field.end_ f.
Proof.
  intros H. unfold parserWeekField in H. destruct (_ || _).
  - injection H as <-. cbn. lia.
  - apply bind_Ok in H. destruct H as (a3 & _ & H). destruct (_ && _); [discriminate|].
    apply (parserCompound_wf _ _ _ _ 0 6) in H; [| reflexivity | reflexivity].
    destruct H as [[H _] | H]; [exact (wfField_ordered _ _ _ H)|].
    destruct (contains s "L").
    { apply bind_Ok in H. destruct H as (weekNum & _ & [= <-]). cbn. discriminate. }
    destruct (contains s "#").
    { repeat parser_step H. injection H as <-. cbn. discriminate. }
    destruct (ParseUint s 8) as [week err]. apply bind_Ok in H.
    destruct H as (start & _ & [= <-]). cbn. lia.
Qed.

Lemma parse_week (cron : string) (t : trigger.t) :
  parse cron = Ok t -> exists a5, parserWeekField cron a5 = Ok (trigger.week t).
Proof.
  intros H. unfold parse in H. destruct (negb _); [discriminate|].
  apply bind_Ok in H. destruct H as (a0 & _ & H).
  apply bind_Ok in H. destruct H as (sec & _ & H).
  apply bind_Ok in H. destruct H as (a1 & _ & H).
  apply bind_Ok in H. destruct H as (min & _ & H).
  apply bind_Ok in H. destruct H as (a2 & _ & H).
  apply bind_Ok in H. destruct H as (hour & _ & H).
  apply bind_Ok in H. destruct H as (a3 & _ & H).
  apply bind_Ok in H. destruct H as (day & _ & H).
  apply bind_Ok in H. destruct H as (a4 & _ & H).
  apply bind_Ok in H. destruct H as (mon & _ & H).
  apply bind_Ok in H. destruct H as (a5 & _ & H).
  apply bind_Ok in H. destruct H as (week & Hweek & H).
  injection H as <-. exists a5. exact Hweek.
Qed.

Lemma parse_ordered (cron : string) (t : trigger.t) (f : field.t) :
  parse cron = Ok t ->
  f ∈ [trigger.sec t; trigger.min t; trigger.hour t; trigger.mon t; trigger.week t] ->
  field.isRange f = true -> field.start f <= field.end_ f.
Proof.
  intros Hp Hf. pose proof (parse_wf cron t Hp) as (Hs & Hmi & Hh & Hmo & _).
  destruct (parse_week cron t Hp) as (a5 & Hw).
  repeat (apply elem_of_cons in Hf; destruct Hf as [-> | Hf]);
    eauto using wfField_ordered, parserWeekField_ordered.
  apply elem_of_nil in Hf. contradiction.
Qed.

(** X10: on the seconds, minutes, hours, month and weekday fields of a
    parsed trigger the value list is in ascending order and the value
    search of [trigger.next] returns an admitted value: the least
    admitted value that is not below the current one when there is one,
    and otherwise, reporting no match, the least admitted value of all. *)
Theorem next_value_is_least (cron : string) (t : trigger.t) (f : field.t) (n v : Z)
    (b : bool) :
  parse cron = Ok t ->
  f ∈ [trigger.sec t; trigger.min t; trigger.hour t; trigger.mon t; trigger.week t] ->
  fieldNextValue f n = Ok (v, b) ->
  ascending (field.values f) /\ admits f v /\
  (b = true -> n <= v /\ forall v', admits f v' -> n <= v' -> v <= v') /\
  (b = false -> forall v', admits f v' -> v' < n /\ v <= v').
Proof.
  intros Hp Hf H. pose proof (parse_ascending cron t f Hp Hf) as Hasc.
  destruct (fieldNextValue_least f n v b Hasc H) as [Ht Hfalse].
  split; [exact Hasc|]. split.
  - exact (fieldNextValue_admits_any f n v b (parse_ordered cron t f Hp Hf) H).
  - split; [intros Hb; apply Ht; exact Hb | exact Hfalse].
Qed.

Lemma next_value_is_least_witness :
  ascending (field.values (trigger.sec listSecondsTrigger)) /\
  admits (trigger.sec listSecondsTrigger) 5 /\
  (false = true ->
   50 <= 5 /\ forall v', admits (trigger.sec listSecondsTrigger) v' -> 50 <= v' -> 5 <= v') /\
  (false = false ->
   forall v', admits (trigger.sec listSecondsTrigger) v' -> v' < 50 /\ 5 <= v').
Proof.
  apply (next_value_is_least "45,5,25 * * * * ?" listSecondsTrigger
           (trigger.sec listSecondsTrigger) 50 5 false).
  - vm_compute. reflexivity.
  - left.
  - reflexivity.
Defined.

(** ** The fire time is built from admitted values *)










(** ** The step form and the day search *)

Lemma elem_of_stepValues (fuel : nat) (i end_ increment v : Z) :
  1 <= increment -> end_ - i + 1 <= Z.of_nat fuel ->
  v ∈ stepValues fuel i end_ increment <->
  exists k, 0 <= k /\ v = i + k * increment /\ v <= end_.
Proof.
  intros Hinc. revert i. induction fuel as [|fuel IH]; intros i Hf; cbn [stepValues].
  - split; [intros H; apply elem_of_nil in H; contradiction|].
    intros (k & Hk & -> & Hle). nia.
  - destruct (i <=? end_) eqn:E.
    + rewrite elem_of_cons, IH by lia. split.
      * intros [-> | (k & Hk & -> & Hle)]; [exists 0; lia|]. exists (k + 1). lia.
      * intros (k & Hk & -> & Hle). destruct (Z.eq_dec k 0) as [-> | Hne]; [left; lia|].
        right. exists (k - 1). lia.
    + split; [intros H; apply elem_of_nil in H; contradiction|].
      intros (k & Hk & -> & Hle). nia.
Qed.

(** X12: the step form [A/B] of a field with bounds [lo..hi] takes its
    start from the number [A], or [lo] when [A] is written [*], and its
    step from the number [B]; the start and the step have to lie within
    [lo..hi], the step is at least 1, the end is [hi], and the values are
    exactly [A], [A + B], [A + 2B], ... up to [hi]. *)
Theorem parserIncreaseField_values (str : string) (arr : list string) (f f' : field.t) :
  field.values f = [] -> parserIncreaseField str arr f = Ok f' ->
  exists lo hi a0 a1, ranges (field.name f) = Ok (lo, hi) /\
    arr !! 0%nat = Some a0 /\ arr !! 1%nat = Some a1 /\
    (if String.eqb a0 "*" then field.start f' = lo
     else ParseUint a0 8 = (field.start f', None)) /\
    ParseUint a1 8 = (field.increment f', None) /\
    field.isRange f' = false /\ lo <= field.start f' <= hi /\ field.end_ f' = hi /\
    1 <= field.increment f' /\ lo <= field.increment f' <= hi /\
    forall v, v ∈ field.values f' <->
              exists k, 0 <= k /\ v = field.start f' + k * field.increment f' /\ v <= hi.
Proof.
  intros Hv H. unfold parserIncreaseField in H. cbn [field.name field.setIsRange] in H.
  destruct (ranges (field.name f)) as [[lo hi]| |] eqn:Hr; try discriminate H.
  cbn [mbind res_bind] in H. pose proof (ranges_bounds _ _ _ Hr) as Hlo.
  apply bind_Ok in H. destruct H as (a0 & Ha0 & H).
  apply bind_Ok in H. destruct H as (start & Hstart & H).
  apply bind_Ok in H. destruct H as (a1 & Ha1 & H).
  destruct (ParseUint a1 8) as [inc err] eqn:Einc.
  destruct err as [e|]; [discriminate H|]. cbn [isSome] in H.
  destruct (inc =? 0) eqn:E0; [discriminate H|].
  destruct ((inc <? lo) || (hi <? inc)) eqn:E1; [discriminate H|].
  injection H as <-.
  cbn [field.setIsRange field.setStart field.setEnd field.setIncrement field.setValues
       field.values field.isRange field.start field.end_ field.increment].
  rewrite Hv. cbn [app].
  assert (Hs : lo <= start <= hi /\
               (if String.eqb a0 "*" then start = lo else ParseUint a0 8 = (start, None))).
  { clear - Hstart Hlo. destruct (String.eqb a0 "*").
    - injection Hstart as <-. split; [lia | reflexivity].
    - destruct (ParseUint a0 8) as [s0 e0]. destruct e0 as [e|]; [discriminate|].
      cbn [isSome] in Hstart.
      destruct ((s0 <? lo) || (hi <? s0)) eqn:Eb; [discriminate|].
      injection Hstart as <-. split; [lia | reflexivity]. }
  assert (Hi0 : arr !! 0%nat = Some a0)
    by (unfold index in Ha0; destruct (arr !! 0%nat); congruence).
  assert (Hi1 : arr !! 1%nat = Some a1)
    by (unfold index in Ha1; destruct (arr !! 1%nat); congruence).
  exists lo, hi, a0, a1. split; [reflexivity|]. split; [exact Hi0|]. split; [exact Hi1|].
  split; [apply Hs|]. split; [exact Einc|]. split; [reflexivity|].
  split; [apply Hs|]. split; [reflexivity|]. split; [lia|]. split; [lia|].
  intros v. apply elem_of_stepValues; lia.
Qed.

Lemma parserIncreaseField_values_witness :
  exists lo hi a0 a1, ranges (field.name (field.new secField)) = Ok (lo, hi) /\
    ["5"; "20"] !! 0%nat = Some a0 /\ ["5"; "20"] !! 1%nat = Some a1 /\
    (if String.eqb a0 "*"
     then field.start (field.mk secField false 5 59 20 [5; 25; 45] None) = lo
     else ParseUint a0 8 =
            (field.start (field.mk secField false 5 59 20 [5; 25; 45] None), None)) /\
    ParseUint a1 8 =
      (field.increment (field.mk secField false 5 59 20 [5; 25; 45] None), None) /\
    field.isRange (field.mk secField false 5 59 20 [5; 25; 45] None) = false /\
    lo <= field.start (field.mk secField false 5 59 20 [5; 25; 45] None) <= hi /\
    field.end_ (field.mk secField false 5 59 20 [5; 25; 45] None) = hi /\
    1 <= field.increment (field.mk secField false 5 59 20 [5; 25; 45] None) /\
    lo <= field.increment (field.mk secField false 5 59 20 [5; 25; 45] None) <= hi /\
    forall v, v ∈ field.values (field.mk secField false 5 59 20 [5; 25; 45] None) <->
      exists k, 0 <= k /\
        v = field.start (field.mk secField false 5 59 20 [5; 25; 45] None) +
            k * field.increment (field.mk secField false 5 59 20 [5; 25; 45] None) /\
        v <= hi.
Proof.
  apply (parserIncreaseField_values "5/20" ["5"; "20"] (field.new secField)
           (field.mk secField false 5 59 20 [5; 25; 45] None)).
  - reflexivity.
  - vm_compute. reflexivity.
Defined.

Lemma find_seqZ_first (p : Z -> bool) (k : nat) (a x : Z) :
  List.find p (seqZ a (Z.of_nat k)) = Some x ->
  a <= x < a + Z.of_nat k /\ p x = true /\ forall i, a <= i < x -> p i = false.
Proof.
  revert a. induction k as [|k IH]; intros a; [discriminate|].
  rewrite seqZ_cons by lia. replace (Z.pred (Z.of_nat (S k))) with (Z.of_nat k) by lia.
  cbn [List.find]. destruct (p a) eqn:E.
  - intros [= <-]. split; [lia|]. split; [exact E|]. intros i Hi. lia.
  - intros H. destruct (IH _ H) as (Hx & Hp & Hfirst). split; [lia|]. split; [exact Hp|].
    intros i Hi. destruct (Z.eq_dec i a) as [-> | Hne]; [exact E|]. apply Hfirst. lia.
Qed.

(** X13: on a day range starting at 1 or later, [getRangeDayNextValue]
    returns the first day of the range, not before the start day, whose
    date falls on the weekday asked for, and 0 when the range has no such
    day; the weekday of a day past the end of the month is that of the
    date it rolls over to. *)
Theorem getRangeDayNextValue_first (start end_ year nextMonth day nextWeekDay : Z) :
  1 <= start ->
  let d := getRangeDayNextValue start end_ year nextMonth day nextWeekDay in
  (d = 0 /\
   forall i, start <= i <= end_ -> day <= i ->
             Weekday (Date year nextMonth i 0 0 0 0) <> nextWeekDay) \/
  (start <= d <= end_ /\ day <= d /\
   Weekday (Date year nextMonth d 0 0 0 0) = nextWeekDay /\
   forall i, start <= i < d -> day <= i ->
             Weekday (Date year nextMonth i 0 0 0 0) <> nextWeekDay).
Proof.
  intros Hs d. unfold d, getRangeDayNextValue, rangeValues.
  destruct (List.find _ _) as [x|] eqn:E.
  - right. destruct (Z_le_gt_dec (end_ - start + 1) 0) as [Hle | Hgt].
    { rewrite seqZ_nil in E by exact Hle. discriminate E. }
    rewrite <- (Z2Nat.id (end_ - start + 1)) in E by lia.
    apply find_seqZ_first in E. destruct E as (Hx & Hp & Hfirst).
    split; [lia|]. split; [lia|]. split; [lia|].
    intros i Hi Hd. specialize (Hfirst i ltac:(lia)). lia.
  - left. split; [reflexivity|]. intros i Hi Hd.
    pose proof (find_None_elem _ _ E i) as Hnone.
    specialize (Hnone ltac:(apply elem_of_seqZ; lia)). cbv beta in Hnone. lia.
Qed.

Lemma getRangeDayNextValue_first_witness :
  let d := getRangeDayNextValue 1 31 2024 2 10 1 in
  (d = 0 /\
   forall i, 1 <= i <= 31 -> 10 <= i -> Weekday (Date 2024 2 i 0 0 0 0) <> 1) \/
  (1 <= d <= 31 /\ 10 <= d /\
   Weekday (Date 2024 2 d 0 0 0 0) = 1 /\
   forall i, 1 <= i < d -> 10 <= i -> Weekday (Date 2024 2 i 0 0 0 0) <> 1).
Proof. apply (getRangeDayNextValue_first 1 31 2024 2 10 1). lia. Defined.

(** ** The scheduler *)

(** X14: while the id counter has not reached its last value, a
    successful [AddJob] on a scheduler that satisfies the invariant hands
    out the id after the counter, which no registered job has; it maps
    that id to the new job, puts the job last in the slice and leaves all
    other ids as they were. *)
Theorem AddJob_fresh_id (c c' : Scheduler.t) (cronExpression : string) (f : func)
    (now : Time) (i : Z) :
  schedInv c -> Scheduler.id c + 1 < 2 ^ 64 ->
  Scheduler.AddJob c cronExpression f now = Ok (i, None, c') ->
  i = Scheduler.id c + 1 /\ Scheduler.id c' = i /\
  Scheduler.jobMap c !! i = None /\
  (forall k, k <> i -> Scheduler.jobMap c' !! k = Scheduler.jobMap c !! k) /\
  exists p j, Scheduler.jobMap c' !! i = Some p /\ Scheduler.heap c' !! p = Some j /\
              job.id j = i /\ Scheduler.jobs c' = (Scheduler.jobs c ++ [p])%list.
Proof.
  intros Hinv Hno Hadd. apply AddJob_Ok in Hadd.
  destruct Hadd as (j & Hi & Hid & Hh & Hm & Hj & Hc).
  destruct Hinv as (Hcons & Hnd & Hids & Hpos).
  assert (Hi' : i = Scheduler.id c + 1).
  { rewrite Hi. unfold uint_wrap. apply Z.mod_small. lia. }
  split; [exact Hi'|]. split; [exact Hc|]. split.
  - destruct (Scheduler.jobMap c !! i) as [p|] eqn:Hl; [|reflexivity]. exfalso.
    apply Hcons in Hl. destruct Hl as (Hin & j' & Hj' & Hid').
    destruct (Hids p Hin) as (j'' & Hj'' & Hb). assert (j'' = j') as -> by congruence. lia.
  - split.
    + intros k Hk. rewrite Hm. apply lookup_insert_ne. congruence.
    + exists (fresh (dom (Scheduler.heap c))), j. rewrite Hm, Hh, !lookup_insert_eq. auto.
Qed.

Lemma AddJob_fresh_id_witness :
  exists c' : Scheduler.t,
    1 = Scheduler.id Scheduler.New + 1 /\ Scheduler.id c' = 1 /\
    Scheduler.jobMap Scheduler.New !! 1 = None /\
    (forall k, k <> 1 -> Scheduler.jobMap c' !! k = Scheduler.jobMap Scheduler.New !! k) /\
    exists p j, Scheduler.jobMap c' !! 1 = Some p /\ Scheduler.heap c' !! p = Some j /\
                job.id j = 1 /\
                Scheduler.jobs c' = (Scheduler.jobs Scheduler.New ++ [p])%list.
Proof.
  eexists.
  eapply (AddJob_fresh_id Scheduler.New _ "* * * * * ?" (mkFunc 0)
            (Date 2024 2 10 12 0 0 0) 1).
  - exact schedInv_New.
  - vm_compute. reflexivity.
  - vm_compute. reflexivity.
Defined.

(** X15: on a scheduler that satisfies the invariant, a [Remove] that
    returns leaves the id unmapped, keeps every other id and the id
    counter, and takes exactly the job of that id out of the slice; for
    an id that is not registered it changes nothing. *)
Theorem Remove_forgets_id (c c' : Scheduler.t) (i : Z) :
  schedInv c -> Scheduler.Remove c i = Ok c' ->
  Scheduler.jobMap c' !! i = None /\
  (forall k, k <> i -> Scheduler.jobMap c' !! k = Scheduler.jobMap c !! k) /\
  (forall p, p ∈ Scheduler.jobs c' <->
             p ∈ Scheduler.jobs c /\ Scheduler.jobMap c !! i <> Some p) /\
  Scheduler.id c' = Scheduler.id c /\
  (Scheduler.jobMap c !! i = None -> c' = c).
Proof.
  intros Hinv. pose proof Hinv as (Hcons & Hnd & Hids & Hpos). unfold Scheduler.Remove.
  destruct (Scheduler.jobMap c !! i) as [p|] eqn:Hl.
  2:{ intros [= <-]. rewrite Hl. split; [reflexivity|]. split; [reflexivity|].
      split; [|auto]. intros p. split; [intros H; split; [exact H | discriminate]|].
      intros [H _]. exact H. }
  pose proof (proj1 (Hcons i p) Hl) as (Hin & j & Hj & Hid).
  destruct (List.length (Scheduler.jobs c) =? 1)%nat eqn:Elen.
  - destruct (send _) as [st | |]; cbn; intros H; try discriminate. injection H as <-.
    apply Nat.eqb_eq in Elen.
    assert (Hjobs : Scheduler.jobs c = [p]).
    { destruct (Scheduler.jobs c) as [|q [|? ?]]; cbn in Elen; try lia.
      apply list_elem_of_singleton in Hin. congruence. }
    cbn. split; [apply lookup_delete_eq|]. split.
    + intros k Hk. apply lookup_delete_ne. congruence.
    + split; [|split; [reflexivity | discriminate]].
      intros q. rewrite Hjobs. split.
      * intros H. apply elem_of_nil in H. contradiction.
      * intros [H Hne]. apply list_elem_of_singleton in H. congruence.
  - intros H. apply bind_Ok in H. destruct H as (r & Hfind & H).
    destruct (List.length (Scheduler.jobs c) <? r + 1)%nat eqn:Er; [discriminate|].
    injection H as <-. apply Nat.ltb_ge in Er.
    apply findJob_spec in Hfind. destruct Hfind as (k & -> & Hk & _ & Hat).
    cbn [Nat.add] in *.
    destruct (Hat ltac:(lia)) as (q & jq & Hq & Hjq & Hidq).
    assert (q = p) as ->.
    { apply (consistent_unique_id c q p jq j); auto; [|congruence].
      eapply list_elem_of_lookup_2; eauto. }
    cbn. split; [apply lookup_delete_eq|]. split.
    + intros k' Hk'. apply lookup_delete_ne. congruence.
    + split; [|split; [reflexivity | discriminate]].
      intros q. rewrite (elem_of_remove_at _ _ q p Hnd Hq). split.
      * intros [H Hne]. split; [exact H | congruence].
      * intros [H Hne]. split; [exact H | congruence].
Qed.

Lemma schedInv_twoJobs : schedInv twoJobs.
Proof.
  unfold twoJobs.
  destruct (Scheduler.AddJob Scheduler.New _ _ _) as [[[i1 e1] c1] | |] eqn:E1;
    try exact schedInv_New.
  assert (H1 : schedInv c1).
  { apply (AddJob_preserves _ _ _ _ _ _ _ schedInv_New ltac:(vm_compute; reflexivity) E1). }
  assert (Hid : Scheduler.id c1 <= 1).
  { destruct e1 as [e|].
    - apply AddJob_error in E1. destruct E1 as (_ & -> & _). cbn. lia.
    - apply AddJob_Ok in E1. destruct E1 as (j & Hi & _ & _ & _ & _ & Hc).
      rewrite Hc, Hi. vm_compute. discriminate. }
  destruct (Scheduler.AddJob c1 _ _ _) as [[[i2 e2] c2] | |] eqn:E2; try exact schedInv_New.
  apply (AddJob_preserves _ _ _ _ _ _ _ H1 ltac:(lia) E2).
Qed.

Lemma Remove_forgets_id_witness :
  exists c' : Scheduler.t,
    (Scheduler.jobMap twoJobs !! 1 <> None /\ List.length (Scheduler.jobs twoJobs) = 2%nat) /\
    Scheduler.jobMap c' !! 1 = None /\
    (forall k, k <> 1 -> Scheduler.jobMap c' !! k = Scheduler.jobMap twoJobs !! k) /\
    (forall p, p ∈ Scheduler.jobs c' <->
               p ∈ Scheduler.jobs twoJobs /\ Scheduler.jobMap twoJobs !! 1 <> Some p) /\
    Scheduler.id c' = Scheduler.id twoJobs /\
    (Scheduler.jobMap twoJobs !! 1 = None -> c' = twoJobs).
Proof.
  eexists. split; [split; [vm_compute; discriminate | vm_compute; reflexivity]|].
  eapply (Remove_forgets_id twoJobs _ 1).
  - exact schedInv_twoJobs.
  - vm_compute. reflexivity.
Defined.

(** X16: on a scheduler that was never started nothing receives from the
    [stop] channel, so removing the only job leaves a signal in it, and
    removing the only job for the second time never returns: [Remove]
    blocks on the full channel while it holds the lock. *)
Theorem Remove_only_job_twice_blocks (e1 e2 : string) (f1 f2 : func) (now1 now2 : Time)
    (i1 i2 : Z) (c1 c2 c3 : Scheduler.t) :
  Scheduler.AddJob Scheduler.New e1 f1 now1 = Ok (i1, None, c1) ->
  Scheduler.Remove c1 i1 = Ok c2 ->
  Scheduler.AddJob c2 e2 f2 now2 = Ok (i2, None, c3) ->
  Scheduler.stop c2 = 1%nat /\ Scheduler.jobs c2 = [] /\
  Scheduler.Remove c3 i2 = Abort.
Proof.
  intros H1 H2 H3. unfold Scheduler.AddJob in H1.
  destruct (newJob e1 f1 now1) as [j1| |]; try discriminate H1.
  cbn in H1. injection H1 as <- <-.
  unfold Scheduler.Remove in H2. cbn in H2. rewrite lookup_insert_eq in H2. cbn in H2.
  injection H2 as <-. split; [reflexivity|]. split; [reflexivity|].
  unfold Scheduler.AddJob in H3.
  destruct (newJob e2 f2 now2) as [j2| |]; try discriminate H3.
  cbn in H3. injection H3 as <- <-.
  unfold Scheduler.Remove. cbn. rewrite lookup_insert_eq. reflexivity.
Qed.

Lemma Remove_only_job_twice_blocks_witness :
  exists c2 c3 : Scheduler.t,
    Scheduler.stop c2 = 1%nat /\ Scheduler.jobs c2 = [] /\
    Scheduler.Remove c3 2 = Abort.
Proof.
  eexists _, _.
  eapply (Remove_only_job_twice_blocks "* * * * * ?" "0 0 23 L * ?" (mkFunc 0) (mkFunc 1)
            (Date 2024 2 10 12 0 0 0) (Date 2024 2 10 12 0 0 0) 1 2).
  - vm_compute. reflexivity.
  - vm_compute. reflexivity.
  - vm_compute. reflexivity.
Defined.

(** X17: on a scheduler that is not running, [AddJob] returns for every
    expression: with the parser's error, the id 0 and the scheduler
    untouched when the expression does not parse, and with a new job
    otherwise (computing the first fire time never panics). *)
Theorem AddJob_returns (c : Scheduler.t) (cronExpression : string) (f : func) (now : Time) :
  Scheduler.running c = false ->
  (forall err, parse cronExpression = Err err ->
     Scheduler.AddJob c cronExpression f now = Ok (0, Some err, c)) /\
  (forall t, parse cronExpression = Ok t ->
     exists c', Scheduler.AddJob c cronExpression f now =
                  Ok (uint_wrap (Scheduler.id c + 1), None, c') /\
                List.length (Scheduler.jobs c') = S (List.length (Scheduler.jobs c))).
Proof.
  intros Hrun. split.
  - intros err Hp. unfold Scheduler.AddJob, newJob, newTrigger. rewrite Hp. reflexivity.
  - intros t Hp. unfold Scheduler.AddJob, newJob, newTrigger. rewrite Hp.
    cbn [mbind res_bind].
    destruct (next_total t now (parse_wf _ _ Hp)) as (r & t' & -> & _).
    cbn [mbind res_bind]. rewrite Hrun. eexists. split; [reflexivity|].
    cbn [Scheduler.jobs]. rewrite length_app. cbn. lia.
Qed.

Lemma AddJob_returns_witness :
  (forall err, parse "* * * * * ?" = Err err ->
     Scheduler.AddJob Scheduler.New "* * * * * ?" (mkFunc 0) halfPastNoon =
       Ok (0, Some err, Scheduler.New)) /\
  (forall t, parse "* * * * * ?" = Ok t ->
     exists c', Scheduler.AddJob Scheduler.New "* * * * * ?" (mkFunc 0) halfPastNoon =
                  Ok (uint_wrap (Scheduler.id Scheduler.New + 1), None, c') /\
                List.length (Scheduler.jobs c') =
                  S (List.length (Scheduler.jobs Scheduler.New))).
Proof.
  apply (AddJob_returns Scheduler.New "* * * * * ?" (mkFunc 0) halfPastNoon). reflexivity.
Defined.

(** ** Names of months and weekdays *)

(** X18: in the range and list forms a month name [JAN]..[DEC] of the
    month field and a weekday name [SUN]..[SAT] of the weekday field
    stand for their numbers 1..12 and 0..6; every other token of these
    two fields that is not a number is an error. *)
Theorem parseOrAlias_names (str s : string) (f : field.t) (v : Z) :
  (field.name f = monField -> monsAlias s = Some v ->
     parseOrAlias str s f = Ok v /\ 1 <= v <= 12) /\
  (field.name f = weekField -> weekAlias s = Some v ->
     parseOrAlias str s f = Ok v /\ 0 <= v <= 6) /\
  (field.name f = monField -> monsAlias s = None -> (ParseUint s 8).2 <> None ->
     isErr (parseOrAlias str s f) = true) /\
  (field.name f = weekField -> weekAlias s = None -> (ParseUint s 8).2 <> None ->
     isErr (parseOrAlias str s f) = true).
Proof.
  unfold parseOrAlias, checkAlias. split; [|split; [|split]].
  - intros -> Ha. split; [|apply monsAlias_range in Ha; lia]. revert Ha. unfold monsAlias.
    repeat (match goal with |- (if String.eqb s ?x then _ else _) = _ -> _ =>
              destruct (String.eqb s x) eqn:E;
              [apply String.eqb_eq in E; subst s; intros [= <-]; reflexivity | clear E]
            end).
    discriminate.
  - intros -> Ha. split; [|apply weekAlias_range in Ha; lia]. revert Ha. unfold weekAlias.
    repeat (match goal with |- (if String.eqb s ?x then _ else _) = _ -> _ =>
              destruct (String.eqb s x) eqn:E;
              [apply String.eqb_eq in E; subst s; intros [= <-]; reflexivity | clear E]
            end).
    discriminate.
  - intros -> Ha Hn. destruct (ParseUint s 8) as [n [e|]]; [|cbn in Hn; congruence].
    rewrite Ha. reflexivity.
  - intros -> Ha Hn. destruct (ParseUint s 8) as [n [e|]]; [|cbn in Hn; congruence].
    rewrite Ha. reflexivity.
Qed.
